(** * rtpipe: planner, segment reader and searcher of the transient pipeline

    A shallow embedding of the functions of [rtpipe/RT.py] and
    [parsesdm.py] that plan the DM grid, read a segment, split the search
    of one segment over threads and chunks, and image candidates.

    Conventions of the embedding.
    - Python 2 integers (and numpy integers) are [Z]; [/] between them is
      floor division, [Z.div].
    - Python and numpy floats are idealised as real numbers [R]: every
      float operation is the exact operation on reals.  Inputs on which
      the float code would produce an infinity or a NaN (a division by
      zero) are outside this idealisation; the theorems exclude them by
      a hypothesis.  The one place where rounding decides how many times
      a loop runs, the length of [numpy.arange], is not idealised: the
      quotient that numpy computes in double precision is a parameter.
    - The state dictionary [d] is a record.  The keys whose presence the
      code tests with [has_key], or that are added to the dictionary only
      by later pipeline stages, are [option] fields; reading an absent
      key raises [KeyError].
    - Functions that can raise return a [result].
    - Dictionaries of candidates are finite maps ([gmap]).
    - The functions of the compiled imaging library, of the data reader
      and of the file system, whose code is not part of the repository,
      are variables of the section that uses them. *)

From Stdlib Require Import ZArith Reals Lra Lia List String Ascii Bool.
From stdpp Require Import base list sorting gmap strings pretty.
Import ListNotations.

Local Open Scope Z_scope.

(** ** Python runtime: exceptions, indexing, slicing, paths *)

Module Py.

Inductive exn : Type :=
| IndexError
| KeyError (key : string)
| AssertionError
| ValueError
| UnboundLocalError
| ZeroDivisionError.

Inductive result (A : Type) : Type :=
| Ok (a : A)
| Raise (e : exn).

Arguments Ok {A} a.
Arguments Raise {A} e.

Definition bind {A B : Type} (r : result A) (k : A -> result B) : result B :=
  match r with
  | Ok a => k a
  | Raise e => Raise e
  end.

(** [d[key]] on a key that may be absent. *)
Definition getkey {A : Type} (key : string) (o : option A) : result A :=
  match o with
  | Some a => Ok a
  | None => Raise (KeyError key)
  end.

(** A list comprehension whose element expression can raise. *)
Fixpoint mapM {A B : Type} (f : A -> result B) (l : list A) : result (list B) :=
  match l with
  | [] => Ok []
  | x :: rest =>
      match f x with
      | Ok y => match mapM f rest with
                | Ok ys => Ok (y :: ys)
                | Raise e => Raise e
                end
      | Raise e => Raise e
      end
  end.

(** A loop whose body can raise, threading the value it updates. *)
Fixpoint foldM {A B : Type} (f : B -> A -> result B) (acc : B) (l : list A) : result B :=
  match l with
  | [] => Ok acc
  | x :: rest =>
      match f acc x with
      | Ok acc' => foldM f acc' rest
      | Raise e => Raise e
      end
  end.

(** [range(n)]. *)
Definition range (n : Z) : list Z := seqZ 0 n.

(** [l[i]] with Python's negative indices. *)
Definition index {A : Type} (l : list A) (i : Z) : result A :=
  let len := Z.of_nat (length l) in
  let j := if i <? 0 then i + len else i in
  if (j <? 0) || (len <=? j) then Raise IndexError
  else match l !! Z.to_nat j with
       | Some a => Ok a
       | None => Raise IndexError
       end.

(** The bound [i] of a slice [l[i:...]] or [l[...:i]] of a sequence of
    length [len], after Python's adjustment of negative and large values. *)
Definition clip (len i : Z) : Z :=
  if i <? 0 then Z.max 0 (i + len) else Z.min i len.

(** The positions selected by [l[i0:i1]] in a sequence of length [len]. *)
Definition slice_indices (len i0 i1 : Z) : list Z :=
  seqZ (clip len i0) (clip len i1 - clip len i0).

(** [l[i0:i1]]. *)
Definition slice {A : Type} (l : list A) (i0 i1 : Z) : list A :=
  let len := Z.of_nat (length l) in
  take (Z.to_nat (clip len i1 - clip len i0)) (drop (Z.to_nat (clip len i0)) l).

(** [a/b] between Python 2 integers: floor division, which raises on a
    zero divisor. *)
Definition py_div (a b : Z) : result Z :=
  if b =? 0 then Raise ZeroDivisionError else Ok (a / b).

(** [str(z)] of an integer. *)
Definition str (z : Z) : string := pretty z.

(** [s.startswith('/')] and [s.endswith('/')]. *)
Definition startswith_slash (s : string) : bool :=
  match s with
  | String c _ => Ascii.eqb c "/"%char
  | EmptyString => false
  end.

Fixpoint endswith_slash (s : string) : bool :=
  match s with
  | EmptyString => false
  | String c EmptyString => Ascii.eqb c "/"%char
  | String _ rest => endswith_slash rest
  end.

(** [os.path.join(a, b)] of [posixpath]. *)
Definition path_join (a b : string) : string :=
  if startswith_slash b then b
  else if String.eqb a EmptyString || endswith_slash a then (a ++ b)%string
  else (a ++ "/" ++ b)%string.

(** [numpy.roll(l, shift)] along the axis that [l] lists: the element at
    position [i] moves to position [(i + shift) mod len]. *)
Definition roll {A : Type} (l : list A) (shift : Z) : list A :=
  let len := Z.of_nat (length l) in
  if len =? 0 then l
  else let k := Z.to_nat (len - shift mod len) in drop k l ++ take k l.

End Py.

Import Py.

Notation "x <- e1 ;; e2" := (Py.bind e1 (fun x => e2))
  (at level 100, e1 at next level, right associativity).

(** ** The pipeline state [d] *)

(** Key of a candidate: [(segment, int, dmind, dtind, beamnum)]. *)
Definition candid : Type := (Z * Z * Z * Z * Z)%type.

Record state : Type := mkState {
  (* keys that a dictionary may lack *)
  workdir : option string;
  fileroot : option string;
  scan : option Z;
  segment : option Z;
  segmenttimes : option (list (R * R));
  (* metadata *)
  filename : string;
  freq : list R;
  freq_orig : list R;
  inttime : R;
  starttime_mjd : R;
  spw_reffreq : list R;
  spw_nchan : list Z;
  nbl : Z;
  chans : list Z;
  read_tdownsample : Z;
  read_fdownsample : Z;
  (* search parameters *)
  savecands : bool;
  searchtype : string;
  features : list string;
  nthread : Z;
  nchunk : Z;
  readints : Z;
  dmarr : list R;
  dtarr : list Z;
  datadelay : list Z;
  uvres : Z;
  npixx : Z;
  npixy : Z;
  npixx_full : Z;
  npixy_full : Z;
  sigma_image1 : R;
  sigma_image2 : R
}.

(** ** [getcandsfile] and [getnoisefile] *)

(** The path both functions build; [prefix] is ['cands_'] or ['noise_'].
    Python evaluates the operands left to right, so a missing key is
    reported in the order workdir, fileroot, scan. *)
Definition segment_file (prefix : string) (d : state) (seg : Z) : result string :=
  wd <- getkey "workdir" (workdir d) ;;
  fr <- getkey "fileroot" (fileroot d) ;;
  sc <- getkey "scan" (scan d) ;;
  Ok (path_join wd (prefix ++ fr ++ "_sc" ++ str sc ++ "seg" ++ str seg ++ ".pkl")%string).

Definition getcandsfile (d : state) (segment_arg : Z) : result string :=
  match segment d with
  | Some s => segment_file "cands_" d s
  | None =>
      if segment_arg >=? 0 then segment_file "cands_" d segment_arg
      else Ok EmptyString
  end.

Definition getnoisefile (d : state) (segment_arg : Z) : result string :=
  match segment d with
  | Some s => segment_file "noise_" d s
  | None =>
      if segment_arg >=? 0 then segment_file "noise_" d segment_arg
      else Ok EmptyString
  end.

(** ** [search]: the search of one segment *)

Inductive level : Type := Debug | Info | Warn.

(** What [search] does that is visible from outside: log records, the
    w-kernel generation, and the jobs it maps over the pool. *)
Inductive event : Type :=
| Log (lvl : level) (msg : string)
| GenUVKernels
| Dedisperse (dmind dtind : Z) (blrange : Z * Z)
| Image (dmind dtind : Z) (irange : Z * Z).

(** A visibility, [complex64]. *)
Record complex : Type := mkComplex { re : R; im : R }.

Definition czero : complex := mkComplex 0 0.

Definition complex_nonzero (c : complex) : bool :=
  if Req_dec_T (re c) 0
  then (if Req_dec_T (im c) 0 then false else true)
  else true.

(** [n.any(data)] on the flattened work buffer. *)
Definition n_any (data : list complex) : bool := existsb complex_nonzero data.

(** [blranges]: the baseline range of each thread. *)
Definition blranges (d : state) : list (Z * Z) :=
  (fun t => (nbl d * t / nthread d, nbl d * (t + 1) / nthread d)) <$> range (nthread d).

(** [nskip_dm]; the comparison [d['segment'] != 0] multiplies as 0 or 1. *)
Definition nskip_dm (d : state) (dmind dtind : Z) : result Z :=
  ddlast <- index (datadelay d) (-1) ;;
  dd <- index (datadelay d) dmind ;;
  dt <- index (dtarr d) dtind ;;
  seg <- getkey "segment" (segment d) ;;
  Ok ((ddlast - dd) / dt * Z.b2z (negb (seg =? 0))).

Definition searchints (d : state) (dmind dtind : Z) : result Z :=
  nskip <- nskip_dm d dmind dtind ;;
  dd <- index (datadelay d) dmind ;;
  dt <- index (dtarr d) dtind ;;
  Ok ((readints d - dd) / dt - nskip).

(** [irange]: the integration range of each chunk. *)
Definition irange (d : state) (nskip sints : Z) : list (Z * Z) :=
  (fun chunk => (nskip + sints * chunk / nchunk d,
                 nskip + sints * (chunk + 1) / nchunk d)) <$> range (nchunk d).

(** The integrations that [image1] images for one chunk: it reads
    [data_resamp[i0:i1]], and [data_resamp] has [readints] integrations. *)
Definition imaged_ints (d : state) (ir : Z * Z) : list Z :=
  slice_indices (readints d) (fst ir) (snd ir).

(** The baselines that [correct_dmdt] dedisperses for one thread: it
    writes [data_resamp[:, bl0:bl1]], and the buffer has [nbl] baselines. *)
Definition dedispersed_bls (d : state) (br : Z * Z) : list Z :=
  slice_indices (nbl d) (fst br) (snd br).

Section Search.

(** The values of a candidate; [search] only moves them around. *)
Context {V : Type}.

(** [os.path.exists]. *)
Variable path_exists : string -> bool.

(** [image1(d, u, v, w, dmind, dtind, beamnum, irange)]: the candidates of
    one chunk.  Its body calls the compiled imaging library. *)
Variable image1 : state -> Z -> Z -> Z -> Z * Z -> gmap candid V.

(** The loop [for kk in imageresult.keys(): cands[kk] = imageresult[kk]]
    over all results of one map: later entries overwrite earlier ones. *)
Definition collect (cands : gmap candid V) (imageresults : list (gmap candid V)) : gmap candid V :=
  foldl (fun acc imageresult => imageresult ∪ acc) cands imageresults.

(** The body of the two loops for one pair [(dmind, dtind)]. *)
Definition search_pair (d : state) (beamnum : Z) (acc : list event * gmap candid V)
    (dmind dtind : Z) : result (list event * gmap candid V) :=
  _dm <- index (dmarr d) dmind ;;
  _dt <- index (dtarr d) dtind ;;
  let dedisp := Dedisperse dmind dtind <$> blranges d in
  nskip <- nskip_dm d dmind dtind ;;
  sints <- searchints d dmind dtind ;;
  let ir := irange d nskip sints in
  let imageresults := image1 d dmind dtind beamnum <$> ir in
  Ok (fst acc ++ [Log Debug "Dedispersing for (%d,%d)"] ++ dedisp
        ++ [Log Info "Imaging %d ints from %d for (%d,%d)"]
        ++ (Image dmind dtind <$> ir),
      collect (snd acc) imageresults).

Fixpoint search_pairs (d : state) (beamnum : Z) (acc : list event * gmap candid V)
    (pairs : list (Z * Z)) : result (list event * gmap candid V) :=
  match pairs with
  | [] => Ok acc
  | (dmind, dtind) :: rest =>
      acc' <- search_pair d beamnum acc dmind dtind ;;
      search_pairs d beamnum acc' rest
  end.

(** The pairs in iteration order: [dmind] outer, [dtind] inner. *)
Definition trial_pairs (d : state) : list (Z * Z) :=
  dmind ← range (Z.of_nat (length (dmarr d)));
  dtind ← range (Z.of_nat (length (dtarr d)));
  [(dmind, dtind)].

Definition search (d : state) (data : list complex) : result (list event * gmap candid V) :=
  _seg <- getkey "segment" (segment d) ;;
  let beamnum := 0 in
  let cands : gmap candid V := ∅ in
  let log0 := [Log Debug "Search of segment %d"] in
  candsfile <- getcandsfile d (-1) ;;
  if savecands d && path_exists candsfile
  then Ok (log0 ++ [Log Warn "candsfile %s already exists"], cands)
  else
    let log1 := log0 ++ (if String.eqb (searchtype d) "image2w" then [GenUVKernels] else []) in
    if n_any data then
      _dmlast <- index (dmarr d) (-1) ;;
      _dtlast <- index (dtarr d) (-1) ;;
      let log2 := log1 ++ [Log Info "Searching in %d chunks with %d threads";
                           Log Info "Dedispering to max (DM, dt) of (%d, %d) ..."] in
      if nthread d <? 1 then Raise ValueError
      else
        r <- search_pairs d beamnum (log2, cands) (trial_pairs d) ;;
        Ok (fst r ++ [Log Info "Found %d cands in scan %d segment %d of %s. "], snd r)
    else
      Ok (log1 ++ [Log Warn "Data for processing is zeros. Moving on...";
                   Log Info "Found %d cands in scan %d segment %d of %s. "], cands).

End Search.

Definition is_dedisperse (e : event) : bool :=
  match e with Dedisperse _ _ _ => true | _ => false end.

Definition is_image (e : event) : bool :=
  match e with Image _ _ _ => true | _ => false end.

Definition is_warning (e : event) : bool :=
  match e with Log Warn _ => true | _ => false end.

(** The integers of the half-open interval [[lo, hi)] that a range denotes. *)
Definition interval (r : Z * Z) : list Z := seqZ (fst r) (snd r - fst r).

(** Each range ends where the next one starts. *)
Definition consecutive (l : list (Z * Z)) : Prop :=
  forall i r1 r2, l !! i = Some r1 -> l !! S i = Some r2 -> snd r1 = fst r2.

(** The ranges [(a t, a (t+1))] for [t] in [range(k)]: the common shape of
    [blranges] and [irange]. *)
Definition cuts (a : Z -> Z) (k : Z) : list (Z * Z) :=
  (fun t => (a t, a (t + 1))) <$> range k.

(** The valid integration range in the words of the specification. *)
Definition spec_nskip_dm (seg ddlast dd dt : Z) : Z :=
  if seg =? 0 then 0 else (ddlast - dd) / dt.

Definition spec_searchints (rints dd dt nskip : Z) : Z :=
  (rints - dd) / dt - nskip.

(** The invariants of a planned state that [search] relies on: the keys
    of the products and of the segment are defined, there is a delay per
    DM, delays are not negative and the last one is the largest, every
    time width is positive, a segment is at least as long as the largest
    delay, and there is at least one thread and one chunk. *)
Record planned (d : state) : Prop := mkPlanned {
  planned_workdir : is_Some (workdir d);
  planned_fileroot : is_Some (fileroot d);
  planned_scan : is_Some (scan d);
  planned_segment : is_Some (segment d);
  planned_dmarr : dmarr d <> [];
  planned_dtarr : dtarr d <> [];
  planned_datadelay : length (datadelay d) = length (dmarr d);
  planned_dt : Forall (fun dt => 0 < dt) (dtarr d);
  planned_delay : exists ddlast, last (datadelay d) = Some ddlast
                    /\ Forall (fun dd => 0 <= dd <= ddlast) (datadelay d)
                    /\ ddlast <= readints d;
  planned_nthread : 1 <= nthread d;
  planned_nchunk : 1 <= nchunk d;
  planned_nbl : 0 <= nbl d
}.

(** The events of one pair [(dmind, dtind)] of the search loop. *)
Definition pair_events (d : state) (dmind dtind nskip sints : Z) : list event :=
  [Log Debug "Dedispersing for (%d,%d)"] ++ (Dedisperse dmind dtind <$> blranges d)
    ++ [Log Info "Imaging %d ints from %d for (%d,%d)"]
    ++ (Image dmind dtind <$> irange d nskip sints).

(** The range [(nskip_dm, searchints)] of a pair; [(0, 0)] stands for a
    range that cannot be computed. *)
Definition valid_range (d : state) (dmind dtind : Z) : Z * Z :=
  match nskip_dm d dmind dtind, searchints d dmind dtind with
  | Ok nskip, Ok sints => (nskip, sints)
  | _, _ => (0, 0)
  end.

Definition pair_trace (d : state) (p : Z * Z) : list event :=
  pair_events d (fst p) (snd p)
    (fst (valid_range d (fst p) (snd p))) (snd (valid_range d (fst p) (snd p))).

(** The events of [search] before the loops, when the data are searched. *)
Definition search_prefix (d : state) : list event :=
  [Log Debug "Search of segment %d"]
    ++ (if String.eqb (searchtype d) "image2w" then [GenUVKernels] else [])
    ++ [Log Info "Searching in %d chunks with %d threads";
        Log Info "Dedispering to max (DM, dt) of (%d, %d) ..."].

(** The baseline ranges submitted for dedispersion and the integration
    ranges submitted for imaging for the pair [(dmind, dtind)], in the
    order of submission. *)
Definition dedisperse_job (dmind dtind : Z) (e : event) : option (Z * Z) :=
  match e with
  | Dedisperse dm dt br => if (dm =? dmind) && (dt =? dtind) then Some br else None
  | _ => None
  end.

Definition image_job (dmind dtind : Z) (e : event) : option (Z * Z) :=
  match e with
  | Image dm dt ir => if (dm =? dmind) && (dt =? dtind) then Some ir else None
  | _ => None
  end.

Definition dedisperse_jobs (tr : list event) (dmind dtind : Z) : list (Z * Z) :=
  omap (dedisperse_job dmind dtind) tr.

Definition image_jobs (tr : list event) (dmind dtind : Z) : list (Z * Z) :=
  omap (image_job dmind dtind) tr.

(** ** Example states *)

Definition example_state : state := {|
  workdir := Some "/data"%string;
  fileroot := Some "obs.sdm"%string;
  scan := Some 7;
  segment := Some 1;
  segmenttimes := Some [(57000, 57000 + 1 / 86400); (57000 + 1 / 86400, 57000 + 2 / 86400)]%R;
  filename := "/data/obs.sdm";
  freq := [1; 2; 3]%R;
  freq_orig := [1; 2; 3]%R;
  inttime := (5 / 1000)%R;
  starttime_mjd := 57000%R;
  spw_reffreq := [1000000000; 2000000000; 3000000000]%R;
  spw_nchan := [1; 1; 1];
  nbl := 45;
  chans := [0; 1; 2];
  read_tdownsample := 1;
  read_fdownsample := 1;
  savecands := false;
  searchtype := "image1";
  features := ["snr1"; "immax1"; "l1"; "m1"]%string;
  nthread := 4;
  nchunk := 3;
  readints := 200;
  dmarr := [0; 50; 100]%R;
  dtarr := [1; 2];
  datadelay := [0; 10; 21];
  uvres := 100;
  npixx := 64;
  npixy := 64;
  npixx_full := 128;
  npixy_full := 128;
  sigma_image1 := 6%R;
  sigma_image2 := 5%R
|}.

(** The per-segment path of a product, as the specification describes it:
    [workdir/<prefix><fileroot>_sc<scan>seg<segment>.pkl]. *)
Definition spec_segment_path (wd fr : string) (sc : Z) (prefix : string) (seg : Z) : string :=
  path_join wd (prefix ++ fr ++ "_sc" ++ str sc ++ "seg" ++ str seg ++ ".pkl")%string.

(** ** [read_bdf_segment]: reading one segment *)

Definition Rltb (a b : R) : bool := if Rlt_dec a b then true else false.

(** Floor of a real. *)
Definition Rfloor (x : R) : Z := Int_part x.

(** Python 2 [round(x, 0)]: halves go away from zero. *)
Definition py_round (x : R) : Z :=
  if Rle_dec 0 x then Rfloor (x + 1 / 2) else - Rfloor (- x + 1 / 2).

(** [numpy.round(x, 0)]: halves go to the even neighbour. *)
Definition n_round (x : R) : Z :=
  let f := Rfloor x in
  let r := (x - IZR f)%R in
  if Rlt_dec r (1 / 2) then f
  else if Rlt_dec (1 / 2) r then f + 1
  else if Z.even f then f else f + 1.

(** The visibilities of a segment, indexed [int][bl][chan][pol]: a
    rectangular array.  An array with an empty axis is represented with
    its later axes empty as well. *)
Definition visdata : Type := list (list (list (list complex))).

(** [data.shape], read off the first entry along each axis. *)
Definition data_shape (data : visdata) : Z * Z * Z * Z :=
  let integration := hd [] data in
  let baseline := hd [] integration in
  let channel := hd [] baseline in
  (Z.of_nat (length data), Z.of_nat (length integration),
   Z.of_nat (length baseline), Z.of_nat (length channel)).

(** [a.mean()] of a one-dimensional array. *)
Definition n_mean (a : list R) : R := (foldr Rplus 0 a / INR (length a))%R.

(** The mean of complex numbers. *)
Definition c_mean (l : list complex) : complex :=
  mkComplex (n_mean (re <$> l)) (n_mean (im <$> l)).

#[global] Instance complex_inhabited : Inhabited complex := populate czero.

(** [numpy.zeros((sh0, sh1, sh2, sh3))]: a negative dimension is
    refused. *)
Definition n_zeros (sh0 sh1 sh2 sh3 : Z) : result visdata :=
  if (sh0 <? 0) || (sh1 <? 0) || (sh2 <? 0) || (sh3 <? 0) then Raise ValueError
  else Ok (replicate (Z.to_nat sh0)
             (replicate (Z.to_nat sh1)
                (replicate (Z.to_nat sh2) (replicate (Z.to_nat sh3) czero)))).

(** [block.mean(axis=0)]: entry by entry, the mean over the integrations
    of the block. *)
Definition mean_axis0 (block : visdata) : list (list (list complex)) :=
  imap (fun (b : nat) (baseline : list (list complex)) =>
          imap (fun (c : nat) (channel : list complex) =>
                  imap (fun (p : nat) (_ : complex) =>
                          c_mean ((fun integration : list (list (list complex)) =>
                                     ((integration !!! b) !!! c) !!! p) <$> block))
                    channel)
            baseline)
    (hd [] block).

(** [data[:, :, c0:c1].mean(axis=2)]: for every integration and baseline,
    the mean over the channels of the slice, one value per polarisation. *)
Definition mean_axis2 (data : visdata) (c0 c1 : Z) : list (list (list complex)) :=
  (fun integration : list (list (list complex)) =>
     (fun baseline : list (list complex) =>
        let group := slice baseline c0 c1 in
        imap (fun (p : nat) (_ : complex) =>
                c_mean ((fun channel : list complex => channel !!! p) <$> group))
          (hd [] group))
     <$> integration)
  <$> (data : list (list (list (list complex)))).

(** [data2[i] = value], where [value] has [sh2] channels and the
    integrations of [data2] have [fsize]: numpy repeats a single channel
    over the channels of the target, and refuses any other difference of
    shape. *)
Definition assign_integration (sh2 fsize : Z) (data2 : visdata) (i : Z)
    (value : list (list (list complex))) : result visdata :=
  if sh2 =? fsize then Ok (<[Z.to_nat i := value]> data2)
  else if sh2 =? 1 then
    Ok (<[Z.to_nat i :=
            (fun baseline : list (list complex) =>
               replicate (Z.to_nat fsize) (baseline !!! 0%nat)) <$> value]> data2)
  else Raise ValueError.

(** [data2[:, :, i, :] = value], where [value] has [sh0] integrations and
    [data2] has [tsize]: numpy repeats a single integration over the
    integrations of the target, and refuses any other difference of
    shape. *)
Definition assign_channel (sh0 tsize : Z) (data2 : visdata) (i : Z)
    (value : list (list (list complex))) : result visdata :=
  let assign (integration2 : list (list (list complex)))
             (integration : list (list complex)) : list (list (list complex)) :=
    zip_with (fun (baseline2 : list (list complex)) (pols : list complex) =>
                <[Z.to_nat i := pols]> baseline2)
      integration2 integration in
  if sh0 =? tsize then Ok (zip_with assign data2 value)
  else if sh0 =? 1 then Ok ((fun integration2 => assign integration2 (value !!! 0%nat)) <$> data2)
  else Raise ValueError.

(** [data.take(chans, axis=2)]: for every integration and baseline the
    channels listed, a negative index counted from the end; an index out
    of range raises. *)
Definition take_axis2 (data : visdata) (chans : list Z) : result visdata :=
  mapM (fun integration : list (list (list complex)) =>
          mapM (fun baseline : list (list complex) => mapM (index baseline) chans)
            integration)
    data.

(** [numpy.roll(data, shift, axis=2)]. *)
Definition roll_axis2 (data : visdata) (shift : Z) : visdata :=
  (fun integration : list (list (list complex)) =>
     (fun baseline : list (list complex) => roll baseline shift) <$> integration)
  <$> (data : list (list (list (list complex)))).

(** [[reffreq[i+1] - reffreq[i] for i in range(len(reffreq)-1)]]. *)
Definition dfreq (reffreq : list R) : list R :=
  zip_with (fun lo hi => (hi - lo)%R) reffreq (drop 1 reffreq).

(** [numpy.where(cond)[0]] for the elements from position [i] on. *)
Fixpoint where_from (cond : R -> bool) (i : Z) (l : list R) : list Z :=
  match l with
  | [] => []
  | x :: rest =>
      if cond x then i :: where_from cond (i + 1) rest
      else where_from cond (i + 1) rest
  end.

Definition n_where (cond : R -> bool) (l : list R) : list Z := where_from cond 0 l.

(** [numpy.sum] of a list of integers. *)
Definition n_sum (l : list Z) : Z := foldr Z.add 0 l.

Section Reader.

(** [sdmreader.read_bdf(filename, scan, nskip=..., readints=...)]. *)
Variable read_bdf : string -> Z -> Z -> Z -> visdata.

(** The integration range of the segment. *)
Definition segment_range (d : state) (segment_arg : Z) : result (Z * Z) :=
  if negb (segment_arg =? -1) then
    match segmenttimes d with
    | None => Raise AssertionError
    | Some times =>
        first <- index times 0 ;;
        row <- index times segment_arg ;;
        let rints := py_round (24 * 3600 * (snd first - fst first) / inttime d) in
        let nskip := n_round (24 * 3600 * (fst row - starttime_mjd d) / inttime d) in
        Ok (nskip, rints)
    end
  else Ok (0, 0).

(** The test that the spectral windows are in frequency order, and the
    reordering of the channel axis when they are not. *)
Definition spw_reorder (d : state) (data : visdata) : result visdata :=
  let df := dfreq (spw_reffreq d) in
  if negb (forallb (fun x => Rltb 0 x) df) then
    let negative := n_where (fun x => Rltb x 0) df in
    if Z.of_nat (length negative) =? 1 then
      wrap <- index negative 0 ;;
      nchans <- mapM (index (spw_nchan d)) (range (wrap + 1)) ;;
      let rollch := n_sum nchans in
      Ok (roll_axis2 data rollch)
    else Raise AssertionError
  else Ok data.

(** The optional integration of the data in time and in frequency: an
    array of zeros of the downsampled shape is filled integration by
    integration with the means over [read_tdownsample] integrations, then
    channel by channel with the means over [read_fdownsample] channels. *)
Definition downsample (d : state) (data : visdata) : result visdata :=
  if (1 <? read_tdownsample d) || (1 <? read_fdownsample d) then
    let '(sh0, sh1, sh2, sh3) := data_shape data in
    tsize <- py_div sh0 (read_tdownsample d) ;;
    fsize <- py_div sh2 (read_fdownsample d) ;;
    data2 <- n_zeros tsize sh1 fsize sh3 ;;
    data2 <- (if 1 <? read_tdownsample d then
                foldM (fun data2 i =>
                         assign_integration sh2 fsize data2 i
                           (mean_axis0 (slice data (i * read_tdownsample d)
                                          ((i + 1) * read_tdownsample d))))
                  data2 (range tsize)
              else Ok data2) ;;
    data2 <- (if 1 <? read_fdownsample d then
                foldM (fun data2 i =>
                         assign_channel sh0 tsize data2 i
                           (mean_axis2 data (i * read_fdownsample d)
                              ((i + 1) * read_fdownsample d)))
                  data2 (range fsize)
              else Ok data2) ;;
    Ok data2
  else Ok data.

(** [read_bdf_segment(d, segment)]: the integration range, the read, the
    reordering of the spectral windows, the downsampling and the
    selection of the channels [d['chans']]. *)
Definition read_bdf_segment (d : state) (segment_arg : Z) : result visdata :=
  r <- segment_range d segment_arg ;;
  sc <- getkey "scan" (scan d) ;;
  let data := read_bdf (filename d) sc (fst r) (snd r) in
  data <- spw_reorder d data ;;
  data <- downsample d data ;;
  take_axis2 data (chans d).

End Reader.

(** A state whose spectral windows are stored in the order of the
    reference frequencies [reffreq], with [nchan] channels each, all of
    them selected: [d['chans'] = range(number of channels)], as
    [get_metadata] sets it when no channel is asked for. *)
Definition with_spw (d : state) (reffreq : list R) (nchan : list Z) : state := {|
  workdir := workdir d; fileroot := fileroot d; scan := scan d; segment := segment d;
  segmenttimes := segmenttimes d; filename := filename d; freq := freq d;
  freq_orig := freq_orig d; inttime := inttime d; starttime_mjd := starttime_mjd d;
  spw_reffreq := reffreq; spw_nchan := nchan; nbl := nbl d;
  chans := range (n_sum nchan); read_tdownsample := read_tdownsample d;
  read_fdownsample := read_fdownsample d;
  savecands := savecands d; searchtype := searchtype d; features := features d;
  nthread := nthread d; nchunk := nchunk d; readints := readints d; dmarr := dmarr d;
  dtarr := dtarr d; datadelay := datadelay d; uvres := uvres d; npixx := npixx d;
  npixy := npixy d; npixx_full := npixx_full d; npixy_full := npixy_full d;
  sigma_image1 := sigma_image1 d; sigma_image2 := sigma_image2 d
|}.

(** Four windows of one channel each, stored with the lowest window last:
    reference frequencies 2, 3, 4 and 1 GHz. *)
Definition wrapped_state : state :=
  with_spw example_state [2000000000; 3000000000; 4000000000; 1000000000]%R [1; 1; 1; 1].

(** One polarisation of one channel whose visibility records the
    frequency (in GHz) it was observed at. *)
Definition observed_at (ghz : R) : list complex := [mkComplex ghz 0].

(** One integration of one baseline, in the order [wrapped_state] stores
    the windows. *)
Definition wrapped_data : visdata :=
  [[[observed_at 2; observed_at 3; observed_at 4; observed_at 1]]].

(** ** [calc_dmgrid]: the DM grid *)

Local Open Scope R_scope.

(** Ceiling of a real. *)
Definition Rceil (x : R) : Z := (- Rfloor (- x))%Z.

(** The quotient [(stop - start)/step] in exact arithmetic. *)
Definition exact_quotient (start stop step : R) : R := (stop - start) / step.

Section LossModel.

(** The local variables of [calc_dmgrid] that its lambdas close over:
    pulse width and sampling time (microseconds), mean frequency (GHz),
    bandwidth and channel width (MHz). *)
Variables dt tsamp freq bw ch : R.

Definition k : R := 8.3.

Definition dt0 (dm : R) : R :=
  sqrt (dt ^ 2 + tsamp ^ 2 + ((k * dm * ch) / (freq ^ 3)) ^ 2).

Definition dt1 (dm ddm : R) : R :=
  sqrt (dt ^ 2 + tsamp ^ 2 + ((k * dm * ch) / (freq ^ 3)) ^ 2
        + ((k * ddm * bw) / (freq ^ 3)) ^ 2).

Definition loss (dm ddm : R) : R := 1 - sqrt (dt0 dm / dt1 dm ddm).

End LossModel.

(** One turn of the loop over [dmgrid]; [dmgrid_final] is never empty. *)
Definition dmgrid_step (loss : R -> R -> R) (maxloss : R) (dmgrid_final : list R) (dm : R)
    : list R :=
  let ddm := (dm - default 0 (last dmgrid_final)) / 2 in
  let ll := loss dm ddm in
  if Rgt_dec ll maxloss then dmgrid_final ++ [dm] else dmgrid_final.

Section DMGrid.

(** numpy takes the number of points of [arange(start, stop, step)] from
    a computation in double precision, the ceiling of the quotient
    [(stop - start)/step].  [float_quotient start stop step] is the value
    that the double-precision subtraction and division give to that
    quotient.  It can lie on the other side of an integer than
    [exact_quotient]: for [arange(0.05, 0.2, 0.05)] it is
    [3.0000000000000004], and the array has the four points 0.05, 0.1,
    0.15 and 0.2. *)
Variable float_quotient : R -> R -> R -> R.

(** [numpy.arange(start, stop, step)]. *)
Definition arange (start stop step : R) : list R :=
  (fun i => start + IZR i * step) <$> range (Rceil (float_quotient start stop step)).

Definition calc_dmgrid (d : state) (maxloss dt mindm maxdm : R) : result (list R) :=
  let tsamp := inttime d * 1e6 in
  let freq_mean := n_mean (freq d) in
  flast <- index (freq d) (-1) ;;
  f0 <- index (freq d) 0 ;;
  let bw := 1e3 * (flast - f0) in
  f1 <- index (freq d) 1 ;;
  let ch := 1e3 * (f1 - f0) in
  if Req_dec_T maxdm 0 then Ok [0]
  else
    let dmgrid := arange mindm maxdm 0.05 in
    first <- index dmgrid 0 ;;
    Ok (foldl (dmgrid_step (loss dt tsamp freq_mean bw ch) maxloss) [first] dmgrid).

End DMGrid.

(** The grid in the words of the specification: walk the trial grid and
    append a trial DM exactly when the loss to the last appended DM exceeds
    [maxloss]. *)
Fixpoint spec_dmgrid (loss : R -> R -> R) (maxloss lastdm : R) (trials : list R) : list R :=
  match trials with
  | [] => []
  | dm :: rest =>
      if Rgt_dec (loss dm ((dm - lastdm) / 2)) maxloss
      then dm :: spec_dmgrid loss maxloss dm rest
      else spec_dmgrid loss maxloss lastdm rest
  end.

(** The trial grid [mindm, mindm + 0.05, ...] with [n] points. *)
Definition trial_grid (mindm : R) (n : nat) : list R :=
  (fun i : nat => mindm + INR i * 0.05) <$> seq 0 n.

(** The loss model of a state: the arguments [calc_dmgrid] passes to
    [loss]. *)
Definition state_loss (d : state) (dt f0 f1 flast : R) : R -> R -> R :=
  loss dt (inttime d * 1e6) (n_mean (freq d)) (1e3 * (flast - f0)) (1e3 * (f1 - f0)).

Local Close Scope R_scope.

(** [a] and [b] are successive entries of [grid]. *)
Definition adjacent (a b : R) (grid : list R) : Prop :=
  exists l1 l2, grid = l1 ++ a :: b :: l2.

(** The bound of the specification on a grid, for a tolerance [eps]: the
    loss between successive entries is at most [maxloss + eps]. *)
Definition loss_within (loss : R -> R -> R) (maxloss eps : R) (grid : list R) : Prop :=
  forall a b, adjacent a b grid -> (loss a ((b - a) / 2) <= maxloss + eps)%R.

(** A low-frequency band: three channels at 50, 100 and 150 MHz, sampled
    every 4 ms. *)
Definition lowband_state : state := {|
  workdir := Some "/data"%string;
  fileroot := Some "low.sdm"%string;
  scan := Some 3;
  segment := None;
  segmenttimes := None;
  filename := "/data/low.sdm";
  freq := [0.05; 0.1; 0.15]%R;
  freq_orig := [0.05; 0.1; 0.15]%R;
  inttime := 0.004%R;
  starttime_mjd := 57000%R;
  spw_reffreq := [50000000]%R;
  spw_nchan := [3];
  nbl := 45;
  chans := [0; 1; 2];
  read_tdownsample := 1;
  read_fdownsample := 1;
  savecands := false;
  searchtype := "image1";
  features := ["snr1"; "immax1"; "l1"; "m1"]%string;
  nthread := 4;
  nchunk := 4;
  readints := 200;
  dmarr := [];
  dtarr := [1];
  datadelay := [];
  uvres := 10;
  npixx := 64;
  npixy := 64;
  npixx_full := 128;
  npixy_full := 128;
  sigma_image1 := 6%R;
  sigma_image2 := 5%R
|}.

(** ** Images and [calc_lm] *)

Local Open Scope R_scope.

(** A two-dimensional array [im[x][y]], as the list of its rows; all rows
    have the same length. *)
Definition image : Type := list (list R).

(** [im.shape]. *)
Definition shape (im : image) : Z * Z :=
  (Z.of_nat (length im), Z.of_nat (length (hd [] im))).

(** [a.max()] and [a.min()] of the flattened array; they raise on an
    empty array. *)
Definition n_max (a : list R) : result R :=
  match a with
  | [] => Raise ValueError
  | x :: rest => Ok (foldl Rmax x rest)
  end.

Definition n_min (a : list R) : result R :=
  match a with
  | [] => Raise ValueError
  | x :: rest => Ok (foldl Rmin x rest)
  end.

(** [a.std()]: the square root of the mean squared deviation. *)
Definition n_std (a : list R) : R :=
  sqrt (n_mean ((fun x => Rabs (x - n_mean a) ^ 2) <$> a)).

(** The columns of a row that hold [v], from column [y] on. *)
Fixpoint row_where (v : R) (y : Z) (row : list R) : list Z :=
  match row with
  | [] => []
  | p :: rest =>
      if Req_dec_T p v then y :: row_where v (y + 1) rest
      else row_where v (y + 1) rest
  end.

(** [numpy.where(im == v)]: the positions that hold [v], by rows. *)
Fixpoint im_where (v : R) (x : Z) (im : list (list R)) : list (Z * Z) :=
  match im with
  | [] => []
  | row :: rest => ((fun y => (x, y)) <$> row_where v 0 row) ++ im_where v (x + 1) rest
  end.

(** The peak pixel of [calc_lm] when no pixel is given. *)
Definition peak_pixel (im : image) (minmax : string) : result (R * R) :=
  if String.eqb minmax "max" then
    mx <- n_max (concat im) ;;
    p <- index (im_where mx 0 im) 0 ;;
    Ok (IZR (fst p), IZR (snd p))
  else if String.eqb minmax "min" then
    mn <- n_min (concat im) ;;
    p <- index (im_where mn 0 im) 0 ;;
    Ok (IZR (fst p), IZR (snd p))
  else Raise UnboundLocalError.

Definition calc_lm (d : state) (im : image) (pix : list R) (minmax : string)
    : result (R * R) :=
  peak <- match pix with
          | [] => peak_pixel im minmax
          | [peakl; peakm] => Ok (peakl, peakm)
          | _ => Raise UnboundLocalError
          end ;;
  let npixx := fst (shape im) in
  let npixy := snd (shape im) in
  let l1 := (IZR npixx / 2 - fst peak) / IZR (npixx * uvres d) in
  let m1 := (IZR npixy / 2 - snd peak) / IZR (npixy * uvres d) in
  Ok (l1, m1).

(** The pixel at which the specification predicts a source at direction
    cosine [l] on an axis of [n] pixels. *)
Definition spec_pixel (n : nat) (uv_res : Z) (l : R) : R :=
  INR n / 2 - l * INR n * IZR uv_res.

Local Close Scope R_scope.

(** ** [get_uvw_segment]: the baselines of a segment *)

Local Open Scope R_scope.

(** The [datetime] argument of [calc_uvw]: 0 for the default, or the
    string that [qa.time] formats. *)
Inductive datetime : Type :=
| DefaultTime
| TimeString (s : string).

Section UVW.

(** [qa.time(qa.quantity(t, 'd'), form=['ymdhms'], prec=9)[0]] for a time
    [t] in days (MJD). *)
Variable qa_time : R -> string.

(** [sdmreader.calc_uvw(filename, scan, datetime=...)]: the baselines
    [(u, v, w)] in metres. *)
Variable calc_uvw : string -> Z -> datetime -> list R * list R * list R.

(** Metres to wavelengths at the first channel, with the sign of the
    measurement-set convention. *)
Definition to_lambda (d_freq0 : R) (x : R) : R := x * d_freq0 * (1e9 / 3e8) * (-1).

Definition get_uvw_segment (d : state) (segment_arg : Z)
    : result (list R * list R * list R) :=
  time <- (if negb (segment_arg =? -1)%Z then
             match segmenttimes d with
             | None => Raise AssertionError
             | Some times =>
                 row0 <- index times segment_arg ;;
                 let t0 := fst row0 in
                 row1 <- index times segment_arg ;;
                 let t1 := snd row1 in
                 Ok (TimeString (qa_time ((t1 + t0) / 2)))
             end
           else Ok DefaultTime) ;;
  sc <- getkey "scan" (scan d) ;;
  let uvw := calc_uvw (filename d) sc time in
  f0 <- index (freq_orig d) 0 ;;
  Ok (to_lambda f0 <$> fst (fst uvw), to_lambda f0 <$> snd (fst uvw), to_lambda f0 <$> snd uvw).

End UVW.

(** The speed of light in m/s, with the value the code gives it. *)
Definition c_light : R := 3e8.

(** The conversion in the words of the specification:
    [u_lambda = - u_m * freq0[Hz] / c], for [freq0] in GHz. *)
Definition spec_lambda (freq0_ghz : R) (u_m : R) : R := - u_m * (freq0_ghz * 1e9) / c_light.

Local Close Scope R_scope.

(** ** [image2]: two-stage imaging of a chunk *)

Local Open Scope R_scope.

(** [numpy.outer(a, b)]. *)
Definition n_outer (a b : list R) : list (list R) :=
  (fun x => (fun y => x * y) <$> b) <$> a.

(** The scaling of the baselines to each channel,
    [n.outer(u, d['freq']/d['freq_orig'][0])]. *)
Definition uv_scaled (d : state) (u : list R) : result (list (list R)) :=
  f0 <- index (freq_orig d) 0 ;;
  Ok (n_outer u ((fun f => f / f0) <$> freq d)).

(** The most extreme pixel of the second image over its standard
    deviation.  For a constant image the standard deviation is zero and
    the float code divides by zero: [snr2] is then an infinity (or a NaN
    for the zero image), which this function does not represent; the
    theorems on [snr2] are stated for a standard deviation that is not
    zero. *)
Definition extreme_snr (im2 : image) : result R :=
  mx <- n_max (concat im2) ;;
  let snrmax := mx / n_std (concat im2) in
  mn <- n_min (concat im2) ;;
  let snrmin := mn / n_std (concat im2) in
  Ok (if Rge_dec snrmax (Rabs snrmin) then snrmax else snrmin).

(** [im.max()] when [snr > 0], else [im.min()]. *)
Definition signed_peak (im : image) (snr : R) : result R :=
  if Rgt_dec snr 0 then n_max (concat im) else n_min (concat im).

(** [calc_lm] at the maximum when [snr > 0], else at the minimum. *)
Definition signed_lm (d : state) (im : image) (snr : R) : result (R * R) :=
  if Rgt_dec snr 0 then calc_lm d im [] "max" else calc_lm d im [] "min".

(** One turn of the loop over [d['features']]: the value appended to [ff]
    for a feature that [image2] knows, nothing for any other name. *)
Definition image2_feature (im1 im2 : image) (snr1 snr2 : R) (lm1 lm2 : R * R)
    (feature : string) : result (list R) :=
  if String.eqb feature "snr1" then Ok [snr1]
  else if String.eqb feature "immax1" then (p <- signed_peak im1 snr1 ;; Ok [p])
  else if String.eqb feature "l1" then Ok [fst lm1]
  else if String.eqb feature "m1" then Ok [snd lm1]
  else if String.eqb feature "snr2" then Ok [snr2]
  else if String.eqb feature "immax2" then (p <- signed_peak im2 snr2 ;; Ok [p])
  else if String.eqb feature "l2" then Ok [fst lm2]
  else if String.eqb feature "m2" then Ok [snd lm2]
  else Ok [].

Section Imaging.

(** [rtlib.imgallfullfilterxy(u, v, data, npixx, npixy, uvres, sigma)]:
    the first-stage images above threshold, their SNR, and the integrations
    (relative to the chunk) they come from. *)
Variable imgallfullfilterxy :
  list (list R) -> list (list R) -> visdata -> Z -> Z -> Z -> R ->
  list image * list R * list Z.

(** [rtlib.imgonefullxy(u, v, data, npixx, npixy, uvres)]: the image of
    one integration. *)
Variable imgonefullxy :
  list (list R) -> list (list R) -> list (list (list complex)) -> Z -> Z -> Z -> image.

(** The body of the loop over the candidates of the first stage. *)
Definition image2_candidate (d : state) (data_resamp : visdata) (i0 : Z) (u v : list R)
    (dmind dtind beamnum : Z) (ims : list image) (snr : list R) (candints : list Z)
    (feat : gmap candid (list R)) (i : Z) : result (gmap candid (list R)) :=
  uu <- uv_scaled d u ;;
  vv <- uv_scaled d v ;;
  cand <- index candints i ;;
  integration <- index data_resamp (i0 + cand) ;;
  let im2 := imgonefullxy uu vv integration (npixx_full d) (npixy_full d) (uvres d) in
  snr2 <- extreme_snr im2 ;;
  if Rgt_dec (Rabs snr2) (sigma_image2 d) then
    snr1 <- index snr i ;;
    im1 <- index ims i ;;
    lm1 <- signed_lm d im1 snr1 ;;
    lm2 <- signed_lm d im2 snr2 ;;
    dt <- index (dtarr d) dtind ;;
    _dm <- index (dmarr d) dmind ;;
    seg <- getkey "segment" (segment d) ;;
    let key := (seg, ((i0 + cand) * dt)%Z, dmind, dtind, beamnum) in
    ff <- mapM (image2_feature im1 im2 snr1 snr2 lm1 lm2) (features d) ;;
    Ok (<[key := concat ff]> feat)
  else
    _dt <- index (dtarr d) dtind ;;
    _dm <- index (dmarr d) dmind ;;
    _snr1 <- index snr i ;;
    Ok feat.

Definition image2 (d : state) (data_resamp : visdata) (i0 i1 : Z) (u v w : list R)
    (dmind dtind beamnum : Z) : result (gmap candid (list R)) :=
  uu <- uv_scaled d u ;;
  vv <- uv_scaled d v ;;
  let first := imgallfullfilterxy uu vv (slice data_resamp i0 i1)
                 (npixx d) (npixy d) (uvres d) (sigma_image1 d) in
  let ims := fst (fst first) in
  let snr := snd (fst first) in
  let candints := snd first in
  foldM (image2_candidate d data_resamp i0 u v dmind dtind beamnum ims snr candints)
    ∅ (range (Z.of_nat (length candints))).

End Imaging.

(** The feature list of [set_pipeline] for the search types [image2] and
    [image2w]. *)
Definition image2_features : list string :=
  ["snr1"; "immax1"; "l1"; "m1"; "snr2"; "immax2"; "l2"; "m2"]%string.

Local Close Scope R_scope.

(** ** A second image exactly at the threshold *)

Local Open Scope R_scope.

(** The state [d] set up for the search type [image2] on images of [n]
    by [n] pixels in both stages. *)
Definition with_npix (d : state) (n : Z) : state := {|
  workdir := workdir d; fileroot := fileroot d; scan := scan d; segment := segment d;
  segmenttimes := segmenttimes d; filename := filename d; freq := freq d;
  freq_orig := freq_orig d; inttime := inttime d; starttime_mjd := starttime_mjd d;
  spw_reffreq := spw_reffreq d; spw_nchan := spw_nchan d; nbl := nbl d;
  chans := chans d; read_tdownsample := read_tdownsample d;
  read_fdownsample := read_fdownsample d;
  savecands := savecands d; searchtype := "image2"; features := image2_features;
  nthread := nthread d; nchunk := nchunk d; readints := readints d; dmarr := dmarr d;
  dtarr := dtarr d; datadelay := datadelay d; uvres := uvres d; npixx := n;
  npixy := n; npixx_full := n; npixy_full := n;
  sigma_image1 := sigma_image1 d; sigma_image2 := sigma_image2 d
|}.

(** Two-stage imaging on 2 by 2 images, with [sigma_image2 = 5]. *)
Definition threshold_state : state := with_npix example_state 2.

(** A first stage that finds one candidate, of SNR 7, in the first
    integration of the chunk. *)
Definition first_stage_one :
    list (list R) -> list (list R) -> visdata -> Z -> Z -> Z -> R ->
    list image * list R * list Z :=
  fun _ _ _ _ _ _ _ => ([[[7; 0]; [0; 0]]], [7], [0%Z]).

(** A second stage whose image has mean 4 and standard deviation 1, so
    that its peak of 5 is exactly 5 standard deviations. *)
Definition second_stage_five :
    list (list R) -> list (list R) -> list (list (list complex)) -> Z -> Z -> Z -> image :=
  fun _ _ _ _ _ _ => [[5; 3]; [3; 5]].

(** A buffer of one integration, one baseline, one channel, one
    polarisation. *)
Definition one_integration : visdata := [[[[mkComplex 1 0]]]].

Local Close Scope R_scope.

(** * Planning the segments: [calc_segment_times] and the memory budget *)

(** ** The keys of the state that planning reads *)

(** The state dictionary with the keys that [set_pipeline] and its
    helpers, and the functions that read the candidates back, read
    beside those of [state]: the integrations of the scan, the overlap of
    the segments, the shape of the data, the memory limit and the names
    of the entries of a candidate key.  [t_segment] is set by
    [calc_segment_times], [memory_limit] is optional, and
    [segmenttimesdict] is what a merged candidate file has. *)
Record pipeline_state : Type := mkPipeline {
  search_state :> state;
  nints : Z;
  nskip : Z;
  nsegments : Z;
  t_overlap : R;
  t_segment : option R;
  nchan : Z;
  npol : Z;
  npix : Z;
  memory_limit : option R;
  featureind : list string;
  segmenttimesdict : option (gmap Z (list (R * R)))
}.

(** [d['segmenttimes'] = times; d['readints'] = rints]. *)
Definition with_segmenttimes (d : state) (times : list (R * R)) (rints : Z) : state := {|
  workdir := workdir d; fileroot := fileroot d; scan := scan d; segment := segment d;
  segmenttimes := Some times; filename := filename d; freq := freq d;
  freq_orig := freq_orig d; inttime := inttime d; starttime_mjd := starttime_mjd d;
  spw_reffreq := spw_reffreq d; spw_nchan := spw_nchan d; nbl := nbl d;
  chans := chans d; read_tdownsample := read_tdownsample d;
  read_fdownsample := read_fdownsample d;
  savecands := savecands d; searchtype := searchtype d; features := features d;
  nthread := nthread d; nchunk := nchunk d; readints := rints; dmarr := dmarr d;
  dtarr := dtarr d; datadelay := datadelay d; uvres := uvres d; npixx := npixx d;
  npixy := npixy d; npixx_full := npixx_full d; npixy_full := npixy_full d;
  sigma_image1 := sigma_image1 d; sigma_image2 := sigma_image2 d
|}.

(** [d['nchunk'] = n]. *)
Definition with_nchunk (d : state) (n : Z) : state := {|
  workdir := workdir d; fileroot := fileroot d; scan := scan d; segment := segment d;
  segmenttimes := segmenttimes d; filename := filename d; freq := freq d;
  freq_orig := freq_orig d; inttime := inttime d; starttime_mjd := starttime_mjd d;
  spw_reffreq := spw_reffreq d; spw_nchan := spw_nchan d; nbl := nbl d;
  chans := chans d; read_tdownsample := read_tdownsample d;
  read_fdownsample := read_fdownsample d;
  savecands := savecands d; searchtype := searchtype d; features := features d;
  nthread := nthread d; nchunk := n; readints := readints d; dmarr := dmarr d;
  dtarr := dtarr d; datadelay := datadelay d; uvres := uvres d; npixx := npixx d;
  npixy := npixy d; npixx_full := npixx_full d; npixy_full := npixy_full d;
  sigma_image1 := sigma_image1 d; sigma_image2 := sigma_image2 d
|}.

(** [d['read_tdownsample'] = t; d['read_fdownsample'] = f]. *)
Definition with_downsample (d : state) (t f : Z) : state := {|
  workdir := workdir d; fileroot := fileroot d; scan := scan d; segment := segment d;
  segmenttimes := segmenttimes d; filename := filename d; freq := freq d;
  freq_orig := freq_orig d; inttime := inttime d; starttime_mjd := starttime_mjd d;
  spw_reffreq := spw_reffreq d; spw_nchan := spw_nchan d; nbl := nbl d;
  chans := chans d; read_tdownsample := t; read_fdownsample := f;
  savecands := savecands d; searchtype := searchtype d; features := features d;
  nthread := nthread d; nchunk := nchunk d; readints := readints d; dmarr := dmarr d;
  dtarr := dtarr d; datadelay := datadelay d; uvres := uvres d; npixx := npixx d;
  npixy := npixy d; npixx_full := npixx_full d; npixy_full := npixy_full d;
  sigma_image1 := sigma_image1 d; sigma_image2 := sigma_image2 d
|}.

(** ** [calc_segment_times] *)

Local Open Scope R_scope.

(** [numpy.linspace(start, stop, num)]; a negative [num] is refused
    (old versions of numpy return an empty array instead). *)
Definition linspace (start stop : R) (num : Z) : result (list R) :=
  if (num <? 0)%Z then Raise ValueError
  else if (num =? 1)%Z then Ok [start]
  else Ok ((fun i => start + IZR i * ((stop - start) / IZR (num - 1))) <$> range num).

(** [a.sum()] of a one-dimensional array. *)
Definition n_sum_R (a : list R) : R := foldr Rplus 0 a.

Section SegmentTimes.

(** [qa.getvalue(qa.convert(qa.time(qa.quantity(t, 'd'), form=['ymd'],
    prec=9)[0], 's'))[0] / (24*3600)]: the time [t] (MJD, in days) written
    as a date by the CASA quanta tool and read back. *)
Variable qa_days : R -> R.

Definition calc_segment_times (d : pipeline_state) : result pipeline_state :=
  let overlap := t_overlap d / inttime d in
  points <- linspace (IZR (nskip d) + overlap) (IZR (nints d)) (nsegments d + 1) ;;
  let stopdts := drop 1 points in
  let startdts := IZR (nskip d) :: ((fun x => x - overlap) <$> slice stopdts 0 (-1)) in
  let times :=
    zip_with (fun startdt stopdt =>
                (qa_days (starttime_mjd d + startdt / (24 * 3600)),
                 qa_days (starttime_mjd d + stopdt / (24 * 3600))))
      (Rmult (inttime d) <$> startdts) (Rmult (inttime d) <$> stopdts) in
  match times with
  | [] => Raise IndexError
  | _ =>
      let totaltimeread := 24 * 3600 * n_sum_R ((fun row => snd row - fst row) <$> times) in
      let rints :=
        n_round (totaltimeread
                 / (inttime d * IZR (nsegments d) * IZR (read_tdownsample d))) in
      Ok {| search_state := with_segmenttimes d times rints;
            nints := nints d; nskip := nskip d; nsegments := nsegments d;
            t_overlap := t_overlap d;
            t_segment := Some (totaltimeread / IZR (nsegments d));
            nchan := nchan d; npol := npol d;
            npix := npix d; memory_limit := memory_limit d;
            featureind := featureind d; segmenttimesdict := segmenttimesdict d |}
  end.

End SegmentTimes.

(** The length of a segment in integrations, overlap included: the step
    of the grid of stop times plus the overlap. *)
Definition segment_length (d : pipeline_state) : R :=
  (IZR (nints d) - (IZR (nskip d) + t_overlap d / inttime d)) / IZR (nsegments d)
  + t_overlap d / inttime d.

Local Close Scope R_scope.

(** A scan of 1000 integrations of 5 ms, to be read in four segments
    that overlap by 100 ms. *)
Definition example_scan : pipeline_state := {|
  search_state := example_state;
  nints := 1000; nskip := 0; nsegments := 4; t_overlap := (1 / 10)%R; t_segment := None;
  nchan := 3; npol := 2; npix := 64; memory_limit := Some 1%R;
  featureind := ["segment"; "int"; "dmind"; "dtind"; "beamnum"]%string;
  segmenttimesdict := None
|}.

(** ** [datasize], [calc_memory_footprint] and the fit of [nchunk] *)

Definition datasize (d : pipeline_state) : Z := readints d * nbl d * nchan d * npol d.

Local Open Scope R_scope.

(** Number of [complex64] to GB. *)
Definition toGB : R := 8 / 1024 ^ 3.

(** [calc_memory_footprint(d, headroom, visonly)]: the memory of the
    visibilities alone, or with the memory of the images. *)
Definition calc_memory_footprint (d : pipeline_state) (headroom : R) (visonly : bool)
    : if visonly then R else (R * R)%type :=
  let vismem := headroom * IZR (datasize d) * toGB in
  match visonly return (if visonly then R else (R * R)%type) with
  | true => vismem
  | false =>
      let immem := IZR (nthread d * (readints d / nchunk d * npixx d * npixy d)) * toGB in
      (vismem, immem)
  end.

(** [d['nchunk'] = 2*d['nchunk']]. *)
Definition double_nchunk (d : pipeline_state) : pipeline_state := {|
  search_state := with_nchunk d (2 * nchunk d);
  nints := nints d; nskip := nskip d; nsegments := nsegments d; t_overlap := t_overlap d;
  t_segment := t_segment d; nchan := nchan d;
  npol := npol d; npix := npix d; memory_limit := memory_limit d;
  featureind := featureind d; segmenttimesdict := segmenttimesdict d
|}.

(** The loop [while vismem+immem > d['memory_limit']] at the end of
    [set_pipeline]; [None] when [fuel] turns do not end it. *)
Fixpoint fit_nchunk (fuel : nat) (limit : R) (d : pipeline_state) : option pipeline_state :=
  let mem := calc_memory_footprint d 4 false in
  if Rgt_dec (fst mem + snd mem) limit then
    match fuel with
    | O => None
    | S fuel' => fit_nchunk fuel' limit (double_nchunk d)
    end
  else Some d.

(** The memory test at the end of [set_pipeline]: with a memory limit,
    the visibilities must fit, and [nchunk] is doubled until the images
    fit as well. *)
Definition fit_memory (fuel : nat) (d : pipeline_state) : option (result pipeline_state) :=
  let mem := calc_memory_footprint d 4 false in
  match memory_limit d with
  | None => Some (Ok d)
  | Some limit =>
      if Rlt_dec (fst mem) limit then
        if Rgt_dec (fst mem + snd mem) limit then Ok <$> fit_nchunk fuel limit d
        else Some (Ok d)
      else Some (Raise AssertionError)
  end.

(** Visibilities and images of the state fit in [limit] GB. *)
Definition fits (limit : R) (d : pipeline_state) : Prop :=
  fst (calc_memory_footprint d 4 false) + snd (calc_memory_footprint d 4 false) <= limit.

Local Close Scope R_scope.

(** * The size of the full image *)

(** [a.min()] of an array of integers. *)
Definition n_min_Z (a : list Z) : result Z :=
  match a with
  | [] => Raise ValueError
  | x :: rest => Ok (foldl Z.min x rest)
  end.

(** [numpy.where(a == v)] for a two-dimensional array of integers: the
    positions that hold [v], by rows. *)
Fixpoint row_where_Z (v : Z) (y : Z) (row : list Z) : list Z :=
  match row with
  | [] => []
  | p :: rest =>
      if p =? v then y :: row_where_Z v (y + 1) rest else row_where_Z v (y + 1) rest
  end.

Fixpoint where_Z (v : Z) (x : Z) (a : list (list Z)) : list (Z * Z) :=
  match a with
  | [] => []
  | row :: rest => ((fun y => (x, y)) <$> row_where_Z v 0 row) ++ where_Z v (x + 1) rest
  end.

(** [n.fromfunction(lambda i,j: 2**i*3**j, (14,10), dtype='int')]. *)
Definition powers : list (list Z) :=
  (fun i => (fun j => 2 ^ i * 3 ^ j) <$> range 10) <$> range 14.

(** The number of pixels of the full image on one axis, as [set_pipeline]
    and [get_metadata] compute it from the extent [rangex] of the
    baselines (an integer, after rounding) and the resolution [uvres]:
    [largerx = n.where(powers - rangex/uvres > 0, powers, powers[-1,-1])],
    [p2x, p3x = n.where(largerx == largerx.min())] and
    [(2**p2x * 3**p3x)[0]]. *)
Definition full_npix (rangex uv_res : Z) : result Z :=
  lastrow <- index powers (-1) ;;
  largest <- index lastrow (-1) ;;
  let largerx :=
    (fun row : list Z => (fun p => if p - rangex / uv_res >? 0 then p else largest) <$> row)
    <$> powers in
  smallest <- n_min_Z (concat largerx) ;;
  let found := where_Z smallest 0 largerx in
  p2x <- index (fst <$> found) 0 ;;
  p3x <- index (snd <$> found) 0 ;;
  Ok (2 ^ p2x * 3 ^ p3x).

(** * Metadata of a scan: baselines and time per source *)

(** [d['blarr']] of [get_metadata]:
    [[[ants[i], ants[j]] for j in range(nants) for i in range(0, j)]];
    the indices are in range by construction.  [d['nbl']] is its
    length. *)
Definition blarr (ants : list Z) : list (Z * Z) :=
  j ← range (Z.of_nat (length ants));
  i ← range j;
  [(ants !!! Z.to_nat i, ants !!! Z.to_nat j)].

(** The entries of [myscans] that [duration] reads: the name of the
    source, the intent and the length of the scan in days. *)
Record scan_info : Type := mkScanInfo {
  scan_source : string;
  scan_intent : string;
  scan_duration : R
}.

(** [s.find(sub) >= 0]. *)
Definition contains (sub s : string) : bool :=
  match String.index 0 sub s with
  | Some _ => true
  | None => false
  end.

(** The loop [for s in range(len(durations))] of [duration]: the last
    position whose name is [src]; [found] is [None] while [new == 1]. *)
Fixpoint find_source (src : string) (durations : list (string * R)) (s : nat)
    (found : option nat) : option nat :=
  match durations with
  | [] => found
  | entry :: rest =>
      find_source src rest (S s) (if String.eqb src (fst entry) then Some s else found)
  end.

(** [dur] in the loop of [duration]: the minutes that a scan counts
    for. *)
Definition counted_minutes (nocal : bool) (mys : scan_info) : R :=
  if nocal && (contains "CALIBRATE_SIDEBAND" (scan_intent mys)
               || contains "CALIBRATE_POINTING" (scan_intent mys)
               || contains "CALIBRATE_ATMOSPHERE" (scan_intent mys))
  then 0%R else (scan_duration mys * 1440)%R.

(** One turn of the loop of [duration] over the scans. *)
Definition duration_step (nocal : bool) (durations : list (string * R)) (mys : scan_info)
    : list (string * R) :=
  let src := scan_source mys in
  let dur := counted_minutes nocal mys in
  match find_source src durations 0 None with
  | None => durations ++ [(src, dur)]
  | Some source => alter (fun entry => (fst entry, (snd entry + dur)%R)) source durations
  end.

(** [duration(myscans, nocal)]; [myscans] lists the values of the
    dictionary in the order in which [myscans.keys()] gives their keys. *)
Definition duration (myscans : list scan_info) (nocal : bool) : list (string * R) :=
  foldl (duration_step nocal) [] myscans.

(** The scans of the source [src]. *)
Definition scans_of (src : string) (myscans : list scan_info) : list scan_info :=
  filter (fun mys => scan_source mys = src) myscans.

(** * Candidates read back: [read_candidates] *)

(** Python's order on tuples of integers. *)
Fixpoint tuple_le (a b : list Z) : bool :=
  match a, b with
  | [], _ => true
  | _ :: _, [] => false
  | x :: a', y :: b' => (x <? y) || ((x =? y) && tuple_le a' b')
  end.

(** [list(kk)] for the key of a candidate. *)
Definition candid_tuple (kk : candid) : list Z :=
  [fst (fst (fst (fst kk))); snd (fst (fst (fst kk))); snd (fst (fst kk)); snd (fst kk); snd kk].

Definition candid_le (a b : candid) : Prop :=
  tuple_le (candid_tuple a) (candid_tuple b) = true.

#[global] Instance candid_le_dec : RelDecision candid_le :=
  fun a b => decide (tuple_le (candid_tuple a) (candid_tuple b) = true).

(** [l.index(x)] for an [x] that is in [l]. *)
Fixpoint list_index (x : string) (l : list string) : option Z :=
  match l with
  | [] => None
  | y :: rest => if String.eqb x y then Some 0 else Z.succ <$> list_index x rest
  end.

(** The column of the SNR: that of ['snr2'] when the features have it,
    else that of ['snr1']; [None] when [snrcol] is left unbound. *)
Definition snrcol (features : list string) : option Z :=
  if bool_decide ("snr2"%string ∈ features) then list_index "snr2" features
  else if bool_decide ("snr1"%string ∈ features) then list_index "snr1" features
  else None.

(** One turn of the loop over the sorted keys. *)
Definition read_candidate (d : state) (cands : gmap candid (list R)) (snrmin snrmax : R)
    (acc : list candid * list (list R)) (kk : candid)
    : result (list candid * list (list R)) :=
  v <- getkey "kk" (cands !! kk) ;;
  col <- match snrcol (features d) with
         | Some col => Ok col
         | None => Raise UnboundLocalError
         end ;;
  snr <- index v col ;;
  if Rltb snrmin (Rabs snr) && Rltb (Rabs snr) snrmax
  then Ok (fst acc ++ [kk], snd acc ++ [v])
  else Ok acc.

(** [read_candidates] on the two objects that the file holds, the state
    [d] and the dictionary [cands] (the test [cands == 0] is false for a
    dictionary): the keys and the features of the candidates whose
    absolute SNR lies strictly between [snrmin] and [snrmax], in the order
    of the keys. *)
Definition read_candidates (d : state) (cands : gmap candid (list R)) (snrmin snrmax : R)
    : result (list candid * list (list R)) :=
  foldM (read_candidate d cands snrmin snrmax) ([], [])
    (merge_sort candid_le (fst <$> map_to_list cands)).

(** * Noise measurements: the windows of [noisepickle] *)

(** [range(start, stop, step)]. *)
Definition range3 (start stop step : Z) : result (list Z) :=
  if step =? 0 then Raise ValueError
  else if 0 <? step
       then Ok ((fun i => start + i * step) <$> range ((stop - start + step - 1) / step))
       else Ok ((fun i => start + i * step) <$> range ((start - stop - step - 1) / (- step))).

(** The windows of integrations in which [noisepickle] measures the
    noise of data of [nints] integrations: for each turn of its loop, the
    bounds [rr[i]] and [rr[i+1]] of the slice it hands to
    [estimate_noiseperbl] and the integration [imid] it images.  The
    measurements themselves are made by the compiled library. *)
Definition noise_windows (nints chunk : Z) : result (list (Z * Z * Z)) :=
  let chunk := Z.min chunk nints in
  rr <- range3 0 nints chunk ;;
  let rr := if Z.of_nat (length rr) =? 1 then rr ++ [1] else rr in
  mapM (fun i =>
          lo <- index rr i ;;
          hi <- index rr (i + 1) ;;
          Ok (lo, hi, (lo + hi) / 2))
    (range (Z.of_nat (length rr) - 1)).

(** * Coordinates of a candidate: [deg2HMS] *)

Local Open Scope R_scope.









Local Close Scope R_scope.

(** * The time of a candidate: [int2mjd] *)

Local Open Scope R_scope.

(** [l.index(x)], which raises when [x] is not in [l]. *)
Definition index_of (x : string) (l : list string) : result Z :=
  match list_index x l with
  | Some i => Ok i
  | None => Raise ValueError
  end.

(** [int2mjd(d, loc)], for [loc] given by its rows: the time of each
    candidate in seconds (MJD). *)
Definition int2mjd (d : pipeline_state) (loc : list (list Z)) : result (list R) :=
  match loc with
  | [] => Ok []
  | _ =>
      intcol <- index_of "int" (featureind d) ;;
      segmentcol <- index_of "segment" (featureind d) ;;
      t0 <- match segmenttimesdict d with
            | Some dict =>
                scancol <- index_of "scan" (featureind d) ;;
                mapM (fun row =>
                        sc <- index row scancol ;;
                        times <- getkey (str sc) (dict !! sc) ;;
                        seg <- index row segmentcol ;;
                        bounds <- index times seg ;;
                        Ok (fst bounds)) loc
            | None =>
                times <- getkey "segmenttimes" (segmenttimes d) ;;
                mapM (fun row =>
                        seg <- index row segmentcol ;;
                        bounds <- index times seg ;;
                        Ok (fst bounds)) loc
            end ;;
      ints <- mapM (fun row => index row intcol) loc ;;
      Ok (zip_with (fun t i => (t + inttime d / (24 * 3600) * IZR i) * 24 * 3600) t0 ints)
  end.

Local Close Scope R_scope.

(** * [image2w]: two-stage imaging with w-projection kernels *)

Local Open Scope R_scope.

Section ImagingW.

(** The baseline sets and the kernels that [rtlib.genuvkernels] returns. *)
Context {Bls Kernels : Type}.

(** [rtlib.imgallfullfilterxy], as for [image2]. *)
Variable imgallfullfilterxy :
  list (list R) -> list (list R) -> visdata -> Z -> Z -> Z -> R ->
  list image * list R * list Z.

(** [rtlib.imgonefullw(u, v, data, npix, uvres, bls, uvkers)]: the image
    of one integration, gridded with the w-projection kernels. *)
Variable imgonefullw :
  list (list R) -> list (list R) -> list (list (list complex)) -> Z -> Z ->
  Bls -> Kernels -> image.

(** The body of the loop over the candidates of the first stage. *)
Definition image2w_candidate (d : state) (data_resamp : visdata) (i0 : Z) (u v : list R)
    (dmind dtind beamnum : Z) (bls : Bls) (uvkers : Kernels)
    (ims : list image) (snr : list R) (candints : list Z)
    (feat : gmap candid (list R)) (i : Z) : result (gmap candid (list R)) :=
  let npix := Z.max (npixx_full d) (npixy_full d) in
  uu <- uv_scaled d u ;;
  vv <- uv_scaled d v ;;
  cand <- index candints i ;;
  integration <- index data_resamp (i0 + cand) ;;
  let im2 := imgonefullw uu vv integration npix (uvres d) bls uvkers in
  snr2 <- extreme_snr im2 ;;
  if Rgt_dec (Rabs snr2) (sigma_image2 d) then
    snr1 <- index snr i ;;
    im1 <- index ims i ;;
    lm1 <- signed_lm d im1 snr1 ;;
    lm2 <- signed_lm d im2 snr2 ;;
    dt <- index (dtarr d) dtind ;;
    _dm <- index (dmarr d) dmind ;;
    seg <- getkey "segment" (segment d) ;;
    let key := (seg, ((i0 + cand) * dt)%Z, dmind, dtind, beamnum) in
    ff <- mapM (image2_feature im1 im2 snr1 snr2 lm1 lm2) (features d) ;;
    Ok (<[key := concat ff]> feat)
  else
    _dt <- index (dtarr d) dtind ;;
    _dm <- index (dmarr d) dmind ;;
    _snr1 <- index snr i ;;
    Ok feat.

Definition image2w (d : state) (data_resamp : visdata) (i0 i1 : Z) (u v w : list R)
    (dmind dtind beamnum : Z) (bls : Bls) (uvkers : Kernels)
    : result (gmap candid (list R)) :=
  uu <- uv_scaled d u ;;
  vv <- uv_scaled d v ;;
  let first := imgallfullfilterxy uu vv (slice data_resamp i0 i1)
                 (npixx d) (npixy d) (uvres d) (sigma_image1 d) in
  let ims := fst (fst first) in
  let snr := snd (fst first) in
  let candints := snd first in
  foldM (image2w_candidate d data_resamp i0 u v dmind dtind beamnum bls uvkers
           ims snr candints)
    ∅ (range (Z.of_nat (length candints))).

End ImagingW.

Local Close Scope R_scope.

(** * Merging candidates: the time ranges that [merge_cands] removes *)

Local Open Scope R_scope.

(** [a[ww]] for a mask [ww] of booleans as long as [a]. *)
Fixpoint mask_select {A : Type} (a : list A) (ww : list bool) : list A :=
  match a, ww with
  | x :: a', b :: ww' => if b then x :: mask_select a' ww' else mask_select a' ww'
  | _, _ => []
  end.

(** One turn of the loop over the bad ranges. *)
Definition remove_range (remove mergetimes : list R) (ww : list bool) (first : Z)
    : result (list bool) :=
  badrange0 <- index remove first ;;
  badrange1 <- index remove (first + 1) ;;
  Ok (zip_with andb ww
        ((fun t => Rltb t badrange0 || Rltb badrange1 t) <$> mergetimes)).

(** The block [if remove: ...] of [merge_cands]: the keys and the
    features of the candidates that are left, given the time of each
    candidate.  The three arrays have one entry per candidate. *)
Definition merge_remove {A B : Type} (remove mergetimes : list R)
    (mergeloc : list A) (mergeprop : list B) : result (list A * list B) :=
  match remove with
  | [] => Ok (mergeloc, mergeprop)
  | _ =>
      earliest <- n_min mergetimes ;;
      let mergetimes := (fun t => t - earliest) <$> mergetimes in
      firsts <- range3 0 (Z.of_nat (length remove)) 2 ;;
      ww <- foldM (remove_range remove mergetimes)
              (replicate (length mergetimes) true) firsts ;;
      Ok (mask_select mergeloc ww, mask_select mergeprop ww)
  end.

Local Close Scope R_scope.

(** * Properties *)

(** ** Slices and ranges *)

Lemma clip_id (len i : Z) : 0 <= i <= len -> clip len i = i.
Proof. intros H. unfold clip. destruct (Z.ltb_spec i 0); lia. Qed.

Lemma slice_indices_interval (len i0 i1 : Z) :
  0 <= i0 <= len -> 0 <= i1 <= len ->
  slice_indices len i0 i1 = seqZ i0 (i1 - i0).
Proof. intros H0 H1. unfold slice_indices. by rewrite !clip_id. Qed.

(** Consecutive intervals between the values of a monotone sequence
    concatenate to one interval. *)
Lemma concat_seqZ_telescope (a : Z -> Z) (k : nat) :
  (forall t, 0 <= t < Z.of_nat k -> a t <= a (t + 1)) ->
  concat ((fun t => seqZ (a t) (a (t + 1) - a t)) <$> seqZ 0 (Z.of_nat k))
  = seqZ (a 0) (a (Z.of_nat k) - a 0).
Proof.
  induction k as [|k IH]; intros Hmono.
  - simpl. rewrite Z.sub_diag. by rewrite !seqZ_nil.
  - assert (Hle : a 0 <= a (Z.of_nat k)).
    { clear IH. induction k as [|k IHk]; [done|].
      etrans; [apply IHk; intros; apply Hmono; lia|].
      replace (Z.of_nat (S k)) with (Z.of_nat k + 1) by lia. apply Hmono. lia. }
    rewrite seqZ_S, fmap_app, concat_app, IH by (intros; apply Hmono; lia).
    simpl. rewrite app_nil_r, Z.add_0_l.
    replace (Z.of_nat (S k)) with (Z.of_nat k + 1) by lia.
    specialize (Hmono (Z.of_nat k) ltac:(lia)).
    replace (a (Z.of_nat k + 1) - a 0)
      with ((a (Z.of_nat k) - a 0) + (a (Z.of_nat k + 1) - a (Z.of_nat k))) by lia.
    rewrite seqZ_app by lia. f_equal. f_equal. lia.
Qed.

(** When the sequence decreases instead, every interval is empty. *)
Lemma concat_seqZ_antitone (a : Z -> Z) (k : Z) :
  (forall t, 0 <= t < k -> a (t + 1) <= a t) ->
  concat ((fun t => seqZ (a t) (a (t + 1) - a t)) <$> seqZ 0 k) = [].
Proof.
  intros Hanti. apply concat_nil_Forall, Forall_fmap, Forall_seqZ.
  intros t Ht. simpl. apply seqZ_nil. specialize (Hanti t). lia.
Qed.

(** The cut points [n * t / k] of [blranges] and [irange]. *)
Lemma cut_mono (n k t : Z) : 0 < k -> 0 <= n -> n * t / k <= n * (t + 1) / k.
Proof. intros Hk Hn. apply Z.div_le_mono; nia. Qed.

Lemma cut_anti (n k t : Z) : 0 < k -> n <= 0 -> n * (t + 1) / k <= n * t / k.
Proof. intros Hk Hn. apply Z.div_le_mono; nia. Qed.

Lemma cut_first (n k : Z) : n * 0 / k = 0.
Proof. by rewrite Z.mul_0_r. Qed.

Lemma cut_last (n k : Z) : 0 < k -> n * k / k = n.
Proof. intros Hk. apply Z.div_mul. lia. Qed.

Lemma cut_bounds (n k t : Z) : 0 < k -> 0 <= n -> 0 <= t <= k -> 0 <= n * t / k <= n.
Proof.
  intros Hk Hn Ht. split.
  - apply Z.div_pos; nia.
  - rewrite <- (cut_last n k) at 2 by done. apply Z.div_le_mono; nia.
Qed.

(** ** Ranges mapped over the pool *)

Lemma cuts_consecutive (a : Z -> Z) (k : Z) : consecutive (cuts a k).
Proof.
  intros i r1 r2. unfold cuts, range. rewrite !list_lookup_fmap.
  destruct (seqZ 0 k !! i) as [t1|] eqn:E1; [|done].
  destruct (seqZ 0 k !! S i) as [t2|] eqn:E2; [|done].
  apply lookup_seqZ in E1 as [-> _]. apply lookup_seqZ in E2 as [-> _].
  simpl. intros [= <-] [= <-]. simpl. f_equal. lia.
Qed.

Lemma cuts_interval (a : Z -> Z) (k : Z) :
  interval <$> cuts a k = (fun t => seqZ (a t) (a (t + 1) - a t)) <$> seqZ 0 k.
Proof. unfold cuts, range. rewrite <- list_fmap_compose. done. Qed.

Lemma cuts_cover (a : Z -> Z) (k : Z) :
  0 <= k ->
  (forall t, 0 <= t < k -> a t <= a (t + 1)) \/ (forall t, 0 <= t < k -> a (t + 1) <= a t) ->
  concat (interval <$> cuts a k) = seqZ (a 0) (a k - a 0).
Proof.
  intros Hk [Hmono|Hanti]; rewrite cuts_interval.
  - rewrite <- (Z2Nat.id k) by done. apply concat_seqZ_telescope.
    intros t Ht. apply Hmono. lia.
  - rewrite concat_seqZ_antitone by done. symmetry. apply seqZ_nil.
    enough (forall n : nat, Z.of_nat n <= k -> a (Z.of_nat n) <= a 0) as H.
    { specialize (H (Z.to_nat k)). rewrite Z2Nat.id in H by done. lia. }
    induction n as [|n IH]; intros Hn; [done|].
    replace (Z.of_nat (S n)) with (Z.of_nat n + 1) by lia.
    etrans; [apply Hanti; lia|apply IH; lia].
Qed.

(** A range within the buffer is read as the interval it denotes. *)
Lemma cuts_slices (a : Z -> Z) (k len : Z) :
  (forall t, 0 <= t <= k -> 0 <= a t <= len) ->
  (fun r => slice_indices len (fst r) (snd r)) <$> cuts a k = interval <$> cuts a k.
Proof.
  intros Hb. unfold cuts, range. rewrite <- !list_fmap_compose.
  apply list_fmap_ext. intros i t Ht. apply lookup_seqZ in Ht as [-> Hi]. simpl.
  apply slice_indices_interval; apply Hb; lia.
Qed.

Lemma blranges_cuts (d : state) :
  blranges d = cuts (fun t => nbl d * t / nthread d) (nthread d).
Proof. done. Qed.

Lemma irange_cuts (d : state) (nskip sints : Z) :
  irange d nskip sints = cuts (fun c => nskip + sints * c / nchunk d) (nchunk d).
Proof. done. Qed.

Lemma irange_cover (d : state) (nskip sints : Z) :
  1 <= nchunk d ->
  concat (interval <$> irange d nskip sints) = seqZ nskip sints.
Proof.
  intros Hn. rewrite irange_cuts, cuts_cover; [|lia|].
  - rewrite cut_first, cut_last by lia. f_equal; lia.
  - destruct (Z.le_gt_cases 0 sints) as [Hs|Hs]; [left|right]; intros t _.
    + pose proof (cut_mono sints (nchunk d) t). lia.
    + pose proof (cut_anti sints (nchunk d) t). lia.
Qed.

Lemma irange_imaged (d : state) (nskip sints : Z) :
  1 <= nchunk d -> 0 <= nskip -> 0 <= sints -> nskip + sints <= readints d ->
  imaged_ints d <$> irange d nskip sints = interval <$> irange d nskip sints.
Proof.
  intros Hn H0 Hs Hr. rewrite irange_cuts. apply cuts_slices.
  intros t Ht. pose proof (cut_bounds sints (nchunk d) t). lia.
Qed.


(** ** Indexing *)

Lemma index_lookup {A : Type} (l : list A) (i : Z) (x : A) :
  0 <= i -> l !! Z.to_nat i = Some x -> index l i = Ok x.
Proof.
  intros Hi Hl. unfold index.
  pose proof (lookup_lt_Some _ _ _ Hl) as Hlt.
  destruct (Z.ltb_spec i 0); [lia|].
  destruct (Z.ltb_spec i 0); [lia|].
  destruct (Z.leb_spec (Z.of_nat (length l)) i); [lia|].
  simpl. by rewrite Hl.
Qed.

Lemma index_last {A : Type} (l : list A) (x : A) :
  last l = Some x -> index l (-1) = Ok x.
Proof.
  intros Hl. unfold index.
  assert (Hlen : (0 < length l)%nat).
  { destruct l; [done|simpl; lia]. }
  rewrite last_lookup in Hl.
  change (-1 <? 0) with true. cbv iota.
  destruct (Z.ltb_spec (-1 + Z.of_nat (length l)) 0); [lia|].
  destruct (Z.leb_spec (Z.of_nat (length l)) (-1 + Z.of_nat (length l))); [lia|].
  simpl. replace (Z.to_nat (-1 + Z.of_nat (length l))) with (Init.Nat.pred (length l)) by lia.
  by rewrite Hl.
Qed.

Lemma index_in_range {A : Type} (l : list A) (i : Z) :
  0 <= i < Z.of_nat (length l) -> exists x, l !! Z.to_nat i = Some x /\ index l i = Ok x.
Proof.
  intros Hi. destruct (lookup_lt_is_Some_2 l (Z.to_nat i)) as [x Hx]; [lia|].
  exists x. split; [done|]. apply index_lookup; [lia|done].
Qed.

(** ** The valid integration range *)

Lemma nskip_dm_spec (d : state) (dmind dtind seg ddlast dd dt : Z) :
  segment d = Some seg -> last (datadelay d) = Some ddlast ->
  0 <= dmind -> datadelay d !! Z.to_nat dmind = Some dd ->
  0 <= dtind -> dtarr d !! Z.to_nat dtind = Some dt ->
  nskip_dm d dmind dtind = Ok (spec_nskip_dm seg ddlast dd dt).
Proof.
  intros Hseg Hlast Hdm Hdd Hdt Hdtv. unfold nskip_dm, spec_nskip_dm.
  rewrite (index_last _ _ Hlast), (index_lookup _ _ _ Hdm Hdd),
    (index_lookup _ _ _ Hdt Hdtv), Hseg. simpl. f_equal.
  destruct (seg =? 0); simpl; lia.
Qed.

Lemma searchints_spec (d : state) (dmind dtind seg ddlast dd dt : Z) :
  segment d = Some seg -> last (datadelay d) = Some ddlast ->
  0 <= dmind -> datadelay d !! Z.to_nat dmind = Some dd ->
  0 <= dtind -> dtarr d !! Z.to_nat dtind = Some dt ->
  searchints d dmind dtind
  = Ok (spec_searchints (readints d) dd dt (spec_nskip_dm seg ddlast dd dt)).
Proof.
  intros Hseg Hlast Hdm Hdd Hdt Hdtv. unfold searchints.
  rewrite (nskip_dm_spec d dmind dtind seg ddlast dd dt) by done.
  by rewrite (index_lookup _ _ _ Hdm Hdd), (index_lookup _ _ _ Hdt Hdtv).
Qed.

(** In a planned state the range is a range of the buffer. *)
Lemma valid_range_bounds (rints seg ddlast dd dt : Z) :
  0 < dt -> 0 <= dd <= ddlast -> ddlast <= rints ->
  let nskip := spec_nskip_dm seg ddlast dd dt in
  let sints := spec_searchints rints dd dt nskip in
  0 <= nskip /\ 0 <= sints /\ nskip + sints <= rints.
Proof.
  intros Hdt Hdd Hr. unfold spec_searchints, spec_nskip_dm.
  assert (0 <= (ddlast - dd) / dt) by (apply Z.div_pos; lia).
  assert ((ddlast - dd) / dt <= (rints - dd) / dt) by (apply Z.div_le_mono; lia).
  assert (0 <= (rints - dd) / dt) by (apply Z.div_pos; lia).
  assert ((rints - dd) / dt <= rints).
  { etrans; [apply Z.div_le_upper_bound with (q := rints - dd); nia|lia]. }
  destruct (seg =? 0); lia.
Qed.

Lemma irange_within (d : state) (nskip sints : Z) (ir : Z * Z) (i : Z) :
  1 <= nchunk d -> 0 <= nskip -> 0 <= sints -> nskip + sints <= readints d ->
  ir ∈ irange d nskip sints -> i ∈ imaged_ints d ir ->
  nskip <= i < nskip + sints.
Proof.
  intros Hn H0 Hs Hr Hir Hi.
  assert (Hin : i ∈ concat (imaged_ints d <$> irange d nskip sints)).
  { apply list_elem_of_In, in_concat. exists (imaged_ints d ir).
    split; [|by apply list_elem_of_In].
    apply list_elem_of_In, list_elem_of_fmap. by exists ir. }
  rewrite irange_imaged, irange_cover in Hin by done.
  by apply elem_of_seqZ in Hin.
Qed.

(** ** The search loop *)

Lemma segment_file_keys (prefix : string) (d : state) (seg : Z) :
  is_Some (workdir d) -> is_Some (fileroot d) -> is_Some (scan d) ->
  exists wd fr sc, workdir d = Some wd /\ fileroot d = Some fr /\ scan d = Some sc
    /\ segment_file prefix d seg
       = Ok (path_join wd (prefix ++ fr ++ "_sc" ++ str sc ++ "seg" ++ str seg ++ ".pkl")%string).
Proof.
  intros [wd Hwd] [fr Hfr] [sc Hsc]. exists wd, fr, sc.
  unfold segment_file. by rewrite Hwd, Hfr, Hsc.
Qed.

Lemma elem_of_trial_pairs (d : state) (dmind dtind : Z) :
  (dmind, dtind) ∈ trial_pairs d
  <-> 0 <= dmind < Z.of_nat (length (dmarr d)) /\ 0 <= dtind < Z.of_nat (length (dtarr d)).
Proof.
  unfold trial_pairs, range. rewrite list_elem_of_bind. split.
  - intros (dm & Hp & Hdm). apply list_elem_of_bind in Hp as (dt & Hp & Hdt).
    apply list_elem_of_ret in Hp as [= -> ->].
    apply elem_of_seqZ in Hdm, Hdt. lia.
  - intros [Hdm Hdt]. exists dmind. split; [|apply elem_of_seqZ; lia].
    apply list_elem_of_bind. exists dtind. split; [|apply elem_of_seqZ; lia].
    by apply list_elem_of_ret.
Qed.

Lemma planned_pair (d : state) (dmind dtind : Z) :
  planned d ->
  0 <= dmind < Z.of_nat (length (dmarr d)) -> 0 <= dtind < Z.of_nat (length (dtarr d)) ->
  exists seg ddlast dd dt,
    segment d = Some seg /\ last (datadelay d) = Some ddlast
    /\ datadelay d !! Z.to_nat dmind = Some dd /\ dtarr d !! Z.to_nat dtind = Some dt
    /\ 0 < dt /\ 0 <= dd <= ddlast /\ ddlast <= readints d.
Proof.
  intros Hd Hdm Hdt.
  destruct (planned_segment d Hd) as [seg Hseg].
  destruct (planned_delay d Hd) as (ddlast & Hlast & Hall & Hr).
  destruct (lookup_lt_is_Some_2 (datadelay d) (Z.to_nat dmind)) as [dd Hdd].
  { rewrite (planned_datadelay d Hd). lia. }
  destruct (lookup_lt_is_Some_2 (dtarr d) (Z.to_nat dtind)) as [dt Hdtv]; [lia|].
  exists seg, ddlast, dd, dt. repeat split; try done.
  - apply (Forall_lookup_1 _ _ _ _ (planned_dt d Hd) Hdtv).
  - apply (Forall_lookup_1 _ _ _ _ Hall Hdd).
  - apply (Forall_lookup_1 _ _ _ _ Hall Hdd).
Qed.

Section SearchProofs.

Context {V : Type}.
Variable path_exists : string -> bool.
Variable image1 : state -> Z -> Z -> Z -> Z * Z -> gmap candid V.

Lemma search_pair_events (d : state) (beamnum : Z) (acc : list event * gmap candid V)
    (dmind dtind : Z) :
  planned d ->
  0 <= dmind < Z.of_nat (length (dmarr d)) -> 0 <= dtind < Z.of_nat (length (dtarr d)) ->
  exists nskip sints,
    nskip_dm d dmind dtind = Ok nskip /\ searchints d dmind dtind = Ok sints
    /\ search_pair image1 d beamnum acc dmind dtind
       = Ok (fst acc ++ pair_events d dmind dtind nskip sints,
             collect (snd acc) (image1 d dmind dtind beamnum <$> irange d nskip sints)).
Proof.
  intros Hd Hdm Hdt.
  destruct (planned_pair d dmind dtind Hd Hdm Hdt)
    as (seg & ddlast & dd & dt & Hseg & Hlast & Hdd & Hdtv & _).
  eexists _, _. split; [|split].
  - apply (nskip_dm_spec d dmind dtind seg ddlast dd dt); (done || lia).
  - apply (searchints_spec d dmind dtind seg ddlast dd dt); (done || lia).
  - unfold search_pair.
    destruct (index_in_range (dmarr d) dmind Hdm) as (x & _ & ->).
    destruct (index_in_range (dtarr d) dtind Hdt) as (y & _ & ->).
    rewrite (nskip_dm_spec d dmind dtind seg ddlast dd dt) by (done || lia).
    rewrite (searchints_spec d dmind dtind seg ddlast dd dt) by (done || lia).
    done.
Qed.

Lemma search_pairs_events (d : state) (beamnum : Z) (pairs : list (Z * Z))
    (acc : list event * gmap candid V) :
  planned d ->
  Forall (fun p => 0 <= fst p < Z.of_nat (length (dmarr d))
                   /\ 0 <= snd p < Z.of_nat (length (dtarr d))) pairs ->
  exists tr cands,
    search_pairs image1 d beamnum acc pairs = Ok (tr, cands)
    /\ forall e, e ∈ tr <->
         e ∈ fst acc
         \/ exists p nskip sints, p ∈ pairs
              /\ nskip_dm d (fst p) (snd p) = Ok nskip
              /\ searchints d (fst p) (snd p) = Ok sints
              /\ e ∈ pair_events d (fst p) (snd p) nskip sints.
Proof.
  intros Hd. revert acc. induction pairs as [|[dmind dtind] rest IH]; intros acc Hall.
  - exists (fst acc), (snd acc). split; [by destruct acc|].
    intros e. split; [by left|]. intros [H|(p & _ & _ & Hp & _)]; [done|].
    by apply elem_of_nil in Hp.
  - apply Forall_cons in Hall as [[Hdm Hdt] Hrest]. simpl in Hdm, Hdt.
    destruct (search_pair_events d beamnum acc dmind dtind Hd Hdm Hdt)
      as (nskip & sints & Hn & Hs & Hpair).
    simpl. rewrite Hpair. simpl.
    destruct (IH (fst acc ++ pair_events d dmind dtind nskip sints,
                  collect (snd acc) (image1 d dmind dtind beamnum <$> irange d nskip sints))
                Hrest) as (tr & cands & Hrun & Htr).
    exists tr, cands. split; [done|]. intros e. rewrite Htr. simpl.
    rewrite elem_of_app. split.
    + intros [[H|H]|(p & n & s & Hp & H)].
      * by left.
      * right. exists (dmind, dtind), nskip, sints. split; [left|done].
      * right. exists p, n, s. split; [by right|done].
    + intros [H|(p & n & s & Hp & Hn' & Hs' & He)]; [by left; left|].
      apply elem_of_cons in Hp as [->|Hp].
      * simpl in *. rewrite Hn in Hn'. rewrite Hs in Hs'.
        injection Hn' as <-. injection Hs' as <-. by left; right.
      * right. by exists p, n, s.
Qed.

Lemma image_in_pair_events (d : state) (dmind dtind nskip sints dm dt : Z) (ir : Z * Z) :
  Image dm dt ir ∈ pair_events d dmind dtind nskip sints
  <-> dm = dmind /\ dt = dtind /\ ir ∈ irange d nskip sints.
Proof.
  unfold pair_events. rewrite !elem_of_app, !list_elem_of_singleton, !list_elem_of_fmap.
  split.
  - intros [H|[(x & H & _)|[H|(x & [= -> -> ->] & Hx)]]]; done.
  - intros (-> & -> & H). right; right; right. by exists ir.
Qed.

End SearchProofs.

(** The trace of the loops, pair by pair. *)
Lemma valid_range_planned (d : state) (dmind dtind : Z) :
  planned d ->
  0 <= dmind < Z.of_nat (length (dmarr d)) -> 0 <= dtind < Z.of_nat (length (dtarr d)) ->
  let nskip := fst (valid_range d dmind dtind) in
  let sints := snd (valid_range d dmind dtind) in
  nskip_dm d dmind dtind = Ok nskip /\ searchints d dmind dtind = Ok sints
  /\ 0 <= nskip /\ 0 <= sints /\ nskip + sints <= readints d.
Proof.
  intros Hd Hdm Hdt.
  destruct (planned_pair d dmind dtind Hd Hdm Hdt)
    as (seg & ddlast & dd & dt & Hseg & Hlast & Hdd & Hdtv & Hpos & Hb & Hr).
  unfold valid_range.
  rewrite (nskip_dm_spec d dmind dtind seg ddlast dd dt) by (done || lia).
  rewrite (searchints_spec d dmind dtind seg ddlast dd dt) by (done || lia).
  simpl. split; [done|]. split; [done|].
  apply valid_range_bounds; done.
Qed.

Lemma search_pairs_trace {V : Type} (image1 : state -> Z -> Z -> Z -> Z * Z -> gmap candid V)
    (d : state) (beamnum : Z) (pairs : list (Z * Z)) (acc : list event * gmap candid V) :
  planned d ->
  Forall (fun p => 0 <= fst p < Z.of_nat (length (dmarr d))
                   /\ 0 <= snd p < Z.of_nat (length (dtarr d))) pairs ->
  exists cands,
    search_pairs image1 d beamnum acc pairs
    = Ok (fst acc ++ concat (pair_trace d <$> pairs), cands).
Proof.
  intros Hd. revert acc. induction pairs as [|[dmind dtind] rest IH]; intros acc Hall.
  - exists (snd acc). simpl. rewrite app_nil_r. by destruct acc.
  - apply Forall_cons in Hall as [[Hdm Hdt] Hrest]. simpl in Hdm, Hdt.
    destruct (search_pair_events image1 d beamnum acc dmind dtind Hd Hdm Hdt)
      as (nskip & sints & Hn & Hs & Hpair).
    destruct (valid_range_planned d dmind dtind Hd Hdm Hdt) as (Hn' & Hs' & _).
    rewrite Hn in Hn'. rewrite Hs in Hs'. injection Hn' as Hn'. injection Hs' as Hs'.
    simpl. rewrite Hpair. simpl.
    destruct (IH (fst acc ++ pair_events d dmind dtind nskip sints,
                  collect (snd acc) (image1 d dmind dtind beamnum <$> irange d nskip sints))
                Hrest) as (cands & Hrun).
    exists cands. rewrite Hrun. simpl. rewrite <- app_assoc. do 3 f_equal.
    unfold pair_trace. simpl. by rewrite <- Hn', <- Hs'.
Qed.

Lemma search_trace {V : Type} (path_exists : string -> bool)
    (image1 : state -> Z -> Z -> Z -> Z * Z -> gmap candid V)
    (d : state) (data : list complex) (candsfile : string) :
  planned d -> n_any data = true ->
  getcandsfile d (-1) = Ok candsfile -> savecands d && path_exists candsfile = false ->
  exists cands,
    search path_exists image1 d data
    = Ok (search_prefix d ++ concat (pair_trace d <$> trial_pairs d)
            ++ [Log Info "Found %d cands in scan %d segment %d of %s. "], cands).
Proof.
  intros Hd Hany Hcf Hex.
  destruct (planned_segment d Hd) as [seg Hseg].
  unfold search. rewrite Hseg, Hcf. simpl. rewrite Hex, Hany.
  assert (Hdml : exists x, last (dmarr d) = Some x).
  { destruct (last (dmarr d)) eqn:E; [by eexists|].
    apply last_None in E. by destruct (planned_dmarr d Hd). }
  assert (Hdtl : exists x, last (dtarr d) = Some x).
  { destruct (last (dtarr d)) eqn:E; [by eexists|].
    apply last_None in E. by destruct (planned_dtarr d Hd). }
  destruct Hdml as [dml Hdml]. destruct Hdtl as [dtl Hdtl].
  rewrite (index_last _ _ Hdml), (index_last _ _ Hdtl). simpl.
  pose proof (planned_nthread d Hd) as Hnt.
  destruct (Z.ltb_spec (nthread d) 1); [lia|].
  match goal with |- context [search_pairs _ _ _ ?acc _] => set (acc0 := acc) end.
  destruct (search_pairs_trace image1 d 0 (trial_pairs d) acc0 Hd) as (cands & Hrun).
  { apply Forall_forall. intros [dm dt] Hp. by apply elem_of_trial_pairs in Hp. }
  rewrite Hrun. simpl. exists cands. f_equal. f_equal.
  unfold search_prefix. rewrite <- !app_assoc. done.
Qed.

Lemma trial_pairs_NoDup (d : state) : NoDup (trial_pairs d).
Proof.
  unfold trial_pairs, range. apply NoDup_bind; [| |apply NoDup_seqZ].
  - intros dm1 dm2 p _ _ H1 H2.
    apply list_elem_of_bind in H1 as (dt1 & H1 & _).
    apply list_elem_of_bind in H2 as (dt2 & H2 & _).
    apply list_elem_of_ret in H1, H2. congruence.
  - intros dm _. apply NoDup_bind; [| |apply NoDup_seqZ].
    + intros dt1 dt2 p _ _ H1 H2. apply list_elem_of_ret in H1, H2. congruence.
    + intros dt _. apply NoDup_singleton.
Qed.

Lemma dedisperse_jobs_pair (d : state) (dm dt nskip sints dmind dtind : Z) :
  dedisperse_jobs (pair_events d dm dt nskip sints) dmind dtind
  = if decide ((dm, dt) = (dmind, dtind)) then blranges d else [].
Proof.
  unfold dedisperse_jobs, pair_events. rewrite !omap_app. simpl.
  assert (H1 : omap (dedisperse_job dmind dtind) (Image dm dt <$> irange d nskip sints) = []).
  { induction (irange d nskip sints) as [|x l IH]; [done|]. done. }
  assert (H2 : omap (dedisperse_job dmind dtind) (Dedisperse dm dt <$> blranges d)
               = if decide ((dm, dt) = (dmind, dtind)) then blranges d else []).
  { induction (blranges d) as [|x l IH]; [by destruct (decide _)|].
    csimpl. rewrite IH. destruct (decide _) as [[= -> ->]|Hne].
    - by rewrite !Z.eqb_refl.
    - destruct (Z.eqb_spec dm dmind), (Z.eqb_spec dt dtind); simpl; congruence. }
  rewrite H1, H2, app_nil_r. done.
Qed.

Lemma image_jobs_pair (d : state) (dm dt nskip sints dmind dtind : Z) :
  image_jobs (pair_events d dm dt nskip sints) dmind dtind
  = if decide ((dm, dt) = (dmind, dtind)) then irange d nskip sints else [].
Proof.
  unfold image_jobs, pair_events. rewrite !omap_app. simpl.
  assert (H1 : omap (image_job dmind dtind) (Dedisperse dm dt <$> blranges d) = []).
  { induction (blranges d) as [|x l IH]; [done|]. done. }
  assert (H2 : omap (image_job dmind dtind) (Image dm dt <$> irange d nskip sints)
               = if decide ((dm, dt) = (dmind, dtind)) then irange d nskip sints else []).
  { induction (irange d nskip sints) as [|x l IH]; [by destruct (decide _)|].
    csimpl. rewrite IH. destruct (decide _) as [[= -> ->]|Hne].
    - by rewrite !Z.eqb_refl.
    - destruct (Z.eqb_spec dm dmind), (Z.eqb_spec dt dtind); simpl; congruence. }
  rewrite H1, H2. done.
Qed.

(** Among distinct pairs, the jobs of one pair are those of its own turn
    of the loop. *)
Lemma jobs_of_pairs (d : state) (pairs : list (Z * Z)) (dmind dtind : Z) :
  NoDup pairs ->
  dedisperse_jobs (concat (pair_trace d <$> pairs)) dmind dtind
  = (if decide ((dmind, dtind) ∈ pairs) then blranges d else [])
  /\ image_jobs (concat (pair_trace d <$> pairs)) dmind dtind
     = (if decide ((dmind, dtind) ∈ pairs)
        then irange d (fst (valid_range d dmind dtind)) (snd (valid_range d dmind dtind))
        else []).
Proof.
  induction 1 as [|[dm dt] rest Hnotin Hnd [IH1 IH2]].
  - split; by destruct (decide _) as [Hin|]; [apply elem_of_nil in Hin|].
  - rewrite fmap_cons. cbn [concat].
    change (pair_trace d (dm, dt))
      with (pair_events d dm dt (fst (valid_range d dm dt)) (snd (valid_range d dm dt))).
    unfold dedisperse_jobs, image_jobs in *. rewrite !omap_app, IH1, IH2.
    pose proof (dedisperse_jobs_pair d dm dt (fst (valid_range d dm dt))
                  (snd (valid_range d dm dt)) dmind dtind) as Hd.
    pose proof (image_jobs_pair d dm dt (fst (valid_range d dm dt))
                  (snd (valid_range d dm dt)) dmind dtind) as Hi.
    unfold dedisperse_jobs, image_jobs in Hd, Hi. rewrite Hd, Hi.
    destruct (decide ((dm, dt) = (dmind, dtind))) as [[= -> ->]|Hne].
    + destruct (decide ((dmind, dtind) ∈ rest)); [done|].
      destruct (decide ((dmind, dtind) ∈ (dmind, dtind) :: rest)) as [|Hn];
        [by rewrite !app_nil_r|]. destruct Hn. left.
    + destruct (decide ((dmind, dtind) ∈ rest)) as [Hin|Hnin].
      * destruct (decide ((dmind, dtind) ∈ (dm, dt) :: rest)) as [|Hn]; [done|].
        destruct Hn. by right.
      * destruct (decide ((dmind, dtind) ∈ (dm, dt) :: rest)) as [Hin|]; [|done].
        apply elem_of_cons in Hin as [?|?]; congruence.
Qed.

Lemma last_nonempty {A : Type} (l : list A) : l <> [] -> exists x, last l = Some x.
Proof.
  intros Hl. destruct (last l) as [x|] eqn:E; [by exists x|].
  by apply last_None in E.
Qed.

Lemma getcandsfile_in_segment (d : state) (segment_arg : Z) :
  is_Some (workdir d) -> is_Some (fileroot d) -> is_Some (scan d) -> is_Some (segment d) ->
  exists candsfile, getcandsfile d segment_arg = Ok candsfile.
Proof.
  intros Hwd Hfr Hsc [seg Hseg]. unfold getcandsfile. rewrite Hseg.
  destruct (segment_file_keys "cands_" d seg Hwd Hfr Hsc) as (wd & fr & sc & _ & _ & _ & ->).
  by eexists.
Qed.

Lemma trace_jobs (d : state) (dmind dtind : Z) :
  0 <= dmind < Z.of_nat (length (dmarr d)) -> 0 <= dtind < Z.of_nat (length (dtarr d)) ->
  let tr := search_prefix d ++ concat (pair_trace d <$> trial_pairs d)
              ++ [Log Info "Found %d cands in scan %d segment %d of %s. "] in
  dedisperse_jobs tr dmind dtind = blranges d
  /\ image_jobs tr dmind dtind
     = irange d (fst (valid_range d dmind dtind)) (snd (valid_range d dmind dtind)).
Proof.
  intros Hdm Hdt tr.
  destruct (jobs_of_pairs d (trial_pairs d) dmind dtind (trial_pairs_NoDup d)) as [Hd Hi].
  destruct (decide ((dmind, dtind) ∈ trial_pairs d)) as [_|Hn].
  2:{ destruct Hn. by apply elem_of_trial_pairs. }
  subst tr. unfold dedisperse_jobs, image_jobs in *. rewrite !omap_app, Hd, Hi.
  unfold search_prefix. destruct (searchtype d =? "image2w")%string; simpl;
    by rewrite !app_nil_r.
Qed.

(** C9: for [nthread >= 1] the baseline ranges of [search] are consecutive
    and their concatenation is exactly [0, ..., nbl-1], so the ranges are
    disjoint and cover [[0, nbl)]; for [nchunk >= 1] the chunk ranges are
    consecutive and their concatenation is exactly
    [nskip_dm, ..., nskip_dm+searchints-1]; hence, when a planned state is
    searched, for every pair [(dmind, dtind)] the dedispersion jobs that
    [search] submits write every baseline exactly once, and its imaging
    jobs read every valid integration exactly once. *)
Theorem search_ranges_partition (d : state) (nskip sints : Z) :
  1 <= nthread d -> 1 <= nchunk d ->
  (consecutive (blranges d)
   /\ concat (interval <$> blranges d) = seqZ 0 (nbl d)
   /\ NoDup (concat (interval <$> blranges d))
   /\ (0 <= nbl d -> concat (dedispersed_bls d <$> blranges d) = seqZ 0 (nbl d)))
  /\ (consecutive (irange d nskip sints)
      /\ concat (interval <$> irange d nskip sints) = seqZ nskip sints
      /\ NoDup (concat (interval <$> irange d nskip sints))
      /\ (0 <= nskip -> 0 <= sints -> nskip + sints <= readints d ->
          concat (imaged_ints d <$> irange d nskip sints) = seqZ nskip sints))
  /\ (forall (V : Type) (path_exists : string -> bool)
             (image1 : state -> Z -> Z -> Z -> Z * Z -> gmap candid V)
             (data : list complex) (candsfile : string),
        planned d -> n_any data = true ->
        getcandsfile d (-1) = Ok candsfile ->
        savecands d && path_exists candsfile = false ->
        exists tr cands,
          search path_exists image1 d data = Ok (tr, cands)
          /\ forall dmind dtind,
              0 <= dmind < Z.of_nat (length (dmarr d)) ->
              0 <= dtind < Z.of_nat (length (dtarr d)) ->
              concat (dedispersed_bls d <$> dedisperse_jobs tr dmind dtind) = seqZ 0 (nbl d)
              /\ exists nskip' sints',
                  nskip_dm d dmind dtind = Ok nskip'
                  /\ searchints d dmind dtind = Ok sints'
                  /\ concat (imaged_ints d <$> image_jobs tr dmind dtind)
                     = seqZ nskip' sints').
Proof.
  intros Ht Hc.
  assert (Hbl : concat (interval <$> blranges d) = seqZ 0 (nbl d)).
  { rewrite blranges_cuts, cuts_cover; [|lia|].
    - rewrite cut_first, cut_last by lia. f_equal; lia.
    - destruct (Z.le_gt_cases 0 (nbl d)) as [Hs|Hs]; [left|right]; intros t _.
      + apply cut_mono; lia.
      + apply cut_anti; lia. }
  assert (Hsl : 0 <= nbl d -> concat (dedispersed_bls d <$> blranges d) = seqZ 0 (nbl d)).
  { intros Hn. rewrite <- Hbl. f_equal. rewrite blranges_cuts.
    apply (cuts_slices _ _ (nbl d)). intros t Hb. apply cut_bounds; lia. }
  split; [split; [|split; [|split]]|split; [split; [|split; [|split]]|]].
  - rewrite blranges_cuts. apply cuts_consecutive.
  - done.
  - rewrite Hbl. apply NoDup_seqZ.
  - done.
  - rewrite irange_cuts. apply cuts_consecutive.
  - by apply irange_cover.
  - rewrite irange_cover by done. apply NoDup_seqZ.
  - intros. rewrite irange_imaged by done. by apply irange_cover.
  - intros V path_exists image1 data candsfile Hd Hany Hcf Hex.
    destruct (search_trace path_exists image1 d data candsfile Hd Hany Hcf Hex)
      as (cands & Hrun).
    eexists _, cands. split; [exact Hrun|]. intros dmind dtind Hdm Hdt.
    destruct (trace_jobs d dmind dtind Hdm Hdt) as [Hdj Hij].
    destruct (valid_range_planned d dmind dtind Hd Hdm Hdt) as (Hn & Hs & H0 & H1 & H2).
    rewrite Hdj, Hij. split; [apply Hsl, (planned_nbl d Hd)|].
    eexists _, _. split; [exact Hn|]. split; [exact Hs|].
    rewrite irange_imaged by done. by apply irange_cover.
Qed.

Lemma no_job_elem (l : list event) (e : event) :
  forallb (fun e' => negb (is_image e' || is_dedisperse e')) l = true ->
  e ∈ l -> is_image e = false /\ is_dedisperse e = false.
Proof.
  intros Hall Hin. rewrite forallb_forall in Hall.
  apply list_elem_of_In, Hall in Hin. by destruct (is_image e), (is_dedisperse e).
Qed.

(** C2: in a planned state, for every pair [(dmind, dtind)] of the search
    loop, [nskip_dm] is [(datadelay[-1] - datadelay[dmind]) / dtarr[dtind]]
    when the segment is not segment 0 and 0 for segment 0, [searchints] is
    [(readints - datadelay[dmind]) / dtarr[dtind] - nskip_dm]; [search]
    returns, and every integration it submits for imaging lies in
    [[nskip_dm, nskip_dm + searchints)]; when the data are searched, every
    chunk of that range is submitted. *)
Theorem search_valid_integration_range {V : Type} (path_exists : string -> bool)
    (image1 : state -> Z -> Z -> Z -> Z * Z -> gmap candid V)
    (d : state) (data : list complex) :
  planned d ->
  (forall dmind dtind,
      0 <= dmind < Z.of_nat (length (dmarr d)) ->
      0 <= dtind < Z.of_nat (length (dtarr d)) ->
      exists seg ddlast dd dt,
        segment d = Some seg /\ last (datadelay d) = Some ddlast
        /\ datadelay d !! Z.to_nat dmind = Some dd /\ dtarr d !! Z.to_nat dtind = Some dt
        /\ nskip_dm d dmind dtind = Ok (spec_nskip_dm seg ddlast dd dt)
        /\ searchints d dmind dtind
           = Ok (spec_searchints (readints d) dd dt (spec_nskip_dm seg ddlast dd dt)))
  /\ exists tr cands,
      search path_exists image1 d data = Ok (tr, cands)
      /\ (forall dmind dtind ir,
            Image dmind dtind ir ∈ tr ->
            exists nskip sints,
              nskip_dm d dmind dtind = Ok nskip /\ searchints d dmind dtind = Ok sints
              /\ ir ∈ irange d nskip sints
              /\ forall i, i ∈ imaged_ints d ir -> nskip <= i < nskip + sints)
      /\ (forall candsfile dmind dtind nskip sints ir,
            getcandsfile d (-1) = Ok candsfile ->
            savecands d && path_exists candsfile = false -> n_any data = true ->
            0 <= dmind < Z.of_nat (length (dmarr d)) ->
            0 <= dtind < Z.of_nat (length (dtarr d)) ->
            nskip_dm d dmind dtind = Ok nskip -> searchints d dmind dtind = Ok sints ->
            ir ∈ irange d nskip sints ->
            Image dmind dtind ir ∈ tr).
Proof.
  intros Hd. split.
  - intros dmind dtind Hdm Hdt.
    destruct (planned_pair d dmind dtind Hd Hdm Hdt)
      as (seg & ddlast & dd & dt & Hseg & Hlast & Hdd & Hdtv & _).
    exists seg, ddlast, dd, dt. repeat split; try done.
    + apply nskip_dm_spec; (done || lia).
    + apply searchints_spec; (done || lia).
  - destruct (planned_segment d Hd) as [seg Hseg].
    destruct (getcandsfile_in_segment d (-1) (planned_workdir d Hd) (planned_fileroot d Hd)
                (planned_scan d Hd) (planned_segment d Hd)) as [candsfile Hcf].
    unfold search. rewrite Hseg, Hcf. simpl.
    destruct (savecands d && path_exists candsfile) eqn:Hex.
    { eexists _, _. split; [done|]. split.
      - intros dm dt ir Hin. by apply no_job_elem in Hin as [? _].
      - intros cf ? ? ? ? ? [= <-] Hcontra. congruence. }
    destruct (n_any data) eqn:Hany.
    2:{ eexists _, _. split; [done|]. split.
        - intros dm dt ir Hin.
          destruct (searchtype d =? "image2w")%string;
            by apply no_job_elem in Hin as [? _].
        - intros; congruence. }
    destruct (last_nonempty _ (planned_dmarr d Hd)) as [dml Hdml].
    destruct (last_nonempty _ (planned_dtarr d Hd)) as [dtl Hdtl].
    rewrite (index_last _ _ Hdml), (index_last _ _ Hdtl). simpl.
    pose proof (planned_nthread d Hd) as Hnt.
    destruct (Z.ltb_spec (nthread d) 1); [lia|].
    match goal with |- context [search_pairs _ _ _ ?acc _] => set (acc0 := acc) end.
    destruct (search_pairs_events image1 d 0 (trial_pairs d) acc0 Hd)
      as (tr & cands & Hrun & Htr).
    { apply Forall_forall. intros [dm dt] Hp. by apply elem_of_trial_pairs in Hp. }
    rewrite Hrun. simpl. eexists _, _. split; [done|]. split.
    + intros dm dt ir Hin. apply elem_of_app in Hin as [Hin|Hin].
      2:{ by apply list_elem_of_singleton in Hin. }
      apply Htr in Hin as [Hin|([dm' dt'] & nskip & sints & Hp & Hn & Hs & Hin)].
      { subst acc0. simpl in Hin.
        destruct (searchtype d =? "image2w")%string;
          by apply no_job_elem in Hin as [? _]. }
      simpl in *. apply image_in_pair_events in Hin as (-> & -> & Hir).
      exists nskip, sints. repeat split; try done.
      * apply elem_of_trial_pairs in Hp as [Hdm Hdt].
        destruct (planned_pair d dm' dt' Hd Hdm Hdt)
          as (sg & ddlast & dd & dtv & Hsg & Hlast & Hdd & Hdtv & Hpos & Hb & Hr).
        rewrite (nskip_dm_spec d dm' dt' sg ddlast dd dtv) in Hn by (done || lia).
        rewrite (searchints_spec d dm' dt' sg ddlast dd dtv) in Hs by (done || lia).
        injection Hn as <-. injection Hs as <-.
        pose proof (valid_range_bounds (readints d) sg ddlast dd dtv Hpos Hb Hr) as (? & ? & ?).
        eapply irange_within; [apply (planned_nchunk d Hd)|..]; done.
      * apply elem_of_trial_pairs in Hp as [Hdm Hdt].
        destruct (planned_pair d dm' dt' Hd Hdm Hdt)
          as (sg & ddlast & dd & dtv & Hsg & Hlast & Hdd & Hdtv & Hpos & Hb & Hr).
        rewrite (nskip_dm_spec d dm' dt' sg ddlast dd dtv) in Hn by (done || lia).
        rewrite (searchints_spec d dm' dt' sg ddlast dd dtv) in Hs by (done || lia).
        injection Hn as <-. injection Hs as <-.
        pose proof (valid_range_bounds (readints d) sg ddlast dd dtv Hpos Hb Hr) as (? & ? & ?).
        eapply irange_within; [apply (planned_nchunk d Hd)|..]; done.
    + intros cf dm dt nskip sints ir _ _ _ Hdm Hdt Hn Hs Hir.
      apply elem_of_app. left. apply Htr. right.
      exists (dm, dt), nskip, sints. repeat split; try done.
      * by apply elem_of_trial_pairs.
      * by apply image_in_pair_events.
Qed.

Lemma n_any_zeros (data : list complex) :
  Forall (fun c => c = czero) data -> n_any data = false.
Proof.
  intros Hz. unfold n_any. induction Hz as [|c data -> _ IH]; [done|].
  simpl. rewrite IH. unfold complex_nonzero. simpl.
  destruct (Req_dec_T 0 0); [done|lra].
Qed.

(** C8: for every state that has the keys [search] reads, if the work
    buffer is entirely zero then [search] returns the empty candidate
    dictionary, submits no dedispersion and no imaging job, and logs a
    warning. *)
Theorem search_zero_data {V : Type} (path_exists : string -> bool)
    (image1 : state -> Z -> Z -> Z -> Z * Z -> gmap candid V)
    (d : state) (data : list complex) :
  is_Some (workdir d) -> is_Some (fileroot d) -> is_Some (scan d) -> is_Some (segment d) ->
  Forall (fun c => c = czero) data ->
  exists tr,
    search path_exists image1 d data = Ok (tr, ∅)
    /\ Forall (fun e => is_dedisperse e = false /\ is_image e = false) tr
    /\ Exists (fun e => is_warning e = true) tr.
Proof.
  intros Hwd Hfr Hsc Hseg Hz.
  destruct (getcandsfile_in_segment d (-1) Hwd Hfr Hsc Hseg) as [candsfile Hcf].
  destruct Hseg as [seg Hseg].
  unfold search. rewrite Hseg, Hcf, (n_any_zeros data Hz). simpl.
  destruct (savecands d && path_exists candsfile).
  - eexists. split; [done|]. split.
    + repeat constructor.
    + apply Exists_exists. eexists. split; [right; left|]; done.
  - destruct (searchtype d =? "image2w")%string; eexists; (split; [done|]); split.
    + repeat constructor.
    + apply Exists_exists. eexists. split; [right; right; left|]; done.
    + repeat constructor.
    + apply Exists_exists. eexists. split; [right; left|]; done.
Qed.

(** ** Instances on the example state *)

Lemma example_state_planned : planned example_state.
Proof.
  constructor; simpl; try done; try lia.
  - repeat constructor.
  - exists 21. repeat split; try done; try lia. repeat constructor; lia.
Qed.


Lemma search_ranges_partition_witness :
  (1 <= nthread example_state /\ 1 <= nchunk example_state)
  /\ concat (interval <$> blranges example_state) = seqZ 0 45
  /\ concat (interval <$> irange example_state 11 89) = seqZ 11 89.
Proof.
  assert (H1 : 1 <= nthread example_state) by (simpl; lia).
  assert (H2 : 1 <= nchunk example_state) by (simpl; lia).
  split; [done|].
  destruct (search_ranges_partition example_state 11 89 H1 H2)
    as [(_ & Hb & _) [(_ & Hi & _) _]].
  split; [exact Hb|exact Hi].
Defined.

Lemma search_valid_integration_range_witness :
  planned example_state
  /\ exists tr cands,
      search (V := list R) (fun _ => false) (fun _ _ _ _ _ => ∅) example_state
        [mkComplex 1 0] = Ok (tr, cands)
      /\ forall dmind dtind ir,
          Image dmind dtind ir ∈ tr ->
          exists nskip sints,
            nskip_dm example_state dmind dtind = Ok nskip
            /\ searchints example_state dmind dtind = Ok sints
            /\ ir ∈ irange example_state nskip sints
            /\ forall i, i ∈ imaged_ints example_state ir -> nskip <= i < nskip + sints.
Proof.
  split; [exact example_state_planned|].
  destruct (search_valid_integration_range (V := list R) (fun _ => false)
              (fun _ _ _ _ _ => ∅) example_state [mkComplex 1 0] example_state_planned)
    as [_ (tr & cands & Hrun & Hvalid & _)].
  exists tr, cands. split; [exact Hrun|exact Hvalid].
Defined.

Lemma search_zero_data_witness :
  Forall (fun c => c = czero) [czero; czero]
  /\ exists tr,
      search (V := list R) (fun _ => false) (fun _ _ _ _ _ => ∅) example_state
        [czero; czero] = Ok (tr, ∅).
Proof.
  assert (Hz : Forall (fun c => c = czero) [czero; czero]) by (repeat constructor).
  split; [exact Hz|].
  destruct (search_zero_data (V := list R) (fun _ => false) (fun _ _ _ _ _ => ∅)
              example_state [czero; czero]) as (tr & Hrun & _); simpl; eauto.
Defined.

(** ** Names of the product files *)

Lemma segment_file_spec (prefix : string) (d : state) (seg : Z) (wd fr : string) (sc : Z) :
  workdir d = Some wd -> fileroot d = Some fr -> scan d = Some sc ->
  segment_file prefix d seg = Ok (spec_segment_path wd fr sc prefix seg).
Proof. intros Hwd Hfr Hsc. unfold segment_file. by rewrite Hwd, Hfr, Hsc. Qed.

(** Without the key [workdir] the path cannot be built. *)
Lemma getcandsfile_missing_workdir (d : state) (segment_arg : Z) :
  workdir d = None -> is_Some (segment d) ->
  getcandsfile d segment_arg = Raise (KeyError "workdir").
Proof.
  intros Hwd [s Hs]. unfold getcandsfile, segment_file. by rewrite Hs, Hwd.
Qed.

(** C10: [getcandsfile] and [getnoisefile] return without raising on a
    state that has the keys workdir, fileroot and scan: the per-segment
    path built from [d['segment']] when that key is present, otherwise the
    path built from the argument when it is not negative, and otherwise
    the empty string (for which no key is read at all). *)
Theorem getcandsfile_getnoisefile_cases (d : state) (segment_arg : Z)
    (wd fr : string) (sc : Z) :
  workdir d = Some wd -> fileroot d = Some fr -> scan d = Some sc ->
  (forall s, segment d = Some s ->
     getcandsfile d segment_arg = Ok (spec_segment_path wd fr sc "cands_" s)
     /\ getnoisefile d segment_arg = Ok (spec_segment_path wd fr sc "noise_" s))
  /\ (segment d = None -> 0 <= segment_arg ->
      getcandsfile d segment_arg = Ok (spec_segment_path wd fr sc "cands_" segment_arg)
      /\ getnoisefile d segment_arg = Ok (spec_segment_path wd fr sc "noise_" segment_arg))
  /\ (segment d = None -> segment_arg < 0 ->
      getcandsfile d segment_arg = Ok EmptyString
      /\ getnoisefile d segment_arg = Ok EmptyString).
Proof.
  intros Hwd Hfr Hsc. unfold getcandsfile, getnoisefile. repeat split.
  - rewrite H. by apply segment_file_spec.
  - rewrite H. by apply segment_file_spec.
  - rewrite H. destruct (Z.geb_spec segment_arg 0); [|lia]. by apply segment_file_spec.
  - rewrite H. destruct (Z.geb_spec segment_arg 0); [|lia]. by apply segment_file_spec.
  - rewrite H. destruct (Z.geb_spec segment_arg 0); [lia|done].
  - rewrite H. destruct (Z.geb_spec segment_arg 0); [lia|done].
Qed.

Lemma getcandsfile_getnoisefile_cases_witness :
  getcandsfile example_state (-1) = Ok "/data/cands_obs.sdm_sc7seg1.pkl"%string
  /\ getnoisefile example_state (-1) = Ok "/data/noise_obs.sdm_sc7seg1.pkl"%string.
Proof.
  destruct (getcandsfile_getnoisefile_cases example_state (-1) "/data" "obs.sdm" 7
              eq_refl eq_refl eq_refl) as [H _].
  exact (H 1 eq_refl).
Defined.

(** ** Reordering of the spectral windows *)

Lemma Rltb_true (a b : R) : (a < b)%R -> Rltb a b = true.
Proof. intros H. unfold Rltb. by destruct (Rlt_dec a b). Qed.

Lemma Rltb_false (a b : R) : ~ (a < b)%R -> Rltb a b = false.
Proof. intros H. unfold Rltb. by destruct (Rlt_dec a b). Qed.

Ltac Rltb_eval :=
  repeat match goal with
    | |- context [Rltb ?a ?b] =>
        first [rewrite (Rltb_true a b) by lra | rewrite (Rltb_false a b) by lra]
    end.

(** More than one negative jump, or none while two windows have the same
    reference frequency, fails the assertion. *)
Lemma spw_reorder_ambiguous (d : state) (data : visdata) :
  forallb (fun x => Rltb 0 x) (dfreq (spw_reffreq d)) = false ->
  length (n_where (fun x => Rltb x 0) (dfreq (spw_reffreq d))) <> 1%nat ->
  spw_reorder d data = Raise AssertionError.
Proof.
  intros Hall Hneg. unfold spw_reorder. rewrite Hall. simpl.
  destruct (Z.eqb_spec (Z.of_nat (length (n_where (fun x => Rltb x 0) (dfreq (spw_reffreq d))))) 1);
    [lia|done].
Qed.

(** Windows in frequency order are left alone. *)
Lemma spw_reorder_sorted (d : state) (data : visdata) :
  forallb (fun x => Rltb 0 x) (dfreq (spw_reffreq d)) = true ->
  spw_reorder d data = Ok data.
Proof. intros Hall. unfold spw_reorder. by rewrite Hall. Qed.

(** With exactly one negative jump, after window [wrap], the channel axis
    is rolled by [+rollch], that is to the right, where [rollch] counts the
    channels of the windows up to [wrap]. *)
Lemma spw_reorder_one_wrap (d : state) (data : visdata) (wrap : Z) (nchans : list Z) :
  forallb (fun x => Rltb 0 x) (dfreq (spw_reffreq d)) = false ->
  n_where (fun x => Rltb x 0) (dfreq (spw_reffreq d)) = [wrap] ->
  mapM (index (spw_nchan d)) (range (wrap + 1)) = Ok nchans ->
  spw_reorder d data = Ok (roll_axis2 data (n_sum nchans)).
Proof.
  intros Hall Hneg Hn. unfold spw_reorder. rewrite Hall, Hneg. simpl.
  unfold bind. change (index [wrap] 0) with (Ok wrap). simpl. by rewrite Hn.
Qed.

(** Rolling left by the length of the first part, or right by the length
    of the second part, exchanges the two parts. *)
Lemma roll_app_left {A : Type} (a b : list A) :
  roll (a ++ b) (- Z.of_nat (length a)) = b ++ a.
Proof.
  unfold roll. rewrite length_app.
  destruct (Z.eqb_spec (Z.of_nat (length a + length b)) 0) as [H0|Hpos].
  { destruct a, b; simpl in *; (done || lia). }
  destruct (decide (length b = 0%nat)) as [Hb|Hb].
  - destruct b; [|done]. simpl. rewrite Nat.add_0_r, app_nil_r.
    replace (- Z.of_nat (length a)) with ((-1) * Z.of_nat (length a)) by lia.
    rewrite Z.mod_mul by lia.
    replace (Z.to_nat (Z.of_nat (length a) - 0)) with (length a) by lia.
    by rewrite drop_all, firstn_all.
  - destruct (decide (length a = 0%nat)) as [Ha|Ha].
    { destruct a; [|done]. simpl. rewrite Z.mod_0_l by lia.
      replace (Z.to_nat (Z.of_nat (length b) - 0)) with (length b) by lia.
      by rewrite drop_all, firstn_all, app_nil_r. }
    rewrite <- (Z.mod_add _ 1) by lia.
    rewrite Z.mod_small by lia.
    replace (Z.to_nat _) with (length a) by lia.
    by rewrite drop_app_length, take_app_length.
Qed.

Lemma roll_app_right {A : Type} (a b : list A) :
  roll (a ++ b) (Z.of_nat (length b)) = b ++ a.
Proof.
  unfold roll. rewrite length_app.
  destruct (Z.eqb_spec (Z.of_nat (length a + length b)) 0) as [H0|Hpos].
  { destruct a, b; simpl in *; (done || lia). }
  destruct (decide (length a = 0%nat)) as [Ha|Ha].
  - destruct a; [|done]. simpl. rewrite Z.mod_same by lia.
    replace (Z.to_nat (Z.of_nat (length b) - 0)) with (length b) by lia.
    by rewrite drop_all, firstn_all, app_nil_r.
  - destruct (decide (length b = 0%nat)) as [Hb|Hb].
    { destruct b; [|done]. simpl. rewrite Z.mod_0_l by lia. rewrite app_nil_r.
      replace (Z.to_nat (Z.of_nat (length a + 0) - 0)) with (length a) by lia.
      by rewrite drop_all, firstn_all. }
    rewrite Z.mod_small by lia.
    replace (Z.to_nat _) with (length a) by lia.
    by rewrite drop_app_length, take_app_length.
Qed.

(** The roll of the code, right by the length of the first part, exchanges
    the parts when they have the same length: a wrap in the middle of the
    band. *)
Lemma roll_symmetric {A : Type} (a b : list A) :
  length a = length b -> roll (a ++ b) (Z.of_nat (length a)) = b ++ a.
Proof. intros ->. apply roll_app_right. Qed.

(** Without downsampling, [read_bdf_segment] selects [d['chans']] in the
    data as the reordering leaves them. *)
Lemma read_bdf_segment_plain (read_bdf : string -> Z -> Z -> Z -> visdata) (d : state)
    (segment_arg : Z) :
  read_tdownsample d <= 1 -> read_fdownsample d <= 1 ->
  read_bdf_segment read_bdf d segment_arg
  = (r <- segment_range d segment_arg ;;
     sc <- getkey "scan" (scan d) ;;
     data <- spw_reorder d (read_bdf (filename d) sc (fst r) (snd r)) ;;
     take_axis2 data (chans d)).
Proof.
  intros Ht Hf. unfold read_bdf_segment.
  destruct (segment_range d segment_arg) as [r|]; [|done]. cbn [bind].
  destruct (getkey "scan" (scan d)) as [sc|]; [|done]. cbn [bind].
  destruct (spw_reorder d _) as [data|]; [|done]. cbn [bind].
  unfold downsample.
  destruct (Z.ltb_spec 1 (read_tdownsample d)) as [?|_]; [lia|].
  destruct (Z.ltb_spec 1 (read_fdownsample d)) as [?|_]; [lia|].
  reflexivity.
Qed.

(** The windows stored as 3, 4, 1, 2 GHz are put in order. *)
Lemma read_bdf_segment_symmetric_wrap :
  read_bdf_segment
    (fun _ _ _ _ => [[[observed_at 3; observed_at 4; observed_at 1; observed_at 2]]])
    (with_spw example_state [3000000000; 4000000000; 1000000000; 2000000000]%R [1; 1; 1; 1]) 0
  = Ok [[[observed_at 1; observed_at 2; observed_at 3; observed_at 4]]].
Proof.
  rewrite read_bdf_segment_plain by (simpl; lia).
  unfold segment_range. simpl.
  rewrite (spw_reorder_one_wrap _ _ 1 [1; 1]).
  - reflexivity.
  - simpl. unfold dfreq. simpl. Rltb_eval. reflexivity.
  - simpl. unfold dfreq, n_where. simpl. Rltb_eval. reflexivity.
  - reflexivity.
Qed.

(** C3 (the code departs from the claim): with the windows stored as
    2, 3, 4, 1 GHz there is exactly one negative jump and three channels
    precede the wrap.  [read_bdf_segment] rolls the channel axis by +3,
    which leaves the channels in the order 3, 4, 1, 2 GHz; rolling left by
    three channels, as the claim describes, gives 1, 2, 3, 4 GHz. *)
Theorem read_bdf_segment_roll_direction :
  read_bdf_segment (fun _ _ _ _ => wrapped_data) wrapped_state 0
  = Ok [[[observed_at 3; observed_at 4; observed_at 1; observed_at 2]]]
  /\ roll_axis2 wrapped_data (-3)
     = [[[observed_at 1; observed_at 2; observed_at 3; observed_at 4]]].
Proof.
  split; [|reflexivity].
  rewrite read_bdf_segment_plain by (simpl; lia).
  unfold segment_range. simpl.
  rewrite (spw_reorder_one_wrap wrapped_state wrapped_data 2 [1; 1; 1]).
  - reflexivity.
  - simpl. unfold dfreq. simpl. Rltb_eval. reflexivity.
  - simpl. unfold dfreq, n_where. simpl. Rltb_eval. reflexivity.
  - reflexivity.
Qed.

(** ** The DM grid *)

Local Open Scope R_scope.

Lemma Rceil_bounds (x : R) : x <= IZR (Rceil x) < x + 1.
Proof.
  unfold Rceil, Rfloor. rewrite opp_IZR.
  destruct (base_Int_part (- x)) as [H1 H2]. lra.
Qed.

Lemma arange_trial_grid (float_quotient : R -> R -> R -> R) (mindm maxdm : R) :
  arange float_quotient mindm maxdm 0.05
  = trial_grid mindm (Z.to_nat (Rceil (float_quotient mindm maxdm 0.05))).
Proof.
  unfold arange, trial_grid, range, seqZ. rewrite <- list_fmap_compose.
  apply list_fmap_ext. intros i n Hn. simpl.
  rewrite Z.add_0_r, <- INR_IZR_INZ. done.
Qed.

Lemma trial_grid_S (mindm : R) (n : nat) :
  trial_grid mindm (S n) = mindm :: ((fun i : nat => mindm + INR i * 0.05) <$> seq 1 n).
Proof. unfold trial_grid. simpl. f_equal. lra. Qed.

Lemma elem_of_trial_grid (mindm : R) (n : nat) (t : R) :
  t ∈ trial_grid mindm n <-> exists i : nat, (i < n)%nat /\ t = mindm + INR i * 0.05.
Proof.
  unfold trial_grid. rewrite list_elem_of_fmap. split.
  - intros (i & -> & Hi). apply elem_of_seq in Hi. exists i. split; [lia|done].
  - intros (i & Hi & ->). exists i. split; [done|]. apply elem_of_seq. lia.
Qed.

Lemma trial_grid_sorted (mindm : R) (n : nat) : StronglySorted Rlt (trial_grid mindm n).
Proof.
  unfold trial_grid. generalize 0%nat as s. induction n as [|n IH]; intros s; simpl.
  - constructor.
  - constructor; [apply IH|]. apply Forall_forall. intros t Ht.
    apply list_elem_of_fmap in Ht as (i & -> & Hi). apply elem_of_seq in Hi.
    assert (INR s < INR i) by (apply lt_INR; lia). lra.
Qed.

Lemma Rabs_le_bounds (x y : R) : Rabs x <= y -> - y <= x <= y.
Proof.
  intros H. pose proof (Rle_abs x). pose proof (Rle_abs (- x)) as H'.
  rewrite Rabs_Ropp in H'. lra.
Qed.

(** The number of trial points that numpy takes: it is positive when the
    quotient computed is, and when that quotient is within [err] of the
    exact one the trial points end within [0.05 * err] of [maxdm]. *)
Lemma arange_count (float_quotient : R -> R -> R -> R) (mindm maxdm err : R) :
  let n := Z.to_nat (Rceil (float_quotient mindm maxdm 0.05)) in
  (0 < float_quotient mindm maxdm 0.05 -> (0 < n)%nat)
  /\ (Rabs (float_quotient mindm maxdm 0.05 - (maxdm - mindm) / 0.05) <= err ->
      (forall t, t ∈ trial_grid mindm n -> mindm <= t < maxdm + 0.05 * err)
      /\ maxdm - 0.05 * err <= mindm + INR n * 0.05).
Proof.
  intros n. subst n. set (q := float_quotient mindm maxdm 0.05).
  pose proof (Rceil_bounds q) as [Hlo Hhi].
  split.
  - intros Hq. assert (0 < Rceil q)%Z by (apply lt_IZR; lra). lia.
  - intros Herr. apply Rabs_le_bounds in Herr.
    assert (Hmul : (maxdm - mindm) / 0.05 * 0.05 = maxdm - mindm) by (field; lra).
    split.
    + intros t Ht. apply elem_of_trial_grid in Ht as (i & Hi & ->).
      assert (Hpos : 0 <= INR i) by apply pos_INR.
      assert (Hc : (0 < Rceil q)%Z) by lia.
      assert (Hn : INR (Z.to_nat (Rceil q)) = IZR (Rceil q)).
      { rewrite INR_IZR_INZ, Z2Nat.id by lia. done. }
      assert (Hi' : INR i + 1 <= INR (Z.to_nat (Rceil q))).
      { rewrite <- S_INR. apply le_INR. lia. }
      split; [lra|]. nra.
    + assert (Hn : IZR (Rceil q) <= INR (Z.to_nat (Rceil q))).
      { rewrite INR_IZR_INZ. apply IZR_le. lia. }
      nra.
Qed.

(** The loop of [calc_dmgrid] builds the grid of the specification. *)
Lemma foldl_dmgrid_step (loss : R -> R -> R) (maxloss : R) (trials pre : list R) (lastdm : R) :
  foldl (dmgrid_step loss maxloss) (pre ++ [lastdm]) trials
  = pre ++ lastdm :: spec_dmgrid loss maxloss lastdm trials.
Proof.
  revert pre lastdm. induction trials as [|dm rest IH]; intros pre lastdm; simpl.
  - done.
  - unfold dmgrid_step at 2. rewrite last_snoc. simpl.
    destruct (Rgt_dec (loss dm ((dm - lastdm) / 2)) maxloss).
    + rewrite IH. by rewrite <- app_assoc.
    + apply IH.
Qed.

Lemma spec_dmgrid_elem_of (loss : R -> R -> R) (maxloss : R) (trials : list R) (lastdm x : R) :
  x ∈ spec_dmgrid loss maxloss lastdm trials -> x ∈ trials.
Proof.
  revert lastdm. induction trials as [|dm rest IH]; intros lastdm; simpl; [done|].
  destruct (Rgt_dec _ _).
  - intros [->|H]%elem_of_cons; [left|right; by eapply IH].
  - intros H. right. by eapply IH.
Qed.





Lemma dt0_pos (dt tsamp freq ch dm : R) : tsamp <> 0 -> 0 < dt0 dt tsamp freq ch dm.
Proof.
  intros Ht. unfold dt0. apply sqrt_lt_R0.
  pose proof (pow2_ge_0 dt). pose proof (pow2_ge_0 (k * dm * ch / freq ^ 3)).
  assert (0 < tsamp ^ 2) by nra. lra.
Qed.

(** No loss against the same DM. *)
Lemma loss_same (dt tsamp freq bw ch dm : R) :
  tsamp <> 0 -> loss dt tsamp freq bw ch dm 0 = 0.
Proof.
  intros Ht. unfold loss.
  assert (Heq : dt1 dt tsamp freq bw ch dm 0 = dt0 dt tsamp freq ch dm).
  { unfold dt1, dt0. f_equal. unfold Rdiv. rewrite Rmult_0_r, !Rmult_0_l. simpl. lra. }
  rewrite Heq. pose proof (dt0_pos dt tsamp freq ch dm Ht).
  replace (dt0 dt tsamp freq ch dm / dt0 dt tsamp freq ch dm) with 1 by (field; lra).
  rewrite sqrt_1. lra.
Qed.

Local Close Scope R_scope.

Local Open Scope R_scope.

Lemma calc_dmgrid_unfold (float_quotient : R -> R -> R -> R) (d : state)
    (maxloss dt mindm maxdm f0 f1 flast : R) :
  freq d !! 0%nat = Some f0 -> freq d !! 1%nat = Some f1 -> last (freq d) = Some flast ->
  calc_dmgrid float_quotient d maxloss dt mindm maxdm
  = if Req_dec_T maxdm 0 then Ok [0]
    else first <- index (arange float_quotient mindm maxdm 0.05) 0 ;;
         Ok (foldl (dmgrid_step (state_loss d dt f0 f1 flast) maxloss) [first]
               (arange float_quotient mindm maxdm 0.05)).
Proof.
  intros H0 H1 Hl. unfold calc_dmgrid.
  rewrite (index_last _ _ Hl). simpl.
  rewrite (index_lookup (freq d) 0 f0) by (done || lia). simpl.
  rewrite (index_lookup (freq d) 1 f1) by (done || lia). simpl.
  done.
Qed.

Lemma calc_dmgrid_grid (float_quotient : R -> R -> R -> R) (d : state)
    (maxloss dt mindm maxdm f0 f1 flast : R) :
  freq d !! 0%nat = Some f0 -> freq d !! 1%nat = Some f1 -> last (freq d) = Some flast ->
  maxdm <> 0 -> 0 < float_quotient mindm maxdm 0.05 ->
  calc_dmgrid float_quotient d maxloss dt mindm maxdm
  = Ok (mindm :: spec_dmgrid (state_loss d dt f0 f1 flast) maxloss mindm
                   (trial_grid mindm (Z.to_nat (Rceil (float_quotient mindm maxdm 0.05))))).
Proof.
  intros H0 H1 Hl Hmax Hq.
  rewrite (calc_dmgrid_unfold float_quotient d maxloss dt mindm maxdm f0 f1 flast) by done.
  destruct (Req_dec_T maxdm 0) as [|_]; [done|].
  rewrite arange_trial_grid.
  destruct (arange_count float_quotient mindm maxdm 0) as (Hn & _).
  specialize (Hn Hq).
  destruct (Z.to_nat (Rceil (float_quotient mindm maxdm 0.05))) as [|n]; [lia|].
  assert (Hidx : index (trial_grid mindm (S n)) 0 = Ok mindm).
  { rewrite trial_grid_S. reflexivity. }
  rewrite Hidx. cbv [bind]. f_equal. exact (foldl_dmgrid_step _ _ _ [] mindm).
Qed.



(** What [calc_dmgrid] needs to run: two channels, and a trial grid that
    is not empty. *)
Lemma calc_dmgrid_one_channel (float_quotient : R -> R -> R -> R) (d : state)
    (maxloss dt mindm maxdm f : R) :
  freq d = [f] -> calc_dmgrid float_quotient d maxloss dt mindm maxdm = Raise IndexError.
Proof. intros Hf. unfold calc_dmgrid. rewrite Hf. reflexivity. Qed.

Lemma calc_dmgrid_empty_range (float_quotient : R -> R -> R -> R) (d : state)
    (maxloss dt mindm maxdm f0 f1 flast : R) :
  freq d !! 0%nat = Some f0 -> freq d !! 1%nat = Some f1 -> last (freq d) = Some flast ->
  maxdm <> 0 -> float_quotient mindm maxdm 0.05 <= 0 ->
  calc_dmgrid float_quotient d maxloss dt mindm maxdm = Raise IndexError.
Proof.
  intros H0 H1 Hl Hmax Hle.
  rewrite (calc_dmgrid_unfold float_quotient d maxloss dt mindm maxdm f0 f1 flast) by done.
  destruct (Req_dec_T maxdm 0) as [|_]; [done|].
  unfold arange, range. rewrite seqZ_nil; [done|].
  pose proof (Rceil_bounds (float_quotient mindm maxdm 0.05)) as [_ Hhi].
  assert (Rceil (float_quotient mindm maxdm 0.05%R) < 1)%Z by (apply lt_IZR; lra).
  lia.
Qed.



Local Close Scope R_scope.

(** ** The loss between successive DMs *)

Local Open Scope R_scope.

(** Between two successive entries [a] and [b] of the grid, the loss
    against [a] first exceeds [maxloss] at [b]. *)
Lemma spec_dmgrid_adjacent (loss : R -> R -> R) (maxloss : R) (trials : list R) (lastdm : R) :
  StronglySorted Rlt trials -> Forall (Rle lastdm) trials ->
  forall a b, adjacent a b (lastdm :: spec_dmgrid loss maxloss lastdm trials) ->
    loss b ((b - a) / 2) > maxloss
    /\ forall t, t ∈ trials -> a < t < b -> loss t ((t - a) / 2) <= maxloss.
Proof.
  revert lastdm. induction trials as [|dm rest IH]; intros lastdm Hs Hle a b (l1 & l2 & Hg).
  - simpl in Hg. destruct l1 as [|? [|? ?]]; discriminate.
  - apply StronglySorted_cons in Hs as [Hall Hs].
    apply Forall_cons in Hle as [Hle0 Hle].
    simpl in Hg. destruct (Rgt_dec (loss dm ((dm - lastdm) / 2)) maxloss) as [Hgt|Hngt].
    + destruct l1 as [|x l1]; simpl in Hg.
      * injection Hg as <- <- _. split; [done|].
        intros t [->|Ht]%elem_of_cons Hb; [lra|].
        pose proof (proj1 (Forall_forall _ _) Hall t Ht). simpl in *. lra.
      * injection Hg as _ Hg.
        assert (Hadj : adjacent a b (dm :: spec_dmgrid loss maxloss dm rest)) by by exists l1, l2.
        destruct (IH dm Hs) with (a := a) (b := b) as [Hb Ht]; [|done|].
        { eapply Forall_impl; [exact Hall|]. intros; simpl in *; lra. }
        split; [done|]. intros t [->|Hin]%elem_of_cons Hab; [|by apply Ht].
        assert (Ha : a ∈ dm :: spec_dmgrid loss maxloss dm rest).
        { rewrite Hg. apply elem_of_app. right. left. }
        apply elem_of_cons in Ha as [->|Ha]; [lra|].
        apply spec_dmgrid_elem_of in Ha.
        pose proof (proj1 (Forall_forall _ _) Hall a Ha). simpl in *. lra.
    + assert (Hadj : adjacent a b (lastdm :: spec_dmgrid loss maxloss lastdm rest))
        by by exists l1, l2.
      destruct (IH lastdm Hs Hle a b Hadj) as [Hb Ht].
      split; [done|]. intros t [->|Hin]%elem_of_cons Hab; [|by apply Ht].
      assert (Ha : a ∈ lastdm :: spec_dmgrid loss maxloss lastdm rest).
      { rewrite Hg. apply elem_of_app. right. left. }
      apply elem_of_cons in Ha as [->|Ha]; [lra|].
      apply spec_dmgrid_elem_of in Ha.
      pose proof (proj1 (Forall_forall _ _) Hall a Ha). simpl in *. lra.
Qed.

(** C5, as the code has it: for every grid that [calc_dmgrid] returns and
    every pair of successive entries [a], [b] of it, the loss
    [loss(b, (b - a)/2)] at the appended entry exceeds [maxloss], and every
    trial DM [t] strictly between them has [loss(t, (t - a)/2) <= maxloss]:
    the bound holds up to the last trial step before [b], not up to [b]. *)
Theorem dmgrid_adjacent_loss (float_quotient : R -> R -> R -> R) (d : state)
    (maxloss dt mindm maxdm f0 f1 flast : R) (grid : list R) :
  freq d !! 0%nat = Some f0 -> freq d !! 1%nat = Some f1 -> last (freq d) = Some flast ->
  calc_dmgrid float_quotient d maxloss dt mindm maxdm = Ok grid ->
  let loss := state_loss d dt f0 f1 flast in
  forall a b, adjacent a b grid ->
    loss b ((b - a) / 2) > maxloss
    /\ forall t, t ∈ arange float_quotient mindm maxdm 0.05 -> a < t < b ->
         loss t ((t - a) / 2) <= maxloss.
Proof.
  intros H0 H1 Hl Hg loss0 a b Hadj.
  rewrite (calc_dmgrid_unfold float_quotient d maxloss dt mindm maxdm f0 f1 flast) in Hg
    by done.
  destruct (Req_dec_T maxdm 0) as [|Hmax].
  { injection Hg as <-. destruct Hadj as (l1 & l2 & Hadj).
    destruct l1 as [|? [|? ?]]; discriminate. }
  rewrite arange_trial_grid in *.
  destruct (Z.to_nat (Rceil (float_quotient mindm maxdm 0.05))) as [|n] eqn:En.
  { discriminate. }
  assert (Hidx : index (trial_grid mindm (S n)) 0 = Ok mindm).
  { rewrite trial_grid_S. reflexivity. }
  rewrite Hidx in Hg. cbv [bind] in Hg.
  rewrite (foldl_dmgrid_step _ _ _ [] mindm) in Hg. injection Hg as <-.
  apply (spec_dmgrid_adjacent loss0 maxloss (trial_grid mindm (S n)) mindm); [| |done].
  - apply trial_grid_sorted.
  - apply Forall_forall. intros x (i & _ & ->)%elem_of_trial_grid.
    pose proof (pos_INR i). lra.
Qed.

Local Close Scope R_scope.

Local Open Scope R_scope.

(** A sufficient condition for a loss above [m], free of square roots. *)
Lemma loss_gt (dt tsamp freq bw ch dm ddm m : R) :
  0 <= m < 1 ->
  let A := dt ^ 2 + tsamp ^ 2 + (k * dm * ch / freq ^ 3) ^ 2 in
  let B := (k * ddm * bw / freq ^ 3) ^ 2 in
  0 < A -> A < (1 - m) ^ 4 * (A + B) ->
  loss dt tsamp freq bw ch dm ddm > m.
Proof.
  intros Hm A B HA Hlt. unfold loss, dt0, dt1. fold A. fold B.
  assert (HB : 0 <= B) by apply pow2_ge_0.
  clearbody A B.
  rewrite <- sqrt_div by lra.
  assert (Hx : 0 <= A / (A + B) < (1 - m) ^ 4).
  { split.
    - apply Rle_mult_inv_pos; lra.
    - apply Rmult_lt_reg_r with (r := A + B); [lra|].
      replace (A / (A + B) * (A + B)) with A by (field; lra). done. }
  assert (H1 : sqrt (A / (A + B)) < (1 - m) ^ 2).
  { rewrite <- (sqrt_pow2 ((1 - m) ^ 2)) by apply pow2_ge_0.
    apply sqrt_lt_1_alt. replace (((1 - m) ^ 2) ^ 2) with ((1 - m) ^ 4) by ring. done. }
  assert (H2 : sqrt (sqrt (A / (A + B))) < 1 - m).
  { rewrite <- (sqrt_pow2 (1 - m)) by lra.
    apply sqrt_lt_1_alt. split; [apply sqrt_pos|done]. }
  lra.
Qed.

(** The grid of the low band up to 0.1 pc/cm3.  The double 0.1 is
    exactly twice the double 0.05, so that the quotient numpy computes
    for [arange(0, 0.1, 0.05)] is the exact one, 2. *)
Lemma lowband_loss :
  state_loss lowband_state 3000 0.05 0.1 0.15 = loss 3000 4000 0.1 100 50.
Proof.
  unfold state_loss, n_mean. simpl. f_equal; lra.
Qed.

Lemma lowband_count : Z.to_nat (Rceil (exact_quotient 0 0.1 0.05)) = 2%nat.
Proof.
  unfold exact_quotient. replace ((0.1 - 0) / 0.05) with 2 by lra.
  pose proof (Rceil_bounds 2) as [Hlo Hhi].
  assert (2 <= Rceil 2)%Z by (apply le_IZR; lra).
  assert (Rceil 2 < 3)%Z by (apply lt_IZR; lra).
  lia.
Qed.

Lemma lowband_trial_grid : trial_grid 0 2 = [0; 0.05].
Proof. unfold trial_grid. simpl. f_equal; [lra|]. f_equal. lra. Qed.

Lemma lowband_loss_first : loss 3000 4000 0.1 100 50 0.05 ((0.05 - 0) / 2) > 0.05.
Proof.
  apply loss_gt; [lra| |]; unfold k.
  - replace (8.3 * 0.05 * 50 / 0.1 ^ 3) with 20750 by lra. lra.
  - replace (8.3 * 0.05 * 50 / 0.1 ^ 3) with 20750 by lra.
    replace (8.3 * ((0.05 - 0) / 2) * 100 / 0.1 ^ 3) with 20750 by lra. lra.
Qed.

Lemma lowband_loss_claimed : loss 3000 4000 0.1 100 50 0 ((0.05 - 0) / 2) > 0.05 + 0.45.
Proof.
  apply loss_gt; [lra| |]; unfold k.
  - replace (8.3 * 0 * 50 / 0.1 ^ 3) with 0 by lra. lra.
  - replace (8.3 * 0 * 50 / 0.1 ^ 3) with 0 by (field; lra).
    replace (8.3 * ((0.05 - 0) / 2) * 100 / 0.1 ^ 3) with 20750 by lra. lra.
Qed.

Lemma lowband_grid : calc_dmgrid exact_quotient lowband_state 0.05 3000 0 0.1 = Ok [0; 0.05].
Proof.
  rewrite (calc_dmgrid_grid exact_quotient lowband_state 0.05 3000 0 0.1 0.05 0.1 0.15)
    by (reflexivity || (unfold exact_quotient; lra)).
  rewrite lowband_count, lowband_trial_grid, lowband_loss. simpl.
  replace ((0 - 0) / 2) with 0 by lra. rewrite loss_same by lra.
  destruct (Rgt_dec 0 0.05); [lra|].
  destruct (Rgt_dec (loss 3000 4000 0.1 100 50 0.05 ((0.05 - 0) / 2)) 0.05) as [|Hn]; [done|].
  destruct Hn. apply lowband_loss_first.
Qed.

(** C5 as the specification states it fails: on the low band the grid up
    to 0.1 pc/cm3 is [[0; 0.05]], and the loss between its two entries,
    [loss(0, 0.025)], exceeds [maxloss + 0.45] for [maxloss = 0.05].  The
    quotient of [arange(0, 0.1, 0.05)] is 2 in double precision as in
    exact arithmetic. *)
Lemma dmgrid_loss_tolerance_counterexample :
  exists grid,
    calc_dmgrid exact_quotient lowband_state 0.05 3000 0 0.1 = Ok grid
    /\ ~ loss_within (state_loss lowband_state 3000 0.05 0.1 0.15) 0.05 0.45 grid.
Proof.
  exists [0; 0.05]. split; [apply lowband_grid|].
  intros Hw. specialize (Hw 0 0.05). rewrite lowband_loss in Hw.
  pose proof lowband_loss_claimed.
  assert (adjacent 0 0.05 [0; 0.05]) as Hadj by (by exists [], []).
  specialize (Hw Hadj). lra.
Qed.

Lemma dmgrid_adjacent_loss_witness :
  state_loss lowband_state 3000 0.05 0.1 0.15 0.05 ((0.05 - 0) / 2) > 0.05.
Proof.
  assert (Hadj : adjacent 0 0.05 [0; 0.05]) by (by exists [], []).
  exact (proj1 (dmgrid_adjacent_loss exact_quotient lowband_state 0.05 3000 0 0.1
                  0.05 0.1 0.15 [0; 0.05]
                  eq_refl eq_refl eq_refl lowband_grid 0 0.05 Hadj)).
Defined.

Local Close Scope R_scope.

(** ** Pixels and direction cosines *)

Local Open Scope R_scope.

Lemma calc_lm_pix (d : state) (im : image) (x y : R) (minmax : string) :
  calc_lm d im [x; y] minmax
  = Ok ((IZR (fst (shape im)) / 2 - x) / IZR (fst (shape im) * uvres d),
        (IZR (snd (shape im)) / 2 - y) / IZR (snd (shape im) * uvres d)).
Proof. done. Qed.

Lemma square_shape (im : image) (N : nat) :
  (0 < N)%nat -> length im = N -> Forall (fun row => length row = N) im ->
  shape im = (Z.of_nat N, Z.of_nat N).
Proof.
  intros HN Hlen Hrows. unfold shape. rewrite Hlen. f_equal. f_equal.
  destruct im as [|row rest]; [simpl in Hlen; lia|].
  apply Forall_cons in Hrows as [Hrow _]. simpl. by rewrite Hrow.
Qed.

(** One axis: a pixel within one pixel of the predicted one gives back
    the direction cosine to within [1/(N uv_res)]. *)
Lemma pixel_roundtrip (N : nat) (uv_res : Z) (l x : R) :
  (0 < N)%nat -> (0 < uv_res)%Z ->
  Rabs (x - spec_pixel N uv_res l) <= 1 ->
  Rabs ((IZR (Z.of_nat N) / 2 - x) / IZR (Z.of_nat N * uv_res) - l)
  <= 1 / (INR N * IZR uv_res).
Proof.
  intros HN Hres Hx. unfold spec_pixel in Hx.
  rewrite mult_IZR, <- INR_IZR_INZ.
  assert (HNr : 0 < INR N) by (apply lt_0_INR; lia).
  assert (Hr : 0 < IZR uv_res) by (apply IZR_lt; lia).
  assert (Hden : 0 < INR N * IZR uv_res) by (apply Rmult_lt_0_compat; lra).
  replace ((INR N / 2 - x) / (INR N * IZR uv_res) - l)
    with (- (x - (INR N / 2 - l * INR N * IZR uv_res)) / (INR N * IZR uv_res))
    by (field; lra).
  unfold Rdiv. rewrite Rabs_mult, Rabs_Ropp, (Rabs_pos_eq (/ _)).
  - apply Rmult_le_compat_r; [|done]. left. by apply Rinv_0_lt_compat.
  - left. by apply Rinv_0_lt_compat.
Qed.

Lemma pixel_roundtrip_exact (N : nat) (uv_res : Z) (l : R) :
  (0 < N)%nat -> (0 < uv_res)%Z ->
  (IZR (Z.of_nat N) / 2 - spec_pixel N uv_res l) / IZR (Z.of_nat N * uv_res) = l.
Proof.
  intros HN Hres. unfold spec_pixel. rewrite mult_IZR, <- INR_IZR_INZ.
  assert (HNr : 0 < INR N) by (apply lt_0_INR; lia).
  assert (Hr : 0 < IZR uv_res) by (apply IZR_lt; lia).
  field. lra.
Qed.

(** C7: on an image of shape [(N, N)], with a positive [uvres], the pixel
    [(N/2 - l N uvres, N/2 - m N uvres)] is taken back by [calc_lm] to
    [(l, m)] itself, and any pixel within one pixel of it (such as the
    integer pixel it rounds to) to within [1/(N uvres)] of [(l, m)]. *)
Theorem calc_lm_roundtrip (d : state) (im : image) (N : nat) (minmax : string) (l m : R) :
  (0 < N)%nat -> (0 < uvres d)%Z ->
  length im = N -> Forall (fun row => length row = N) im ->
  calc_lm d im [spec_pixel N (uvres d) l; spec_pixel N (uvres d) m] minmax = Ok (l, m)
  /\ forall x y,
      Rabs (x - spec_pixel N (uvres d) l) <= 1 ->
      Rabs (y - spec_pixel N (uvres d) m) <= 1 ->
      exists l1 m1,
        calc_lm d im [x; y] minmax = Ok (l1, m1)
        /\ Rabs (l1 - l) <= 1 / (INR N * IZR (uvres d))
        /\ Rabs (m1 - m) <= 1 / (INR N * IZR (uvres d)).
Proof.
  intros HN Hres Hlen Hrows. split.
  - rewrite calc_lm_pix, (square_shape im N HN Hlen Hrows). simpl fst. simpl snd.
    by rewrite !pixel_roundtrip_exact.
  - intros x y Hx Hy.
    rewrite calc_lm_pix, (square_shape im N HN Hlen Hrows). simpl fst. simpl snd.
    eexists _, _. split; [done|]. split; by apply pixel_roundtrip.
Qed.

Lemma calc_lm_roundtrip_witness :
  calc_lm example_state [[1; 2]; [3; 4]]
    [spec_pixel 2 100 (1 / 400); spec_pixel 2 100 (- 1 / 400)] "max"
  = Ok (1 / 400, - 1 / 400).
Proof.
  refine (proj1 (calc_lm_roundtrip example_state [[1; 2]; [3; 4]] 2 "max"
                   (1 / 400) (- 1 / 400) _ _ _ _)).
  - lia.
  - simpl. lia.
  - reflexivity.
  - repeat constructor.
Defined.

Local Close Scope R_scope.

(** ** Baselines in wavelengths *)

Local Open Scope R_scope.

Lemma to_lambda_spec (f0 x : R) : to_lambda f0 x = spec_lambda f0 x.
Proof. unfold to_lambda, spec_lambda, c_light. lra. Qed.

(** C6: for a segment of the state, [get_uvw_segment] returns the metric
    [(u, v, w)] that [calc_uvw] gives for the midpoint of the segment,
    each converted as [- x * freq0[Hz] / c], where [freq0] is the first
    original channel frequency. *)
Theorem get_uvw_segment_spec (qa_time : R -> string)
    (calc_uvw : string -> Z -> datetime -> list R * list R * list R)
    (d : state) (segment_arg sc : Z) (times : list (R * R)) (t0 t1 f0 : R) :
  segment_arg <> (-1)%Z ->
  segmenttimes d = Some times -> index times segment_arg = Ok (t0, t1) ->
  scan d = Some sc -> freq_orig d !! 0%nat = Some f0 ->
  let midpoint := (t0 + t1) / 2 in
  let uvw := calc_uvw (filename d) sc (TimeString (qa_time midpoint)) in
  get_uvw_segment qa_time calc_uvw d segment_arg
  = Ok (spec_lambda f0 <$> fst (fst uvw), spec_lambda f0 <$> snd (fst uvw),
        spec_lambda f0 <$> snd uvw).
Proof.
  intros Hseg Htimes Hrow Hsc Hf0 midpoint uvw. unfold get_uvw_segment.
  destruct (Z.eqb_spec segment_arg (-1)) as [|_]; [done|].
  rewrite Htimes, Hrow, Hsc. simpl.
  rewrite (index_lookup (freq_orig d) 0 f0) by (done || lia). simpl.
  replace ((t1 + t0) / 2) with midpoint by (unfold midpoint; lra). fold uvw.
  f_equal. f_equal; [f_equal|]; apply list_fmap_ext; intros; apply to_lambda_spec.
Qed.

Lemma get_uvw_segment_spec_witness :
  get_uvw_segment (fun _ => "2014/12/09/00:00:00.500000000"%string)
    (fun _ _ _ => ([100], [200], [-300])) example_state 0
  = Ok ([spec_lambda 1 100], [spec_lambda 1 200], [spec_lambda 1 (-300)]).
Proof.
  refine (get_uvw_segment_spec (fun _ => "2014/12/09/00:00:00.500000000"%string)
            (fun _ _ _ => ([100], [200], [-300])) example_state 0 7
            [(57000, 57000 + 1 / 86400); (57000 + 1 / 86400, 57000 + 2 / 86400)]
            57000 (57000 + 1 / 86400) 1 _ eq_refl eq_refl eq_refl eq_refl).
  lia.
Defined.

Local Close Scope R_scope.

(** ** Two-stage imaging *)

Local Open Scope R_scope.

Lemma foldl_Rmax_elem (l : list R) (x : R) : foldl Rmax x l ∈ x :: l.
Proof.
  revert x. induction l as [|y l IH]; intros x; simpl; [left|].
  specialize (IH (Rmax x y)). apply elem_of_cons in IH as [->|IH].
  - unfold Rmax. destruct (Rle_dec x y); [right; left|left].
  - by do 2 right.
Qed.

Lemma foldl_Rmin_elem (l : list R) (x : R) : foldl Rmin x l ∈ x :: l.
Proof.
  revert x. induction l as [|y l IH]; intros x; simpl; [left|].
  specialize (IH (Rmin x y)). apply elem_of_cons in IH as [->|IH].
  - unfold Rmin. destruct (Rle_dec x y); [left|right; left].
  - by do 2 right.
Qed.

Lemma n_max_elem (a : list R) : a <> [] -> exists mx, n_max a = Ok mx /\ mx ∈ a.
Proof.
  destruct a as [|x l]; [done|]. intros _. eexists. split; [done|]. apply foldl_Rmax_elem.
Qed.

Lemma n_min_elem (a : list R) : a <> [] -> exists mn, n_min a = Ok mn /\ mn ∈ a.
Proof.
  destruct a as [|x l]; [done|]. intros _. eexists. split; [done|]. apply foldl_Rmin_elem.
Qed.

Lemma row_where_nonempty (v : R) (y : Z) (row : list R) : v ∈ row -> row_where v y row <> [].
Proof.
  revert y. induction row as [|p rest IH]; intros y Hin; [by apply elem_of_nil in Hin|].
  simpl. destruct (Req_dec_T p v) as [|Hne]; [done|].
  apply elem_of_cons in Hin as [->|Hin]; [done|]. by apply IH.
Qed.

Lemma im_where_nonempty (v : R) (x : Z) (im : list (list R)) :
  v ∈ concat im -> im_where v x im <> [].
Proof.
  revert x. induction im as [|row rest IH]; intros x Hin; [by apply elem_of_nil in Hin|].
  simpl in *. apply elem_of_app in Hin as [Hin|Hin].
  - pose proof (row_where_nonempty v 0 row Hin) as Hne.
    destruct (row_where v 0 row); [done|]. done.
  - specialize (IH (x + 1)%Z Hin). by destruct (_ <$> row_where v 0 row), (im_where v (x + 1) rest).
Qed.

Lemma index_first {A : Type} (l : list A) : l <> [] -> exists x, index l 0 = Ok x.
Proof. destruct l as [|x l]; [done|]. intros _. by exists x. Qed.

Lemma peak_pixel_max (im : image) :
  concat im <> [] -> exists p, peak_pixel im "max" = Ok p.
Proof.
  intros Hne. destruct (n_max_elem _ Hne) as (mx & Hmx & Hin).
  destruct (index_first (im_where mx 0 im) (im_where_nonempty mx 0 im Hin)) as [p Hp].
  unfold peak_pixel. simpl. rewrite Hmx. simpl. rewrite Hp. simpl. by eexists.
Qed.

Lemma peak_pixel_min (im : image) :
  concat im <> [] -> exists p, peak_pixel im "min" = Ok p.
Proof.
  intros Hne. destruct (n_min_elem _ Hne) as (mn & Hmn & Hin).
  destruct (index_first (im_where mn 0 im) (im_where_nonempty mn 0 im Hin)) as [p Hp].
  unfold peak_pixel. simpl. rewrite Hmn. simpl. rewrite Hp. simpl. by eexists.
Qed.

Lemma signed_lm_nonempty (d : state) (im : image) (snr : R) :
  concat im <> [] -> exists lm, signed_lm d im snr = Ok lm.
Proof.
  intros Hne. unfold signed_lm, calc_lm. destruct (Rgt_dec snr 0).
  - destruct (peak_pixel_max im Hne) as [p ->]. by eexists.
  - destruct (peak_pixel_min im Hne) as [p ->]. by eexists.
Qed.

Lemma signed_peak_nonempty (im : image) (snr : R) :
  concat im <> [] -> exists p, signed_peak im snr = Ok p.
Proof.
  intros Hne. unfold signed_peak. destruct (Rgt_dec snr 0).
  - destruct (n_max_elem _ Hne) as (mx & -> & _). by eexists.
  - destruct (n_min_elem _ Hne) as (mn & -> & _). by eexists.
Qed.

Lemma extreme_snr_nonempty (im2 : image) :
  concat im2 <> [] ->
  exists mx mn, n_max (concat im2) = Ok mx /\ n_min (concat im2) = Ok mn
    /\ extreme_snr im2
       = Ok (if Rge_dec (mx / n_std (concat im2)) (Rabs (mn / n_std (concat im2)))
             then mx / n_std (concat im2) else mn / n_std (concat im2)).
Proof.
  intros Hne. destruct (n_max_elem _ Hne) as (mx & Hmx & _).
  destruct (n_min_elem _ Hne) as (mn & Hmn & _).
  exists mx, mn. unfold extreme_snr. by rewrite Hmx, Hmn.
Qed.

Lemma image2_feature_nonempty (im1 im2 : image) (snr1 snr2 : R) (lm1 lm2 : R * R)
    (feature : string) :
  concat im1 <> [] -> concat im2 <> [] ->
  exists vals, image2_feature im1 im2 snr1 snr2 lm1 lm2 feature = Ok vals.
Proof.
  intros H1 H2. unfold image2_feature.
  destruct (signed_peak_nonempty im1 snr1 H1) as [p1 ->].
  destruct (signed_peak_nonempty im2 snr2 H2) as [p2 ->].
  repeat (destruct (String.eqb feature _); [by eexists|]). by eexists.
Qed.

Lemma image2_features_nonempty (im1 im2 : image) (snr1 snr2 : R) (lm1 lm2 : R * R)
    (fs : list string) :
  concat im1 <> [] -> concat im2 <> [] ->
  exists ff, mapM (image2_feature im1 im2 snr1 snr2 lm1 lm2) fs = Ok ff.
Proof.
  intros H1 H2. induction fs as [|f fs [ff IH]]; [by eexists|].
  destruct (image2_feature_nonempty im1 im2 snr1 snr2 lm1 lm2 f H1 H2) as [vals Hv].
  simpl. rewrite Hv, IH. by eexists.
Qed.

(** The record of the search types [image2] and [image2w]. *)
Lemma image2_features_record (im1 im2 : image) (snr1 snr2 p1 p2 : R) (lm1 lm2 : R * R) :
  signed_peak im1 snr1 = Ok p1 -> signed_peak im2 snr2 = Ok p2 ->
  mapM (image2_feature im1 im2 snr1 snr2 lm1 lm2) image2_features
  = Ok [[snr1]; [p1]; [fst lm1]; [snd lm1]; [snr2]; [p2]; [fst lm2]; [snd lm2]].
Proof. intros H1 H2. unfold image2_features, image2_feature. simpl. by rewrite H1, H2. Qed.

Local Close Scope R_scope.

Section Image2Proofs.

Local Open Scope R_scope.

Variable imgallfullfilterxy :
  list (list R) -> list (list R) -> visdata -> Z -> Z -> Z -> R ->
  list image * list R * list Z.
Variable imgonefullxy :
  list (list R) -> list (list R) -> list (list (list complex)) -> Z -> Z -> Z -> image.

Variables (d : state) (data_resamp : visdata) (i0 : Z) (u v : list R).
Variables (dmind dtind beamnum : Z).
Variables (ims : list image) (snr : list R) (candints : list Z).
Variables (f0 : R) (seg dt : Z).

Hypothesis Hf0 : freq_orig d !! 0%nat = Some f0.
Hypothesis Hseg : segment d = Some seg.
Hypothesis Hdm : (0 <= dmind < Z.of_nat (length (dmarr d)))%Z.
Hypothesis Hdtind : (0 <= dtind)%Z.
Hypothesis Hdt : dtarr d !! Z.to_nat dtind = Some dt.
Hypothesis Hdt0 : dt <> 0%Z.

Let uu : list (list R) := n_outer u ((fun f => f / f0) <$> freq d).
Let vv : list (list R) := n_outer v ((fun f => f / f0) <$> freq d).

(** The second-stage image of an integration, its SNR, and the key of a
    candidate. *)
Let second (integration : list (list (list complex))) : image :=
  imgonefullxy uu vv integration (npixx_full d) (npixy_full d) (uvres d).

Let key (cand : Z) : candid := (seg, ((i0 + cand) * dt)%Z, dmind, dtind, beamnum).

(** The contract of the compiled library: parallel arrays, candidates
    that are distinct integrations of the buffer, and images that are not
    empty. *)
Hypothesis Hims : length ims = length candints.
Hypothesis Hsnr : length snr = length candints.
Hypothesis Hrange :
  Forall (fun cand => (0 <= i0 + cand < Z.of_nat (length data_resamp))%Z) candints.
Hypothesis Hnodup : NoDup candints.
Hypothesis Him1 : Forall (fun im1 : image => concat im1 <> []) ims.
Hypothesis Him2 : forall integration, concat (second integration) <> [].

Lemma uv_scaled_u : uv_scaled d u = Ok uu.
Proof. unfold uv_scaled. by rewrite (index_lookup (freq_orig d) 0 f0) by (done || lia). Qed.

Lemma uv_scaled_v : uv_scaled d v = Ok vv.
Proof. unfold uv_scaled. by rewrite (index_lookup (freq_orig d) 0 f0) by (done || lia). Qed.

Lemma key_inj (c1 c2 : Z) : key c1 = key c2 -> c1 = c2.
Proof. unfold key. intros [= H]. nia. Qed.

(** What one turn of the loop does to the dictionary. *)
Lemma image2_candidate_step (feat : gmap candid (list R)) (i : Z) (cand : Z) :
  (0 <= i)%Z -> candints !! Z.to_nat i = Some cand ->
  exists integration snr1 im1 snr2,
    data_resamp !! Z.to_nat (i0 + cand) = Some integration
    /\ snr !! Z.to_nat i = Some snr1 /\ ims !! Z.to_nat i = Some im1
    /\ extreme_snr (second integration) = Ok snr2
    /\ ((Rabs snr2 > sigma_image2 d
         /\ exists lm1 lm2 ff,
             signed_lm d im1 snr1 = Ok lm1 /\ signed_lm d (second integration) snr2 = Ok lm2
             /\ mapM (image2_feature im1 (second integration) snr1 snr2 lm1 lm2) (features d)
                = Ok ff
             /\ image2_candidate imgonefullxy d data_resamp i0 u v dmind dtind beamnum
                  ims snr candints feat i
                = Ok (<[key cand := concat ff]> feat))
        \/ (Rabs snr2 <= sigma_image2 d
            /\ image2_candidate imgonefullxy d data_resamp i0 u v dmind dtind beamnum
                 ims snr candints feat i
               = Ok feat)).
Proof.
  intros Hi Hcand.
  pose proof (lookup_lt_Some _ _ _ Hcand) as Hlt.
  destruct (lookup_lt_is_Some_2 snr (Z.to_nat i)) as [snr1 Hsnr1]; [lia|].
  destruct (lookup_lt_is_Some_2 ims (Z.to_nat i)) as [im1 Him]; [lia|].
  pose proof (Forall_lookup_1 _ _ _ _ Hrange Hcand) as Hr. simpl in Hr.
  destruct (index_in_range data_resamp (i0 + cand) Hr) as (integration & Hint & Hidx).
  pose proof (Forall_lookup_1 _ _ _ _ Him1 Him) as Hne1. simpl in Hne1.
  destruct (extreme_snr_nonempty (second integration) (Him2 integration))
    as (mx & mn & _ & _ & Hsnr2).
  eexists integration, snr1, im1, _. repeat split; try done.
  unfold image2_candidate.
  rewrite uv_scaled_u, uv_scaled_v. simpl.
  rewrite (index_lookup candints i cand Hi Hcand). simpl. rewrite Hidx. simpl.
  fold (second integration). rewrite Hsnr2. simpl.
  match goal with |- context [Rgt_dec (Rabs ?s) _] => set (snr2 := s) end.
  rewrite (index_lookup (dtarr d) dtind dt Hdtind Hdt).
  destruct (index_in_range (dmarr d) dmind Hdm) as (dm & _ & ->).
  rewrite (index_lookup snr i snr1 Hi Hsnr1), Hseg. simpl.
  destruct (Rgt_dec (Rabs snr2) (sigma_image2 d)) as [Hgt|Hle].
  - left. split; [done|].
    rewrite (index_lookup ims i im1 Hi Him). simpl.
    destruct (signed_lm_nonempty d im1 snr1 Hne1) as [lm1 Hlm1].
    destruct (signed_lm_nonempty d (second integration) snr2 (Him2 integration)) as [lm2 Hlm2].
    destruct (image2_features_nonempty im1 (second integration) snr1 snr2 lm1 lm2
                (features d) Hne1 (Him2 integration)) as [ff Hff].
    exists lm1, lm2, ff. rewrite Hlm1, Hlm2. simpl. rewrite Hff. done.
  - right. split; [lra|done].
Qed.

(** What the loop has done with candidate [cand] when it turns the
    dictionary [feat] into [feat']. *)
Let verdict (feat feat' : gmap candid (list R)) (i : Z) (cand : Z) : Prop :=
  exists integration snr1 im1 snr2,
    data_resamp !! Z.to_nat (i0 + cand) = Some integration
    /\ snr !! Z.to_nat i = Some snr1 /\ ims !! Z.to_nat i = Some im1
    /\ extreme_snr (second integration) = Ok snr2
    /\ (Rabs snr2 > sigma_image2 d ->
        exists lm1 lm2 ff,
          signed_lm d im1 snr1 = Ok lm1 /\ signed_lm d (second integration) snr2 = Ok lm2
          /\ mapM (image2_feature im1 (second integration) snr1 snr2 lm1 lm2) (features d)
             = Ok ff
          /\ feat' !! key cand = Some (concat ff))
    /\ (Rabs snr2 <= sigma_image2 d -> feat' !! key cand = feat !! key cand).

Lemma candints_inj (i j : Z) (cand : Z) :
  (0 <= i)%Z -> (0 <= j)%Z ->
  candints !! Z.to_nat i = Some cand -> candints !! Z.to_nat j = Some cand -> i = j.
Proof.
  intros Hi Hj H1 H2. pose proof (NoDup_lookup _ _ _ _ Hnodup H1 H2). lia.
Qed.

Lemma image2_loop (idxs : list Z) (feat : gmap candid (list R)) :
  NoDup idxs ->
  Forall (fun i => (0 <= i < Z.of_nat (length candints))%Z) idxs ->
  exists feat',
    foldM (image2_candidate imgonefullxy d data_resamp i0 u v dmind dtind beamnum
             ims snr candints) feat idxs = Ok feat'
    /\ (forall i cand, i ∈ idxs -> candints !! Z.to_nat i = Some cand ->
          verdict feat feat' i cand)
    /\ (forall k, (forall i cand, i ∈ idxs -> candints !! Z.to_nat i = Some cand ->
                     k <> key cand) ->
          feat' !! k = feat !! k).
Proof.
  revert feat. induction idxs as [|i rest IH]; intros feat Hnd Hall.
  - exists feat. split; [done|]. split; [|done].
    intros i cand Hi. by apply elem_of_nil in Hi.
  - apply NoDup_cons in Hnd as [Hnotin Hnd].
    apply Forall_cons in Hall as [Hi Hall].
    destruct (lookup_lt_is_Some_2 candints (Z.to_nat i)) as [cand Hcand]; [lia|].
    destruct (image2_candidate_step feat i cand (proj1 Hi) Hcand)
      as (integration & snr1 & im1 & snr2 & Hint & Hs1 & Him & Hsnr2 & Hcase).
    assert (Hother : forall j candj, j ∈ rest -> candints !! Z.to_nat j = Some candj ->
                       key cand <> key candj).
    { intros j candj Hj Hcj Heq. apply key_inj in Heq as <-.
      pose proof (proj1 (Forall_forall _ _) Hall j Hj) as Hjr. simpl in Hjr.
      assert (i = j) by (eapply candints_inj; (done || lia)). by subst. }
    destruct Hcase as [(Hgt & lm1 & lm2 & ff & Hlm1 & Hlm2 & Hff & Hstep)|(Hle & Hstep)].
    + destruct (IH (<[key cand := concat ff]> feat) Hnd Hall) as (feat' & Hrun & Hv & Hframe).
      exists feat'. simpl. rewrite Hstep. split; [done|]. split.
      * intros j candj [->|Hj]%elem_of_cons Hcj.
        -- rewrite Hcand in Hcj. injection Hcj as <-.
           exists integration, snr1, im1, snr2. repeat split; try done.
           ++ intros _. exists lm1, lm2, ff. repeat split; try done.
              rewrite Hframe by (intros ? ? Hj' Hc'; exact (Hother _ _ Hj' Hc')). apply lookup_insert_eq.
           ++ intros Hle. lra.
        -- destruct (Hv j candj Hj Hcj) as (ig & s1 & i1' & s2 & ? & ? & ? & ? & Hp & Hf).
           exists ig, s1, i1', s2. repeat split; try done.
           intros Hle. rewrite (Hf Hle). apply lookup_insert_ne. exact (Hother _ _ Hj Hcj).
      * intros k Hk. rewrite Hframe.
        -- apply lookup_insert_ne. apply not_eq_sym. by eapply Hk; [left|].
        -- intros j candj Hj. apply Hk. by right.
    + destruct (IH feat Hnd Hall) as (feat' & Hrun & Hv & Hframe).
      exists feat'. simpl. rewrite Hstep. split; [done|]. split.
      * intros j candj [->|Hj]%elem_of_cons Hcj; [|by apply Hv].
        rewrite Hcand in Hcj. injection Hcj as <-.
        exists integration, snr1, im1, snr2. repeat split; try done.
        -- intros Hgt. lra.
        -- intros _. apply Hframe. intros ? ? Hj' Hc'. exact (Hother _ _ Hj' Hc').
      * intros k Hk. apply Hframe. intros j candj Hj. apply Hk. by right.
Qed.

(** C4, as the code has it: every candidate of the first stage is imaged
    again at [npixx_full] by [npixy_full]; [snr2] is the maximum of that
    image over its standard deviation when that is at least the absolute
    value of the minimum over the standard deviation, and the minimum over
    the standard deviation otherwise; the candidate gets a record, which
    for the feature list of [image2] is
    [snr1, immax1, l1, m1, snr2, immax2, l2, m2], when [|snr2|] is
    strictly above [sigma_image2], and no record when [|snr2|] is at most
    [sigma_image2]; the dictionary holds nothing else.  The verdict is
    stated for a second image whose standard deviation is not zero, for
    which [snr2] is a number. *)
Theorem image2_threshold (i1 : Z) (w : list R) :
  imgallfullfilterxy uu vv (slice data_resamp i0 i1) (npixx d) (npixy d) (uvres d)
    (sigma_image1 d) = (ims, snr, candints) ->
  exists feat,
    image2 imgallfullfilterxy imgonefullxy d data_resamp i0 i1 u v w dmind dtind beamnum
    = Ok feat
    /\ (forall (i : nat) (cand : Z),
          candints !! i = Some cand ->
          exists integration snr1 im1 mx mn,
            data_resamp !! Z.to_nat (i0 + cand) = Some integration
            /\ snr !! i = Some snr1 /\ ims !! i = Some im1
            /\ n_max (concat (second integration)) = Ok mx
            /\ n_min (concat (second integration)) = Ok mn
            /\ let sd := n_std (concat (second integration)) in
               let snr2 := if Rge_dec (mx / sd) (Rabs (mn / sd)) then mx / sd else mn / sd in
               sd <> 0 ->
               (Rabs snr2 > sigma_image2 d ->
                exists lm1 lm2 p1 p2 ff,
                  signed_lm d im1 snr1 = Ok lm1
                  /\ signed_lm d (second integration) snr2 = Ok lm2
                  /\ signed_peak im1 snr1 = Ok p1
                  /\ signed_peak (second integration) snr2 = Ok p2
                  /\ mapM (image2_feature im1 (second integration) snr1 snr2 lm1 lm2)
                       (features d) = Ok ff
                  /\ feat !! key cand = Some (concat ff)
                  /\ (features d = image2_features ->
                      concat ff = [snr1; p1; fst lm1; snd lm1; snr2; p2; fst lm2; snd lm2]))
               /\ (Rabs snr2 <= sigma_image2 d -> feat !! key cand = None))
    /\ (forall k, is_Some (feat !! k) -> exists cand, cand ∈ candints /\ k = key cand).
Proof.
  intros Hfirst. unfold image2. rewrite uv_scaled_u, uv_scaled_v. simpl. rewrite Hfirst.
  simpl fst. simpl snd.
  destruct (image2_loop (range (Z.of_nat (length candints))) ∅) as (feat & Hrun & Hv & Hframe).
  { apply NoDup_seqZ. }
  { apply Forall_seqZ. lia. }
  exists feat. split; [done|]. split.
  - intros i cand Hcand.
    pose proof (lookup_lt_Some _ _ _ Hcand) as Hlt.
    destruct (Hv (Z.of_nat i) cand) as (ig & s1 & im1 & s2 & Hig & Hs1 & Him & Hs2 & Hp & Hf).
    { apply elem_of_seqZ. lia. }
    { by rewrite Nat2Z.id. }
    rewrite Nat2Z.id in Hs1, Him.
    destruct (extreme_snr_nonempty (second ig) (Him2 ig)) as (mx & mn & Hmx & Hmn & He).
    rewrite Hs2 in He. injection He as ->.
    exists ig, s1, im1, mx, mn.
    split; [done|]. split; [done|]. split; [done|]. split; [done|]. split; [done|].
    cbv zeta. intros _. split.
    + intros Hgt. destruct (Hp Hgt) as (lm1 & lm2 & ff & Hlm1 & Hlm2 & Hff & Hlook).
      pose proof (Forall_lookup_1 _ _ _ _ Him1 Him) as Hne1. simpl in Hne1.
      destruct (signed_peak_nonempty im1 s1 Hne1) as [p1 Hp1].
      match type of Hlm2 with signed_lm _ _ ?s = _ =>
        destruct (signed_peak_nonempty (second ig) s (Him2 ig)) as [p2 Hp2] end.
      exists lm1, lm2, p1, p2, ff.
      split; [done|]. split; [done|]. split; [done|]. split; [done|].
      split; [done|]. split; [done|].
      intros Hfs. rewrite Hfs in Hff.
      rewrite (image2_features_record _ _ _ _ p1 p2 _ _ Hp1 Hp2) in Hff.
      by injection Hff as <-.
    + intros Hle. by rewrite (Hf Hle).
  - intros k Hk.
    destruct (decide (Exists (fun cand => k = key cand) candints)) as [Hex|Hnex].
    { apply Exists_exists in Hex as (cand & Hin & ->). by exists cand. }
    rewrite Hframe in Hk; [by apply is_Some_None in Hk|].
    intros i cand _ Hcand ->. apply Hnex, Exists_exists. exists cand.
    split; [|done]. by eapply list_elem_of_lookup_2.
Qed.

End Image2Proofs.

Local Open Scope R_scope.

Lemma n_std_five : n_std [5; 3; 3; 5] = 1.
Proof.
  unfold n_std. replace (n_mean [5; 3; 3; 5]) with 4 by (unfold n_mean; simpl; lra).
  unfold n_mean. cbn -[pow Rabs Rplus Rminus Rdiv INR].
  rewrite !pow2_abs.
  replace ((5 - 4) ^ 2 + ((3 - 4) ^ 2 + ((3 - 4) ^ 2 + ((5 - 4) ^ 2 + 0)))) with (INR 4)
    by (simpl; lra).
  unfold Rdiv. rewrite Rinv_r; [apply sqrt_1|]. simpl; lra.
Qed.

Lemma extreme_snr_five : extreme_snr [[5; 3]; [3; 5]] = Ok 5.
Proof.
  unfold extreme_snr. cbn -[n_std Rdiv Rabs Rmax Rmin]. rewrite n_std_five.
  replace (Rmax (Rmax (Rmax 5 3) 3) 5) with 5.
  2:{ rewrite (Rmax_left 5 3), (Rmax_left 5 3), Rmax_left by lra. done. }
  replace (Rmin (Rmin (Rmin 5 3) 3) 5) with 3.
  2:{ rewrite (Rmin_right 5 3), (Rmin_left 3 3), Rmin_left by lra. done. }
  rewrite !Rdiv_1_r, (Rabs_pos_eq 3) by lra.
  destruct (Rge_dec 5 3); [done|lra].
Qed.

(** C4 as the specification states it fails: a second image whose
    extreme pixel is exactly [sigma_image2 = 5] standard deviations
    satisfies [|snr2| >= sigma_image2], and [image2] records nothing. *)
Lemma image2_threshold_counterexample :
  extreme_snr (second_stage_five [] [] [] 2 2 100) = Ok 5
  /\ Rabs 5 >= sigma_image2 threshold_state
  /\ image2 first_stage_one second_stage_five threshold_state one_integration 0 1
       [10] [20] [0] 1 0 0 = Ok ∅.
Proof.
  split; [apply extreme_snr_five|]. split.
  - simpl. rewrite Rabs_pos_eq; lra.
  - unfold image2. cbn -[extreme_snr Rgt_dec Rabs Rdiv].
    unfold image2_candidate. cbn -[extreme_snr Rgt_dec Rabs Rdiv].
    unfold second_stage_five. rewrite extreme_snr_five. cbn -[Rgt_dec Rabs].
    destruct (Rgt_dec (Rabs 5) 5) as [Hgt|_]; [|done].
    rewrite Rabs_pos_eq in Hgt; lra.
Qed.

Local Close Scope R_scope.

Lemma image2_threshold_witness :
  exists feat,
    image2 first_stage_one second_stage_five threshold_state one_integration 0 1
      [10%R] [20%R] [0%R] 1 0 0 = Ok feat
    /\ n_std [5; 3; 3; 5]%R <> 0%R
    /\ feat !! (1, 0, 1, 0, 0) = None.
Proof.
  destruct (image2_threshold first_stage_one second_stage_five threshold_state
              one_integration 0 [10%R] [20%R] 1 0 0
              [[[7; 0]; [0; 0]]%R] [7%R] [0] 1%R 1 1) with (i1 := 1) (w := [0%R])
    as (feat & Hrun & Hverdict & _).
  - reflexivity.
  - reflexivity.
  - simpl. lia.
  - lia.
  - reflexivity.
  - lia.
  - reflexivity.
  - reflexivity.
  - repeat constructor; simpl; lia.
  - apply NoDup_singleton.
  - repeat constructor. discriminate.
  - intros integration. discriminate.
  - reflexivity.
  - exists feat. split; [exact Hrun|].
    assert (Hsd : n_std [5; 3; 3; 5]%R <> 0%R) by (rewrite n_std_five; lra).
    split; [exact Hsd|].
    destruct (Hverdict 0%nat 0 eq_refl)
      as (integration & snr1 & im1 & mx & mn & _ & _ & _ & Hmx & Hmn & Hcand).
    pose proof extreme_snr_five as Hfive. unfold extreme_snr in Hfive.
    change (concat (second_stage_five _ _ integration _ _ _)) with [5; 3; 3; 5]%R in *.
    change (concat [[5; 3]; [3; 5]]%R) with [5; 3; 3; 5]%R in Hfive.
    rewrite Hmx, Hmn in Hfive. cbn [bind] in Hfive. injection Hfive as Hfive.
    destruct (Hcand Hsd) as [_ Hnone]. apply Hnone.
    rewrite Hfive. simpl. rewrite Rabs_pos_eq; lra.
Defined.

(** * Further properties *)

(** ** File names of the products *)

Lemma string_length_app (s t : string) :
  String.length (s ++ t) = (String.length s + String.length t)%nat.
Proof. induction s as [|c s IH]; simpl; [done|]. by rewrite IH. Qed.

Lemma string_app_inj_r (t s1 s2 : string) : (s1 ++ t = s2 ++ t)%string -> s1 = s2.
Proof.
  revert s2. induction s1 as [|c s1 IH]; intros [|c2 s2] H; simpl in H.
  - done.
  - apply (f_equal String.length) in H. rewrite !string_length_app in H. simpl in H. lia.
  - apply (f_equal String.length) in H. rewrite !string_length_app in H. simpl in H. lia.
  - injection H as -> H. f_equal. by apply IH.
Qed.

Lemma path_join_inj (a b1 b2 : string) :
  startswith_slash b1 = false -> startswith_slash b2 = false ->
  path_join a b1 = path_join a b2 -> b1 = b2.
Proof.
  unfold path_join. intros -> ->.
  destruct (String.eqb a EmptyString || endswith_slash a); intros H.
  - by apply String.app_inj in H.
  - apply String.app_inj in H. by injection H.
Qed.

(** Distinct segments of a scan have distinct candidate files, and no
    candidate file is the noise file of any segment. *)
Theorem segment_files_distinct (d : state) (seg1 seg2 : Z) (cands1 cands2 noise2 : string) :
  segment d = None -> 0 <= seg1 -> 0 <= seg2 ->
  getcandsfile d seg1 = Ok cands1 -> getcandsfile d seg2 = Ok cands2 ->
  getnoisefile d seg2 = Ok noise2 ->
  (cands1 = cands2 <-> seg1 = seg2) /\ cands1 <> noise2.
Proof.
  intros Hseg H1 H2. unfold getcandsfile, getnoisefile. rewrite Hseg.
  destruct (Z.geb_spec seg1 0) as [_|?]; [|lia].
  destruct (Z.geb_spec seg2 0) as [_|?]; [|lia].
  unfold segment_file.
  destruct (workdir d) as [wd|]; [|done]. destruct (fileroot d) as [fr|]; [|done].
  destruct (scan d) as [sc|]; [|done]. simpl.
  intros [= <-] [= <-] [= <-]. split; [split|].
  - intros H%path_join_inj; [|done..].
    do 5 apply String.app_inj in H.
    apply string_app_inj_r in H. by apply pretty_Z_inj in H.
  - by intros ->.
  - intros H%path_join_inj; [|done..]. discriminate.
Qed.

Lemma segment_files_distinct_witness :
  exists cands1 cands2 noise2,
    getcandsfile lowband_state 0 = Ok cands1 /\ getcandsfile lowband_state 1 = Ok cands2
    /\ getnoisefile lowband_state 1 = Ok noise2
    /\ (cands1 = cands2 <-> 0 = 1) /\ cands1 <> noise2.
Proof.
  eexists _, _, _. split; [reflexivity|]. split; [reflexivity|]. split; [reflexivity|].
  apply (segment_files_distinct lowband_state 0 1); (reflexivity || lia).
Defined.

(** ** The candidates of [search] *)

Section CollectProofs.

Context {V : Type}.

Lemma collect_app (cands : gmap candid V) (l1 l2 : list (gmap candid V)) :
  collect (collect cands l1) l2 = collect cands (l1 ++ l2).
Proof. unfold collect. by rewrite foldl_app. Qed.

Lemma collect_lookup_Some (cands : gmap candid V) (results : list (gmap candid V))
    (kk : candid) (v : V) :
  collect cands results !! kk = Some v ->
  cands !! kk = Some v \/ exists r, r ∈ results /\ r !! kk = Some v.
Proof.
  revert cands. induction results as [|r rest IH]; intros cands H; [by left|].
  simpl in H. apply IH in H as [H|(r' & Hin & H)].
  - apply lookup_union_Some_raw in H as [H|[_ H]].
    + right. exists r. split; [left|done].
    + by left.
  - right. exists r'. split; [by right|done].
Qed.

Lemma collect_lookup_is_Some (cands : gmap candid V) (results : list (gmap candid V))
    (kk : candid) :
  is_Some (cands !! kk) \/ (exists r, r ∈ results /\ is_Some (r !! kk)) ->
  is_Some (collect cands results !! kk).
Proof.
  revert cands. induction results as [|r rest IH]; intros cands H.
  - destruct H as [H|(r & Hin & _)]; [done|]. by apply elem_of_nil in Hin.
  - simpl. apply IH. destruct H as [H|(r' & Hin & H)].
    + left. apply lookup_union_is_Some. by right.
    + apply elem_of_cons in Hin as [->|Hin].
      * left. apply lookup_union_is_Some. by left.
      * right. by exists r'.
Qed.

Variable image1 : state -> Z -> Z -> Z -> Z * Z -> gmap candid V.

(** The results of the imaging jobs of the pairs [pairs], in the order
    in which [search] collects them. *)
Let image_results (d : state) (beamnum : Z) (pairs : list (Z * Z)) : list (gmap candid V) :=
  p ← pairs;
  image1 d (fst p) (snd p) beamnum
    <$> irange d (fst (valid_range d (fst p) (snd p))) (snd (valid_range d (fst p) (snd p))).

Lemma search_pairs_collect (d : state) (beamnum : Z) (pairs : list (Z * Z))
    (acc : list event * gmap candid V) :
  planned d ->
  Forall (fun p => 0 <= fst p < Z.of_nat (length (dmarr d))
                   /\ 0 <= snd p < Z.of_nat (length (dtarr d))) pairs ->
  search_pairs image1 d beamnum acc pairs
  = Ok (fst acc ++ concat (pair_trace d <$> pairs),
        collect (snd acc) (image_results d beamnum pairs)).
Proof.
  intros Hd. revert acc. induction pairs as [|[dmind dtind] rest IH]; intros acc Hall.
  - simpl. rewrite app_nil_r. by destruct acc.
  - apply Forall_cons in Hall as [[Hdm Hdt] Hrest]. simpl in Hdm, Hdt.
    destruct (search_pair_events image1 d beamnum acc dmind dtind Hd Hdm Hdt)
      as (nskip & sints & Hn & Hs & Hpair).
    destruct (valid_range_planned d dmind dtind Hd Hdm Hdt) as (Hn' & Hs' & _).
    rewrite Hn in Hn'. rewrite Hs in Hs'. injection Hn' as Hn'. injection Hs' as Hs'.
    change (image_results d beamnum ((dmind, dtind) :: rest))
      with ((image1 d dmind dtind beamnum
               <$> irange d (fst (valid_range d dmind dtind)) (snd (valid_range d dmind dtind)))
            ++ image_results d beamnum rest).
    rewrite <- collect_app, <- Hn', <- Hs'.
    cbn [search_pairs]. rewrite Hpair. cbn [bind]. rewrite (IH _ Hrest).
    cbn [fst snd]. rewrite <- app_assoc. do 2 f_equal.
    rewrite fmap_cons. cbn [concat]. f_equal.
    unfold pair_trace. cbn [fst snd]. by rewrite <- Hn', <- Hs'.
Qed.

End CollectProofs.

(** When a planned state is searched, the dictionary that [search]
    returns holds exactly the keys found by the imaging jobs of its trace:
    every candidate, with its features, is in the result of a job that was
    submitted, and every key that a submitted job returns is a key of the
    dictionary. *)
Theorem search_collects {V : Type} (path_exists : string -> bool)
    (image1 : state -> Z -> Z -> Z -> Z * Z -> gmap candid V)
    (d : state) (data : list complex) (candsfile : string) :
  planned d -> n_any data = true ->
  getcandsfile d (-1) = Ok candsfile -> savecands d && path_exists candsfile = false ->
  exists tr cands,
    search path_exists image1 d data = Ok (tr, cands)
    /\ (forall kk v, cands !! kk = Some v ->
          exists dmind dtind ir,
            ir ∈ image_jobs tr dmind dtind /\ image1 d dmind dtind 0 ir !! kk = Some v)
    /\ (forall dmind dtind ir kk,
          (dmind, dtind) ∈ trial_pairs d -> ir ∈ image_jobs tr dmind dtind ->
          is_Some (image1 d dmind dtind 0 ir !! kk) -> is_Some (cands !! kk)).
Proof.
  intros Hd Hany Hcf Hex.
  destruct (planned_segment d Hd) as [seg Hseg].
  destruct (last_nonempty (dmarr d) (planned_dmarr d Hd)) as [dml Hdml].
  destruct (last_nonempty (dtarr d) (planned_dtarr d Hd)) as [dtl Hdtl].
  pose proof (planned_nthread d Hd) as Hnt.
  assert (Hpairs : Forall (fun p => 0 <= fst p < Z.of_nat (length (dmarr d))
                     /\ 0 <= snd p < Z.of_nat (length (dtarr d))) (trial_pairs d)).
  { apply Forall_forall. intros [dm dt] Hp. by apply elem_of_trial_pairs in Hp. }
  set (tr := search_prefix d ++ concat (pair_trace d <$> trial_pairs d)
              ++ [Log Info "Found %d cands in scan %d segment %d of %s. "]).
  exists tr. eexists. split.
  { unfold search. rewrite Hseg, Hcf. simpl. rewrite Hex, Hany.
    rewrite (index_last _ _ Hdml), (index_last _ _ Hdtl). simpl.
    destruct (Z.ltb_spec (nthread d) 1); [lia|].
    rewrite (search_pairs_collect image1 d 0 (trial_pairs d) _ Hd Hpairs). simpl.
    apply f_equal. apply (f_equal2 pair); [|reflexivity].
    unfold tr, search_prefix. by rewrite <- !app_assoc. }
  assert (Hjobs : forall dmind dtind,
            (dmind, dtind) ∈ trial_pairs d ->
            image_jobs tr dmind dtind
            = irange d (fst (valid_range d dmind dtind)) (snd (valid_range d dmind dtind))).
  { intros dmind dtind Hp. apply elem_of_trial_pairs in Hp as [Hdm Hdt].
    by destruct (trace_jobs d dmind dtind Hdm Hdt) as [_ <-]. }
  split.
  - intros kk v Hkk. apply collect_lookup_Some in Hkk as [Hkk|(r & Hr & Hkk)]; [done|].
    apply list_elem_of_bind in Hr as ([dmind dtind] & Hr & Hp).
    apply list_elem_of_fmap in Hr as (ir & -> & Hir). simpl in *.
    exists dmind, dtind, ir. split; [|done]. by rewrite (Hjobs dmind dtind Hp).
  - intros dmind dtind ir kk Hp Hir Hkk. rewrite (Hjobs dmind dtind Hp) in Hir.
    apply collect_lookup_is_Some. right. eexists. split; [|exact Hkk].
    apply list_elem_of_bind. exists (dmind, dtind). split; [|done].
    apply list_elem_of_fmap. by exists ir.
Qed.

Lemma n_any_one : n_any [mkComplex 1 0] = true.
Proof.
  unfold n_any, complex_nonzero. simpl.
  destruct (Req_dec_T 1 0) as [H|_]; [lra|done].
Qed.

Lemma search_collects_witness :
  exists tr cands,
    search (V := list R) (fun _ => false)
      (fun _ dmind dtind beamnum ir => {[ (1, fst ir, dmind, dtind, beamnum) := [7%R] ]})
      example_state [mkComplex 1 0] = Ok (tr, cands)
    /\ forall kk v, cands !! kk = Some v -> v = [7%R].
Proof.
  destruct (search_collects (V := list R) (fun _ => false)
              (fun _ dmind dtind beamnum ir => {[ (1, fst ir, dmind, dtind, beamnum) := [7%R] ]})
              example_state [mkComplex 1 0] "/data/cands_obs.sdm_sc7seg1.pkl"
              example_state_planned n_any_one eq_refl eq_refl)
    as (tr & cands & Hrun & Hfrom & _).
  exists tr, cands. split; [exact Hrun|].
  intros kk v Hkk. destruct (Hfrom kk v Hkk) as (dmind & dtind & ir & _ & Hv).
  apply lookup_singleton_Some in Hv as [_ Hv]. by symmetry.
Defined.

(** ** The pixel that [calc_lm] finds *)

Local Open Scope R_scope.

Lemma foldl_Rmax_upper (l : list R) (x : R) : Forall (fun y => y <= foldl Rmax x l) (x :: l).
Proof.
  revert x. induction l as [|y l IH]; intros x; simpl.
  - apply Forall_cons. split; [lra|constructor].
  - specialize (IH (Rmax x y)). apply Forall_cons in IH as [Hm Hl].
    pose proof (Rmax_l x y). pose proof (Rmax_r x y).
    apply Forall_cons. split; [lra|]. apply Forall_cons. split; [lra|done].
Qed.

Lemma foldl_Rmin_lower (l : list R) (x : R) : Forall (fun y => foldl Rmin x l <= y) (x :: l).
Proof.
  revert x. induction l as [|y l IH]; intros x; simpl.
  - apply Forall_cons. split; [lra|constructor].
  - specialize (IH (Rmin x y)). apply Forall_cons in IH as [Hm Hl].
    pose proof (Rmin_l x y). pose proof (Rmin_r x y).
    apply Forall_cons. split; [lra|]. apply Forall_cons. split; [lra|done].
Qed.

Lemma row_where_lookup (v : R) (y j : Z) (row : list R) :
  j ∈ row_where v y row -> exists n : nat, j = (y + Z.of_nat n)%Z /\ row !! n = Some v.
Proof.
  revert y. induction row as [|p rest IH]; intros y Hin; [by apply elem_of_nil in Hin|].
  simpl in Hin. destruct (Req_dec_T p v) as [->|_].
  - apply elem_of_cons in Hin as [->|Hin]; [exists 0%nat; split; [lia|done]|].
    destruct (IH _ Hin) as (n & -> & Hn). exists (S n). split; [lia|done].
  - destruct (IH _ Hin) as (n & -> & Hn). exists (S n). split; [lia|done].
Qed.

Lemma im_where_lookup (v : R) (x : Z) (im : list (list R)) (p : Z * Z) :
  p ∈ im_where v x im ->
  exists (n m : nat) (row : list R),
    p = ((x + Z.of_nat n)%Z, Z.of_nat m) /\ im !! n = Some row /\ row !! m = Some v.
Proof.
  revert x. induction im as [|row rest IH]; intros x Hin; [by apply elem_of_nil in Hin|].
  simpl in Hin. apply elem_of_app in Hin as [Hin|Hin].
  - apply list_elem_of_fmap in Hin as (j & -> & Hj).
    apply row_where_lookup in Hj as (m & -> & Hm).
    exists 0%nat, m, row. split; [|done]. f_equal; lia.
  - destruct (IH _ Hin) as (n & m & row' & -> & Hn & Hm).
    exists (S n), m, row'. split; [|done]. f_equal. lia.
Qed.

Lemma index_first_elem {A : Type} (l : list A) (x : A) : index l 0 = Ok x -> l !! 0%nat = Some x.
Proof. destruct l as [|y l]; [done|]. by intros [= ->]. Qed.

(** On an axis of [N] pixels, pixel [n] lies within half a field of view
    of the phase centre. *)
Lemma pixel_in_field (N n : nat) (uv_res : Z) :
  (n < N)%nat -> (0 < uv_res)%Z ->
  - 1 / (2 * IZR uv_res) < (IZR (Z.of_nat N) / 2 - IZR (Z.of_nat n)) / IZR (Z.of_nat N * uv_res)
  <= 1 / (2 * IZR uv_res).
Proof.
  intros Hn Hres. rewrite mult_IZR, <- !INR_IZR_INZ.
  assert (HN : 0 < INR N) by (apply lt_0_INR; lia).
  assert (Hr : 0 < IZR uv_res) by (apply IZR_lt; lia).
  assert (Hn0 : 0 <= INR n) by apply pos_INR.
  assert (HnN : INR n + 1 <= INR N).
  { rewrite <- S_INR. apply le_INR. lia. }
  assert (Hden : 0 < INR N * IZR uv_res) by (apply Rmult_lt_0_compat; lra).
  split.
  - apply Rmult_lt_reg_r with (r := INR N * IZR uv_res); [done|].
    replace ((INR N / 2 - INR n) / (INR N * IZR uv_res) * (INR N * IZR uv_res))
      with (INR N / 2 - INR n) by (field; lra).
    replace (- 1 / (2 * IZR uv_res) * (INR N * IZR uv_res)) with (- INR N / 2) by (field; lra).
    lra.
  - apply Rmult_le_reg_r with (r := INR N * IZR uv_res); [done|].
    replace ((INR N / 2 - INR n) / (INR N * IZR uv_res) * (INR N * IZR uv_res))
      with (INR N / 2 - INR n) by (field; lra).
    replace (1 / (2 * IZR uv_res) * (INR N * IZR uv_res)) with (INR N / 2) by (field; lra).
    lra.
Qed.

(** With no pixel given, [calc_lm] on an image that is not empty takes a
    pixel that holds the maximum of the image (the minimum for
    [minmax='min']), and the direction it returns lies within half a
    field of view, [1/(2 uvres)], of the phase centre on both axes. *)
Theorem calc_lm_peak (d : state) (im : image) (minmax : string) :
  concat im <> [] -> (0 < uvres d)%Z ->
  Forall (fun row => length row = length (hd [] im)) im ->
  minmax = "max"%string \/ minmax = "min"%string ->
  exists (x y : nat) (row : list R) (peak l1 m1 : R),
    im !! x = Some row /\ row !! y = Some peak
    /\ Forall (fun p => if String.eqb minmax "max" then p <= peak else peak <= p) (concat im)
    /\ calc_lm d im [] minmax = Ok (l1, m1)
    /\ l1 = (IZR (fst (shape im)) / 2 - INR x) / IZR (fst (shape im) * uvres d)
    /\ m1 = (IZR (snd (shape im)) / 2 - INR y) / IZR (snd (shape im) * uvres d)
    /\ - 1 / (2 * IZR (uvres d)) < l1 <= 1 / (2 * IZR (uvres d))
    /\ - 1 / (2 * IZR (uvres d)) < m1 <= 1 / (2 * IZR (uvres d)).
Proof.
  intros Hne Hres Hrect Hmm.
  assert (Hpeak : exists peak p,
            (if String.eqb minmax "max" then n_max (concat im) else n_min (concat im)) = Ok peak
            /\ Forall (fun q => if String.eqb minmax "max" then q <= peak else peak <= q)
                 (concat im)
            /\ index (im_where peak 0 im) 0 = Ok p
            /\ peak_pixel im minmax = Ok (IZR (fst p), IZR (snd p))).
  { destruct Hmm as [-> | ->]; simpl.
    - destruct (n_max_elem _ Hne) as (mx & Hmx & Hin).
      destruct (index_first _ (im_where_nonempty mx 0 im Hin)) as [p Hp].
      exists mx, p. split; [done|]. split.
      + destruct (concat im) as [|q rest]; [done|]. injection Hmx as <-.
        apply foldl_Rmax_upper.
      + split; [done|]. unfold peak_pixel. simpl. rewrite Hmx. simpl. by rewrite Hp.
    - destruct (n_min_elem _ Hne) as (mn & Hmn & Hin).
      destruct (index_first _ (im_where_nonempty mn 0 im Hin)) as [p Hp].
      exists mn, p. split; [done|]. split.
      + destruct (concat im) as [|q rest]; [done|]. injection Hmn as <-.
        apply foldl_Rmin_lower.
      + split; [done|]. unfold peak_pixel. simpl. rewrite Hmn. simpl. by rewrite Hp. }
  destruct Hpeak as (peak & p & _ & Hext & Hidx & Hpix).
  apply index_first_elem in Hidx.
  destruct (im_where_lookup peak 0 im p) as (x & y & row & -> & Hx & Hy).
  { by eapply list_elem_of_lookup_2. }
  pose proof (lookup_lt_Some _ _ _ Hx) as Hxlt.
  pose proof (lookup_lt_Some _ _ _ Hy) as Hylt.
  pose proof (Forall_lookup_1 _ _ _ _ Hrect Hx) as Hrow. simpl in Hrow.
  rewrite Hrow in Hylt.
  exists x, y, row, peak. eexists _, _.
  split; [done|]. split; [done|]. split; [done|].
  unfold calc_lm. rewrite Hpix. cbn [bind fst snd].
  rewrite !Z.add_0_l, <- !INR_IZR_INZ.
  split; [reflexivity|]. split; [reflexivity|]. split; [reflexivity|].
  unfold shape. cbn [fst snd]. rewrite !INR_IZR_INZ.
  split; by apply pixel_in_field.
Qed.

Lemma calc_lm_peak_witness :
  exists l1 m1, calc_lm example_state [[1; 2]; [3; 4]] [] "max" = Ok (l1, m1)
    /\ - 1 / (2 * 100) < l1 <= 1 / (2 * 100).
Proof.
  destruct (calc_lm_peak example_state [[1; 2]; [3; 4]] "max")
    as (x & y & row & peak & l1 & m1 & _ & _ & _ & Hrun & _ & _ & Hl & _).
  - discriminate.
  - simpl. lia.
  - repeat constructor.
  - by left.
  - exists l1, m1. split; [exact Hrun|exact Hl].
Defined.

Local Close Scope R_scope.

(** ** The reordering of the spectral windows keeps every visibility *)

Lemma roll_Permutation {A : Type} (l : list A) (shift : Z) : roll l shift ≡ₚ l.
Proof.
  unfold roll. destruct (Z.of_nat (length l) =? 0); [done|].
  rewrite Permutation_app_comm. by rewrite take_drop.
Qed.

Lemma roll_axis2_Permutation (data : visdata) (shift : Z) :
  Forall2 (Forall2 (≡ₚ)) (roll_axis2 data shift) data.
Proof.
  unfold roll_axis2. apply Forall2_fmap_l, Forall_Forall2_diag, Forall_forall.
  intros integration _. apply Forall2_fmap_l, Forall_Forall2_diag, Forall_forall.
  intros baseline _. apply roll_Permutation.
Qed.

Lemma mapM_Forall2 {A B : Type} (f : A -> result B) (l : list A) (l' : list B) :
  mapM f l = Ok l' -> Forall2 (fun x y => f x = Ok y) l l'.
Proof.
  revert l'. induction l as [|x l IH]; intros l' H; simpl in H.
  - injection H as <-. constructor.
  - destruct (f x) as [y|] eqn:Hx; [|done].
    destruct (mapM f l) as [ys|]; [|done]. injection H as <-.
    constructor; [done|]. by apply IH.
Qed.

Lemma index_Ok {A : Type} (l : list A) (i : Z) (x : A) :
  index l i = Ok x ->
  exists j : nat, l !! j = Some x
    /\ Z.of_nat j = (if i <? 0 then i + Z.of_nat (length l) else i)%Z.
Proof.
  unfold index. intros H.
  set (j := (if i <? 0 then i + Z.of_nat (length l) else i)%Z) in *.
  destruct ((j <? 0)%Z || (Z.of_nat (length l) <=? j)%Z) eqn:E; [done|].
  apply orb_false_iff in E as [E1 E2]. apply Z.ltb_ge in E1.
  destruct (l !! Z.to_nat j) as [y|] eqn:Hy; [|done]. injection H as <-.
  exists (Z.to_nat j). split; [done|lia].
Qed.

Lemma omap_lookup_seqZ {A : Type} (l : list A) :
  omap (fun i : Z => l !! Z.to_nat i) (seqZ 0 (Z.of_nat (length l))) = l.
Proof.
  assert (H : forall n : nat, (n <= length l)%nat ->
            omap (fun i : Z => l !! Z.to_nat i) (seqZ 0 (Z.of_nat n)) = take n l).
  { induction n as [|n IH]; intros Hn; [done|].
    destruct (lookup_lt_is_Some_2 l n) as [x Hx]; [lia|].
    replace (Z.of_nat (S n)) with (Z.of_nat n + 1)%Z by lia.
    rewrite seqZ_app, omap_app, IH by lia.
    rewrite (take_S_r _ _ _ Hx). f_equal.
    change (seqZ (0 + Z.of_nat n) 1) with [(0 + (0 + Z.of_nat n))%Z].
    cbn [omap list_omap]. by rewrite !Z.add_0_l, Nat2Z.id, Hx. }
  rewrite H by lia. apply firstn_all.
Qed.

(** The channels that [take] selects in a baseline whose channels are a
    rearrangement of those read. *)
Lemma take_baseline {A : Type} (raw rolled out : list A) (chans : list Z) :
  rolled ≡ₚ raw -> mapM (index rolled) chans = Ok out ->
  length out = length chans
  /\ Forall (fun c => c ∈ raw) out
  /\ (chans ≡ₚ range (Z.of_nat (length raw)) -> out ≡ₚ raw).
Proof.
  intros Hperm Hout. apply mapM_Forall2 in Hout.
  split; [symmetry; by eapply Forall2_length|]. split.
  - apply Forall_forall. intros c Hc.
    apply list_elem_of_lookup in Hc as [k Hk].
    destruct (Forall2_lookup_r _ _ _ _ _ Hout Hk) as (i & _ & Hi).
    apply index_Ok in Hi as (j & Hj & _). rewrite <- Hperm.
    by eapply list_elem_of_lookup_2.
  - intros Hchans. rewrite <- Hperm.
    assert (Hlen : length rolled = length raw) by by apply Permutation_length.
    rewrite <- Hlen in Hchans.
    assert (Hall : Forall (fun i => 0 <= i < Z.of_nat (length rolled))%Z chans).
    { rewrite Hchans. apply Forall_seqZ. lia. }
    assert (Hmap : out = omap (fun i : Z => rolled !! Z.to_nat i) chans).
    { clear Hchans. induction Hout as [|i c cs outs Hi _ IH]; [done|].
      apply Forall_cons in Hall as [Hi0 Hall]. cbn [omap list_omap].
      apply index_Ok in Hi as (j & Hj & Hji).
      destruct (Z.ltb_spec i 0); [lia|]. subst i. rewrite Nat2Z.id, Hj.
      f_equal. by apply IH. }
    rewrite Hmap, Hchans. unfold range. by rewrite omap_lookup_seqZ.
Qed.

(** Without downsampling, [read_bdf_segment] returns, for every
    integration and baseline that the reader returned, one channel per
    entry of [d['chans']], each of them a channel read for that baseline,
    whatever the order of the spectral windows; when [d['chans']] lists
    every channel once, the channels returned are a rearrangement of the
    channels read: no visibility is dropped or repeated. *)
Theorem read_bdf_segment_keeps_visibilities (read_bdf : string -> Z -> Z -> Z -> visdata)
    (d : state) (segment_arg : Z) (data : visdata) :
  (read_tdownsample d <= 1)%Z -> (read_fdownsample d <= 1)%Z ->
  read_bdf_segment read_bdf d segment_arg = Ok data ->
  exists sc nskip rints,
    scan d = Some sc /\ segment_range d segment_arg = Ok (nskip, rints)
    /\ Forall2 (Forall2 (fun out raw : list (list complex) =>
                           length out = length (chans d)
                           /\ Forall (fun c => c ∈ raw) out
                           /\ (chans d ≡ₚ range (Z.of_nat (length raw)) -> out ≡ₚ raw)))
         data (read_bdf (filename d) sc nskip rints).
Proof.
  intros Ht Hf. rewrite read_bdf_segment_plain by done. intros H.
  destruct (segment_range d segment_arg) as [[nskip rints]|]; [|done].
  destruct (scan d) as [sc|]; [|done]. simpl in H.
  exists sc, nskip, rints. split; [done|]. split; [done|].
  revert H. generalize (read_bdf (filename d) sc nskip rints). intros raw H.
  assert (Hrolled : exists rolled,
            Forall2 (Forall2 (≡ₚ)) rolled raw /\ take_axis2 rolled (chans d) = Ok data).
  { revert H. unfold spw_reorder. destruct (negb _).
    - destruct (_ =? 1)%Z; [|done].
      destruct (index _ 0) as [wrap|]; [|done]. cbn [bind].
      destruct (mapM _ _) as [nchans|]; [|done]. cbn [bind]. intros H.
      eexists. split; [apply roll_axis2_Permutation|exact H].
    - cbn [bind]. intros H. exists raw. split; [|done].
      apply Forall_Forall2_diag, Forall_forall. intros ? _.
      by apply Forall_Forall2_diag, Forall_forall. }
  clear H. destruct Hrolled as (rolled & Hperm & Htake).
  unfold take_axis2 in Htake. apply mapM_Forall2 in Htake.
  revert data Htake. induction Hperm as [|ig_rolled ig_raw rolled raw Hig _ IH];
    intros data Htake.
  - inversion Htake. constructor.
  - inversion Htake as [|? ig_out ? outs Hig_out Hrest]; subst.
    constructor; [|by apply IH].
    apply mapM_Forall2 in Hig_out. clear -Hig Hig_out.
    revert ig_out Hig_out. induction Hig as [|bl_rolled bl_raw ? ? Hbl _ IHb];
      intros ig_out Hig_out.
    + inversion Hig_out. constructor.
    + inversion Hig_out as [|? out ? ? Hout Hrest]; subst.
      constructor; [|by apply IHb]. by eapply take_baseline.
Qed.

Lemma read_bdf_segment_keeps_visibilities_witness :
  Forall2 (Forall2 (≡ₚ))
    [[[observed_at 1; observed_at 2; observed_at 3; observed_at 4]]]
    [[[observed_at 3; observed_at 4; observed_at 1; observed_at 2]]].
Proof.
  destruct (read_bdf_segment_keeps_visibilities
              (fun _ _ _ _ => [[[observed_at 3; observed_at 4; observed_at 1; observed_at 2]]])
              (with_spw example_state [3000000000; 4000000000; 1000000000; 2000000000]%R
                 [1; 1; 1; 1]) 0
              [[[observed_at 1; observed_at 2; observed_at 3; observed_at 4]]])
    as (sc & nskip & rints & _ & _ & H).
  - simpl. lia.
  - simpl. lia.
  - exact read_bdf_segment_symmetric_wrap.
  - apply Forall2_cons_1 in H as [H _]. apply Forall2_cons_1 in H as [(_ & _ & H) _].
    repeat constructor. apply H. reflexivity.
Defined.

(** ** Downsampling in time and in frequency at once *)

Lemma roll_length {A : Type} (l : list A) (shift : Z) : length (roll l shift) = length l.
Proof. apply Permutation_length, roll_Permutation. Qed.

Lemma roll_axis2_shape (data : visdata) (shift : Z) :
  length (roll_axis2 data shift) = length data
  /\ length (hd [] (hd [] (roll_axis2 data shift))) = length (hd [] (hd [] data)).
Proof.
  unfold roll_axis2. rewrite length_fmap. split; [done|].
  destruct data as [|integration rest]; [done|]. cbn [fmap list_fmap hd].
  destruct integration as [|baseline rest']; [done|]. cbn [fmap list_fmap hd].
  apply roll_length.
Qed.

Lemma downsample_both (d : state) (data : visdata) :
  (1 < read_tdownsample d)%Z -> (1 < read_fdownsample d)%Z ->
  (read_tdownsample d <= Z.of_nat (length data))%Z ->
  (2 <= Z.of_nat (length (hd [] (hd [] data))))%Z ->
  downsample d data = Raise ValueError.
Proof.
  intros Ht Hf Hints Hchans. unfold downsample, data_shape.
  set (sh0 := Z.of_nat (length data)) in *.
  set (sh1 := Z.of_nat (length (hd [] data))).
  set (sh2 := Z.of_nat (length (hd [] (hd [] data)))) in *.
  set (sh3 := Z.of_nat (length (hd [] (hd [] (hd [] data))))).
  destruct (Z.ltb_spec 1 (read_tdownsample d)) as [_|?]; [|lia]. cbn [orb].
  unfold py_div.
  destruct (Z.eqb_spec (read_tdownsample d) 0) as [?|_]; [lia|]. cbn [bind].
  destruct (Z.eqb_spec (read_fdownsample d) 0) as [?|_]; [lia|]. cbn [bind].
  assert (Htsize : (1 <= sh0 / read_tdownsample d)%Z).
  { apply Z.div_le_lower_bound; lia. }
  assert (Hfsize : (0 <= sh2 / read_fdownsample d < sh2)%Z).
  { split; [apply Z.div_pos; lia|apply Z.div_lt; lia]. }
  unfold n_zeros.
  destruct (Z.ltb_spec (sh0 / read_tdownsample d) 0) as [?|_]; [lia|].
  destruct (Z.ltb_spec sh1 0) as [?|_]; [lia|].
  destruct (Z.ltb_spec (sh2 / read_fdownsample d) 0) as [?|_]; [lia|].
  destruct (Z.ltb_spec sh3 0) as [?|_]; [lia|]. cbn [orb bind].
  unfold range.
  rewrite (seqZ_cons 0 (sh0 / read_tdownsample d)) by lia. cbn [foldM].
  unfold assign_integration.
  destruct (Z.eqb_spec sh2 (sh2 / read_fdownsample d)) as [?|_]; [lia|].
  destruct (Z.eqb_spec sh2 1) as [?|_]; [lia|]. reflexivity.
Qed.

(** The two downsamplings cannot be asked for together: with
    [read_tdownsample > 1] and [read_fdownsample > 1], on data of at
    least [read_tdownsample] integrations and at least two channels,
    [read_bdf_segment] returns no data.  Once the spectral windows are
    put in order, the first mean over [read_tdownsample] integrations has
    all the channels of the data and does not fit the array of
    [nchan / read_fdownsample] channels it is assigned to, which raises
    [ValueError]. *)
Theorem read_bdf_segment_downsample_both (read_bdf : string -> Z -> Z -> Z -> visdata)
    (d : state) (segment_arg sc nskip rints : Z) :
  (1 < read_tdownsample d)%Z -> (1 < read_fdownsample d)%Z ->
  segment_range d segment_arg = Ok (nskip, rints) -> scan d = Some sc ->
  let raw := read_bdf (filename d) sc nskip rints in
  (read_tdownsample d <= Z.of_nat (length raw))%Z ->
  (2 <= Z.of_nat (length (hd [] (hd [] raw))))%Z ->
  read_bdf_segment read_bdf d segment_arg
  = match spw_reorder d raw with
    | Ok _ => Raise ValueError
    | Raise e => Raise e
    end.
Proof.
  intros Ht Hf Hrange Hscan raw Hints Hchans.
  unfold read_bdf_segment. rewrite Hrange, Hscan. cbn [bind getkey fst snd]. fold raw.
  destruct (spw_reorder d raw) as [data|e] eqn:Hdata; [|done]. cbn [bind].
  assert (Hshape : length data = length raw
                   /\ length (hd [] (hd [] data)) = length (hd [] (hd [] raw))).
  { revert Hdata. unfold spw_reorder. destruct (negb _).
    - destruct (_ =? 1)%Z; [|done].
      destruct (index _ 0) as [wrap|]; [|done]. cbn [bind].
      destruct (mapM _ _) as [nchans|]; [|done]. cbn [bind]. intros [= <-].
      apply roll_axis2_shape.
    - by intros [= <-]. }
  destruct Hshape as [H0 H2].
  rewrite downsample_both by (done || lia). reflexivity.
Qed.

Lemma read_bdf_segment_downsample_both_witness :
  read_bdf_segment
    (fun _ _ _ _ => [[[observed_at 1; observed_at 2]]; [[observed_at 1; observed_at 2]]])
    (with_downsample example_state 2 2) (-1)
  = Raise ValueError.
Proof.
  rewrite (read_bdf_segment_downsample_both _ (with_downsample example_state 2 2) (-1) 7 0 0).
  - unfold spw_reorder. simpl. unfold dfreq. simpl. Rltb_eval. reflexivity.
  - simpl. lia.
  - simpl. lia.
  - reflexivity.
  - reflexivity.
  - simpl. lia.
  - simpl. lia.
Defined.

(** ** The segments of a scan *)

Section SegmentTimesProofs.

Local Open Scope R_scope.

Variable qa_days : R -> R.
Variable d : pipeline_state.

Hypothesis Hseg : (1 <= nsegments d)%Z.

Let overlap : R := t_overlap d / inttime d.
Let step : R := (IZR (nints d) - (IZR (nskip d) + overlap)) / IZR (nsegments d).

(** Start and stop of segment [j], in integrations. *)
Let startdt (j : Z) : R := IZR (nskip d) + overlap + IZR j * step - overlap.
Let stopdt (j : Z) : R := IZR (nskip d) + overlap + IZR (1 + j) * step.

Let mjd (x : R) : R := starttime_mjd d + inttime d * x / (24 * 3600).

Let row (j : Z) : R * R := (qa_days (mjd (startdt j)), qa_days (mjd (stopdt j))).

Lemma linspace_points :
  linspace (IZR (nskip d) + overlap) (IZR (nints d)) (nsegments d + 1)
  = Ok ((fun i => IZR (nskip d) + overlap + IZR i * step) <$> seqZ 0 (nsegments d + 1)).
Proof.
  unfold linspace.
  destruct (Z.ltb_spec (nsegments d + 1) 0); [lia|].
  destruct (Z.eqb_spec (nsegments d + 1) 1); [lia|].
  unfold range, step. by replace (nsegments d + 1 - 1)%Z with (nsegments d) by lia.
Qed.

Lemma segment_rows :
  let points := (fun i => IZR (nskip d) + overlap + IZR i * step) <$> seqZ 0 (nsegments d + 1) in
  let stopdts := drop 1 points in
  let startdts := IZR (nskip d) :: ((fun x => x - overlap) <$> slice stopdts 0 (-1)) in
  zip_with (fun a b =>
              (qa_days (starttime_mjd d + a / (24 * 3600)),
               qa_days (starttime_mjd d + b / (24 * 3600))))
    (Rmult (inttime d) <$> startdts) (Rmult (inttime d) <$> stopdts)
  = row <$> seqZ 0 (nsegments d).
Proof.
  intros points stopdts startdts.
  assert (Hstop : stopdts = (fun j => stopdt j) <$> seqZ 0 (nsegments d)).
  { subst stopdts points. rewrite seqZ_cons by lia. rewrite fmap_cons. simpl drop.
    replace (Z.succ 0) with (1 + 0)%Z by lia.
    replace (Z.pred (nsegments d + 1)) with (nsegments d) by lia.
    rewrite <- fmap_add_seqZ, <- list_fmap_compose. done. }
  assert (Hstart : startdts = (fun j => startdt j) <$> seqZ 0 (nsegments d)).
  { subst startdts. rewrite Hstop. unfold slice. rewrite length_fmap, length_seqZ.
    unfold clip. simpl.
    rewrite Z2Nat.id by lia.
    replace (Z.to_nat (Z.max 0 (-1 + nsegments d) - Z.min 0 (nsegments d)))
      with (Z.to_nat (nsegments d - 1)) by lia.
    replace (Z.to_nat (Z.min 0 (nsegments d))) with 0%nat by lia.
    rewrite drop_0, <- fmap_take, <- list_fmap_compose.
    assert (Htake : take (Z.to_nat (nsegments d - 1)) (seqZ 0 (nsegments d))
                    = seqZ 0 (nsegments d - 1)).
    { replace (seqZ 0 (nsegments d)) with (seqZ 0 ((nsegments d - 1) + 1))
        by (f_equal; lia).
      rewrite seqZ_app by lia. by rewrite take_app_length' by (rewrite length_seqZ; lia). }
    rewrite Htake, (seqZ_cons 0 (nsegments d)) by lia. rewrite fmap_cons. f_equal.
    - unfold startdt. simpl. lra.
    - replace (Z.succ 0) with (1 + 0)%Z by lia.
      replace (Z.pred (nsegments d)) with (nsegments d - 1)%Z by lia.
      rewrite <- fmap_add_seqZ, <- list_fmap_compose.
      apply list_fmap_ext. intros _ j _. simpl. unfold stopdt, startdt. lra. }
  rewrite Hstart, Hstop, <- !list_fmap_compose, zip_with_fmap_l, zip_with_fmap_r, zip_with_diag.
  apply list_fmap_ext. intros _ j _. simpl. unfold row, mjd. done.
Qed.

Lemma calc_segment_times_run :
  exists d',
    calc_segment_times qa_days d = Ok d'
    /\ segmenttimes d' = Some (row <$> seqZ 0 (nsegments d))
    /\ readints d'
       = n_round (24 * 3600 * n_sum_R ((fun r => snd r - fst r) <$> (row <$> seqZ 0 (nsegments d)))
                  / (inttime d * IZR (nsegments d) * IZR (read_tdownsample d)))
    /\ inttime d' = inttime d /\ starttime_mjd d' = starttime_mjd d
    /\ nsegments d' = nsegments d /\ nchunk d' = nchunk d
    /\ featureind d' = featureind d /\ segmenttimesdict d' = segmenttimesdict d.
Proof.
  unfold calc_segment_times. fold overlap. rewrite linspace_points. cbn [bind].
  rewrite segment_rows.
  destruct (row <$> seqZ 0 (nsegments d)) as [|r rest] eqn:E.
  { apply (f_equal length) in E. rewrite length_fmap, length_seqZ in E. simpl in E. lia. }
  eexists. split; [reflexivity|]. simpl. done.
Qed.

End SegmentTimesProofs.

Local Open Scope R_scope.

(** [calc_segment_times] cuts the scan into [nsegments] segments of the
    same length that overlap by [t_overlap]: when the quanta tool gives a
    time back to within [eps] days, the first segment starts at
    integration [nskip], the last one stops at integration [nints], every
    segment starts [t_overlap] seconds before the stop of the one before,
    and every segment lasts [segment_length] integrations. *)
Theorem calc_segment_times_tiling (qa_days : R -> R) (d : pipeline_state) (eps : R) :
  (1 <= nsegments d)%Z -> inttime d <> 0 ->
  (forall t, Rabs (qa_days t - t) <= eps) ->
  let mjd x := starttime_mjd d + inttime d * x / (24 * 3600) in
  exists d' times,
    calc_segment_times qa_days d = Ok d'
    /\ segmenttimes d' = Some times
    /\ Z.of_nat (length times) = nsegments d
    /\ (forall s e, times !! 0%nat = Some (s, e) -> Rabs (s - mjd (IZR (nskip d))) <= eps)
    /\ (forall s e, last times = Some (s, e) -> Rabs (e - mjd (IZR (nints d))) <= eps)
    /\ (forall j s0 e0 s1 e1,
          times !! j = Some (s0, e0) -> times !! S j = Some (s1, e1) ->
          Rabs (s1 - (e0 - t_overlap d / (24 * 3600))) <= 2 * eps)
    /\ (forall j s e,
          times !! j = Some (s, e) ->
          Rabs ((e - s) - inttime d * segment_length d / (24 * 3600)) <= 2 * eps).
Proof.
  intros Hn Hint Hqa mjd.
  destruct (calc_segment_times_run qa_days d Hn) as (d' & Hrun & Htimes & _).
  eexists d', _. split; [exact Hrun|]. split; [exact Htimes|].
  set (ov := t_overlap d / inttime d).
  set (st := (IZR (nints d) - (IZR (nskip d) + ov)) / IZR (nsegments d)).
  assert (HnR : 0 < IZR (nsegments d)) by (apply IZR_lt; lia).
  assert (Hrow : forall (j : nat) s e,
            ((fun j : Z => (qa_days (mjd (IZR (nskip d) + ov + IZR j * st - ov)),
                            qa_days (mjd (IZR (nskip d) + ov + IZR (1 + j) * st))))
               <$> seqZ 0 (nsegments d)) !! j = Some (s, e) ->
            (Z.of_nat j < nsegments d)%Z
            /\ s = qa_days (mjd (IZR (nskip d) + IZR (Z.of_nat j) * st))
            /\ e = qa_days (mjd (IZR (nskip d) + ov + IZR (1 + Z.of_nat j) * st))).
  { intros j s e Hj. rewrite list_lookup_fmap in Hj.
    destruct (seqZ 0 (nsegments d) !! j) as [i|] eqn:Ei; [|done].
    apply lookup_seqZ in Ei as [-> Hlt]. simpl in Hj. injection Hj as <- <-.
    rewrite Z.add_0_l. split; [done|]. split; [|done]. f_equal. f_equal. lra. }
  split; [by rewrite length_fmap, length_seqZ; lia|].
  split; [|split; [|split]].
  - intros s e H0. apply Hrow in H0 as (_ & -> & _). change (Z.of_nat 0) with 0%Z.
    replace (IZR (nskip d) + 0 * st) with (IZR (nskip d)) by lra. apply Hqa.
  - intros s e Hlast. rewrite last_lookup in Hlast.
    rewrite length_fmap, length_seqZ in Hlast.
    apply Hrow in Hlast as (_ & _ & ->).
    replace (Z.of_nat (Init.Nat.pred (Z.to_nat (nsegments d)))) with (nsegments d - 1)%Z by lia.
    replace (IZR (nskip d) + ov + IZR (1 + (nsegments d - 1)) * st) with (IZR (nints d)).
    + apply Hqa.
    + replace (1 + (nsegments d - 1))%Z with (nsegments d) by lia. unfold st. field. lra.
  - intros j s0 e0 s1 e1 H0 H1. apply Hrow in H0 as (_ & _ & ->).
    apply Hrow in H1 as (_ & -> & _).
    match goal with |- Rabs (qa_days ?a - (qa_days ?b - ?c)) <= _ =>
      replace (qa_days a - (qa_days b - c)) with ((qa_days a - a) - (qa_days b - b))
    end.
    + pose proof (Hqa (mjd (IZR (nskip d) + IZR (Z.of_nat (S j)) * st))) as Ha.
      pose proof (Hqa (mjd (IZR (nskip d) + ov + IZR (1 + Z.of_nat j) * st))) as Hb.
      unfold Rminus at 1. eapply Rle_trans; [apply Rabs_triang|].
      rewrite Rabs_Ropp. lra.
    + unfold mjd, ov. replace (Z.of_nat (S j)) with (1 + Z.of_nat j)%Z by lia. field. lra.
  - intros j s e Hj. apply Hrow in Hj as (_ & -> & ->).
    match goal with |- Rabs (qa_days ?a - qa_days ?b - ?c) <= _ =>
      replace (qa_days a - qa_days b - c) with ((qa_days a - a) - (qa_days b - b))
    end.
    + pose proof (Hqa (mjd (IZR (nskip d) + IZR (Z.of_nat j) * st))) as Ha.
      pose proof (Hqa (mjd (IZR (nskip d) + ov + IZR (1 + Z.of_nat j) * st))) as Hb.
      unfold Rminus at 1. eapply Rle_trans; [apply Rabs_triang|].
      rewrite Rabs_Ropp. lra.
    + unfold mjd, segment_length. fold ov. fold st. rewrite plus_IZR. field.
Qed.

Local Close Scope R_scope.

Lemma example_scan_exact (t : R) : (Rabs ((fun x : R => x) t - t) <= 0)%R.
Proof. simpl. rewrite Rminus_diag, Rabs_R0. lra. Qed.

Lemma calc_segment_times_tiling_witness :
  exists d' times,
    calc_segment_times (fun t => t) example_scan = Ok d'
    /\ segmenttimes d' = Some times /\ Z.of_nat (length times) = 4.
Proof.
  destruct (calc_segment_times_tiling (fun t => t) example_scan 0)
    as (d' & times & Hrun & Ht & Hlen & _).
  - simpl. lia.
  - simpl. lra.
  - exact example_scan_exact.
  - exists d', times. split; [exact Hrun|]. split; [exact Ht|exact Hlen].
Defined.

(** ** The integrations read for a segment *)

Local Open Scope R_scope.

Lemma n_sum_R_const {A : Type} (c : R) (l : list A) :
  n_sum_R ((fun _ => c) <$> l) = INR (length l) * c.
Proof.
  induction l as [|x l IH]; [simpl; lra|].
  rewrite fmap_cons. cbn [n_sum_R foldr length]. fold (n_sum_R ((fun _ => c) <$> l)).
  rewrite IH, S_INR. lra.
Qed.

(** Away from the halves, Python's [round] and [numpy.round] agree. *)
Lemma py_round_n_round (x : R) :
  (forall k : Z, x <> IZR k + 1 / 2) -> py_round x = n_round x.
Proof.
  intros Hhalf. unfold py_round, n_round, Rfloor.
  destruct (base_Int_part x) as [Hlo Hhi].
  specialize (Hhalf (Int_part x)).
  destruct (Rlt_dec (x - IZR (Int_part x)) (1 / 2)) as [Hr|Hr].
  - destruct (Rle_dec 0 x).
    + symmetry. apply Int_part_spec. lra.
    + assert (H : (- Int_part x)%Z = Int_part (- x + 1 / 2)).
      { apply Int_part_spec. rewrite opp_IZR. lra. }
      rewrite <- H. lia.
  - destruct (Rlt_dec (1 / 2) (x - IZR (Int_part x))) as [Hr'|Hr']; [|lra].
    destruct (Rle_dec 0 x).
    + symmetry. apply Int_part_spec. rewrite plus_IZR. lra.
    + assert (H : (- Int_part x - 1)%Z = Int_part (- x + 1 / 2)).
      { apply Int_part_spec. rewrite minus_IZR, opp_IZR. lra. }
      rewrite <- H. lia.
Qed.

(** When the quanta tool gives every time back exactly, the data are
    not downsampled in time, and the length of a segment in integrations
    is not half-way between two integers, [read_bdf_segment] asks the
    reader for [d['readints']] integrations for every segment of the plan
    of [calc_segment_times], from the integration nearest to the start of
    the segment. *)
Theorem segment_range_reads_readints (qa_days : R -> R) (d : pipeline_state) (seg : Z) :
  (1 <= nsegments d)%Z -> inttime d <> 0 -> read_tdownsample d = 1%Z ->
  (forall t, qa_days t = t) ->
  (forall k : Z, segment_length d <> IZR k + 1 / 2) ->
  (0 <= seg < nsegments d)%Z ->
  exists d',
    calc_segment_times qa_days d = Ok d'
    /\ segment_range d' seg
       = Ok (n_round (IZR (nskip d)
                      + IZR seg * (segment_length d - t_overlap d / inttime d)),
             readints d').
Proof.
  intros Hn Hint Htds Hqa Hhalf Hseg.
  destruct (calc_segment_times_run qa_days d Hn)
    as (d' & Hrun & Htimes & Hrints & Hit & Hmjd & _).
  exists d'. split; [exact Hrun|].
  set (ov := t_overlap d / inttime d) in *.
  set (st := (IZR (nints d) - (IZR (nskip d) + ov)) / IZR (nsegments d)) in *.
  assert (HnR : 0 < IZR (nsegments d)) by (apply IZR_lt; lia).
  assert (HL : segment_length d = st + ov) by done.
  set (rowf := fun j : Z =>
         (qa_days (starttime_mjd d
                   + inttime d * (IZR (nskip d) + ov + IZR j * st - ov) / (24 * 3600)),
          qa_days (starttime_mjd d
                   + inttime d * (IZR (nskip d) + ov + IZR (1 + j) * st) / (24 * 3600)))) in *.
  assert (Hlook : forall j, (0 <= j < nsegments d)%Z ->
            index (rowf <$> seqZ 0 (nsegments d)) j = Ok (rowf j)).
  { intros j Hj. apply index_lookup; [lia|].
    rewrite list_lookup_fmap, lookup_seqZ_lt by lia. simpl. do 2 f_equal. lia. }
  assert (Hdur : forall j, snd (rowf j) - fst (rowf j) = inttime d * (st + ov) / (24 * 3600)).
  { intros j. unfold rowf. cbn [fst snd]. rewrite !Hqa, plus_IZR. field. }
  unfold segment_range.
  destruct (Z.eqb_spec seg (-1)); [lia|]. cbn [negb].
  rewrite Htimes, (Hlook 0%Z) by lia. cbn [bind]. rewrite (Hlook seg) by lia. cbn [bind].
  rewrite Hit, Hmjd. do 2 f_equal.
  - f_equal. unfold rowf. cbn [fst]. rewrite Hqa, HL. field. lra.
  - rewrite Hrints, Htds, Hdur, (py_round_n_round _). 
    + f_equal. rewrite <- list_fmap_compose.
      erewrite (list_fmap_ext _ (fun _ => inttime d * (st + ov) / (24 * 3600)));
        [|intros _ j _; apply Hdur].
      rewrite n_sum_R_const, length_seqZ, INR_IZR_INZ, Z2Nat.id by lia. field. lra.
    + intros k. replace (24 * 3600 * (inttime d * (st + ov) / (24 * 3600)) / inttime d)
        with (st + ov) by (field; lra).
      rewrite <- HL. apply Hhalf.
Qed.

Lemma segment_range_reads_readints_witness :
  exists d',
    calc_segment_times (fun t => t) example_scan = Ok d'
    /\ exists nskip', segment_range d' 2 = Ok (nskip', readints d').
Proof.
  destruct (segment_range_reads_readints (fun t => t) example_scan 2) as (d' & Hrun & Hr).
  - simpl. lia.
  - simpl. lra.
  - reflexivity.
  - reflexivity.
  - intros k. unfold segment_length. simpl.
    replace ((1000 - (0 + 1 / 10 / (5 / 1000))) / 4 + 1 / 10 / (5 / 1000)) with 265 by lra.
    intros H.
    assert (H2 : IZR (2 * 265) = IZR (2 * k + 1)).
    { rewrite plus_IZR, !mult_IZR. lra. }
    apply eq_IZR in H2. lia.
  - simpl. lia.
  - exists d'. split; [exact Hrun|]. eexists. exact Hr.
Defined.

Local Close Scope R_scope.

(** ** The memory budget *)

Local Open Scope R_scope.

Lemma nchunk_iter_double (k : nat) (d : pipeline_state) :
  nchunk (Nat.iter k double_nchunk d) = (2 ^ Z.of_nat k * nchunk d)%Z.
Proof.
  induction k as [|k IH]; [simpl; lia|].
  rewrite Nat.iter_succ. change (nchunk (double_nchunk ?e)) with (2 * nchunk e)%Z.
  rewrite IH, Nat2Z.inj_succ, Z.pow_succ_r by lia. lia.
Qed.

Lemma footprint_iter_double (k : nat) (d : pipeline_state) :
  calc_memory_footprint (Nat.iter k double_nchunk d) 4 false
  = (4 * IZR (datasize d) * toGB,
     IZR (nthread d * (readints d / (2 ^ Z.of_nat k * nchunk d) * npixx d * npixy d)) * toGB).
Proof.
  unfold calc_memory_footprint. rewrite nchunk_iter_double.
  assert (Hsame : (nthread (Nat.iter k double_nchunk d), readints (Nat.iter k double_nchunk d),
                   npixx (Nat.iter k double_nchunk d), npixy (Nat.iter k double_nchunk d),
                   datasize (Nat.iter k double_nchunk d))
                  = (nthread d, readints d, npixx d, npixy d, datasize d)).
  { induction k as [|k IHk]; [done|]. rewrite Nat.iter_succ. exact IHk. }
  injection Hsame as -> -> -> -> ->. done.
Qed.

Lemma fit_nchunk_fits (limit : R) (d : pipeline_state) (fuel : nat) :
  fits limit d -> fit_nchunk fuel limit d = Some d.
Proof.
  unfold fits. intros H. destruct fuel; cbn [fit_nchunk]; by destruct (Rgt_dec _ _); [lra|].
Qed.

Lemma fit_nchunk_step (limit : R) (d : pipeline_state) (fuel : nat) :
  ~ fits limit d -> fit_nchunk (S fuel) limit d = fit_nchunk fuel limit (double_nchunk d).
Proof.
  unfold fits. intros H. cbn [fit_nchunk]. by destruct (Rgt_dec _ _); [|lra].
Qed.

Lemma fit_nchunk_least (limit : R) (n : nat) :
  forall (d : pipeline_state) (fuel : nat),
    (n <= fuel)%nat -> fits limit (Nat.iter n double_nchunk d) ->
    exists k : nat,
      (k <= n)%nat
      /\ fit_nchunk fuel limit d = Some (Nat.iter k double_nchunk d)
      /\ fits limit (Nat.iter k double_nchunk d)
      /\ forall j : nat, (j < k)%nat -> ~ fits limit (Nat.iter j double_nchunk d).
Proof.
  induction n as [|n IH]; intros d fuel Hfuel Hfit.
  - exists 0%nat. split; [lia|]. split; [by apply fit_nchunk_fits|split; [done|lia]].
  - destruct (Rle_dec (fst (calc_memory_footprint d 4 false)
                       + snd (calc_memory_footprint d 4 false)) limit) as [Hnow|Hnot].
    + exists 0%nat. split; [lia|]. split; [by apply fit_nchunk_fits|split; [done|lia]].
    + destruct fuel as [|fuel]; [lia|].
      rewrite Nat.iter_succ_r in Hfit.
      destruct (IH (double_nchunk d) fuel ltac:(lia) Hfit) as (k & Hk & Hrun & Hfits & Hleast).
      exists (S k). split; [lia|]. rewrite !Nat.iter_succ_r. split; [|split; [done|]].
      * by rewrite fit_nchunk_step.
      * intros [|j] Hj; [exact Hnot|]. rewrite Nat.iter_succ_r. apply Hleast. lia.
Qed.

(** With a memory limit, the last step of [set_pipeline] ends: it fails
    the assertion when the visibilities alone do not fit, and otherwise
    doubles [nchunk] the least number of times after which visibilities
    and images fit, changing nothing else. *)
Theorem fit_memory_terminates (d : pipeline_state) (limit : R) :
  memory_limit d = Some limit -> (1 <= nchunk d)%Z -> (0 <= readints d)%Z ->
  let vismem := fst (calc_memory_footprint d 4 false) in
  exists n : nat, forall fuel : nat, (n <= fuel)%nat ->
    (limit <= vismem /\ fit_memory fuel d = Some (Raise AssertionError))
    \/ (vismem < limit
        /\ exists k : nat,
            fit_memory fuel d = Some (Ok (Nat.iter k double_nchunk d))
            /\ nchunk (Nat.iter k double_nchunk d) = (2 ^ Z.of_nat k * nchunk d)%Z
            /\ fits limit (Nat.iter k double_nchunk d)
            /\ forall j : nat, (j < k)%nat -> ~ fits limit (Nat.iter j double_nchunk d)).
Proof.
  intros Hlimit Hchunk Hrints vismem.
  exists (Z.to_nat (readints d)). intros fuel Hfuel.
  unfold fit_memory. rewrite Hlimit. fold vismem.
  destruct (Rlt_dec vismem limit) as [Hvis|Hvis]; [right|left; split; [lra|done]].
  split; [done|].
  assert (Hzero : fits limit (Nat.iter (Z.to_nat (readints d)) double_nchunk d)).
  { unfold fits. rewrite footprint_iter_double. cbn [fst snd].
    rewrite Z2Nat.id by lia.
    assert (Hpow : (readints d < 2 ^ readints d)%Z) by (apply Z.pow_gt_lin_r; lia).
    rewrite Z.div_small by nia.
    replace (nthread d * (0 * npixx d * npixy d))%Z with 0%Z by lia.
    subst vismem. simpl in Hvis. lra. }
  destruct (fit_nchunk_least limit _ d fuel Hfuel Hzero) as (k & _ & Hrun & Hfits & Hleast).
  exists k. split; [|split; [apply nchunk_iter_double|done]].
  destruct (Rgt_dec _ _) as [_|Hle]; [by rewrite Hrun|].
  destruct k as [|k]; [done|]. destruct (Hleast 0%nat); [lia|].
  change (fits limit d). unfold fits. fold vismem. lra.
Qed.

Lemma fit_memory_terminates_witness :
  exists n : nat, forall fuel : nat, (n <= fuel)%nat ->
    exists r, fit_memory fuel example_scan = Some r.
Proof.
  destruct (fit_memory_terminates example_scan 1) as (n & Hn).
  - reflexivity.
  - simpl. lia.
  - simpl. lia.
  - exists n. intros fuel Hfuel.
    destruct (Hn fuel Hfuel) as [[_ H]|(_ & k & H & _)]; eexists; exact H.
Defined.

Local Close Scope R_scope.

(** ** The size of the full image *)

Lemma foldl_Zmin_elem (l : list Z) (x : Z) : foldl Z.min x l ∈ x :: l.
Proof.
  revert x. induction l as [|y l IH]; intros x; simpl; [left|].
  specialize (IH (Z.min x y)). apply elem_of_cons in IH as [->|IH].
  - destruct (Z.min_spec x y) as [[_ ->]|[_ ->]]; [left|right; left].
  - by do 2 right.
Qed.

Lemma foldl_Zmin_lower (l : list Z) (x : Z) : Forall (fun y => foldl Z.min x l <= y) (x :: l).
Proof.
  revert x. induction l as [|y l IH]; intros x; simpl.
  - apply Forall_cons. split; [lia|constructor].
  - specialize (IH (Z.min x y)). apply Forall_cons in IH as [Hm Hl].
    apply Forall_cons. split; [lia|]. apply Forall_cons. split; [lia|done].
Qed.

Lemma row_where_Z_lookup (v y j : Z) (row : list Z) :
  j ∈ row_where_Z v y row -> exists n : nat, j = y + Z.of_nat n /\ row !! n = Some v.
Proof.
  revert y. induction row as [|p rest IH]; intros y Hin; [by apply elem_of_nil in Hin|].
  simpl in Hin. destruct (Z.eqb_spec p v) as [->|_].
  - apply elem_of_cons in Hin as [->|Hin]; [exists 0%nat; split; [lia|done]|].
    destruct (IH _ Hin) as (n & -> & Hn). exists (S n). split; [lia|done].
  - destruct (IH _ Hin) as (n & -> & Hn). exists (S n). split; [lia|done].
Qed.

Lemma where_Z_lookup (v x : Z) (a : list (list Z)) (p : Z * Z) :
  p ∈ where_Z v x a ->
  exists (n m : nat) (row : list Z),
    p = (x + Z.of_nat n, Z.of_nat m) /\ a !! n = Some row /\ row !! m = Some v.
Proof.
  revert x. induction a as [|row rest IH]; intros x Hin; [by apply elem_of_nil in Hin|].
  simpl in Hin. apply elem_of_app in Hin as [Hin|Hin].
  - apply list_elem_of_fmap in Hin as (j & -> & Hj).
    apply row_where_Z_lookup in Hj as (m & -> & Hm).
    exists 0%nat, m, row. split; [|done]. f_equal; lia.
  - destruct (IH _ Hin) as (n & m & row' & -> & Hn & Hm).
    exists (S n), m, row'. split; [|done]. f_equal. lia.
Qed.

Lemma row_where_Z_nonempty (v y : Z) (row : list Z) : v ∈ row -> row_where_Z v y row <> [].
Proof.
  revert y. induction row as [|p rest IH]; intros y Hin; [by apply elem_of_nil in Hin|].
  simpl. destruct (Z.eqb_spec p v) as [|Hne]; [done|].
  apply elem_of_cons in Hin as [->|Hin]; [done|]. by apply IH.
Qed.

Lemma where_Z_nonempty (v x : Z) (a : list (list Z)) : v ∈ concat a -> where_Z v x a <> [].
Proof.
  revert x. induction a as [|row rest IH]; intros x Hin; [by apply elem_of_nil in Hin|].
  simpl in *. apply elem_of_app in Hin as [Hin|Hin].
  - pose proof (row_where_Z_nonempty v 0 row Hin) as Hne.
    by destruct (row_where_Z v 0 row).
  - specialize (IH (x + 1) Hin).
    by destruct (_ <$> row_where_Z v 0 row), (where_Z v (x + 1) rest).
Qed.

Lemma powers_lookup (i j : nat) (row : list Z) (p : Z) :
  powers !! i = Some row -> row !! j = Some p ->
  p = 2 ^ Z.of_nat i * 3 ^ Z.of_nat j /\ (i < 14)%nat /\ (j < 10)%nat.
Proof.
  unfold powers, range. rewrite list_lookup_fmap. intros Hi Hj.
  destruct (seqZ 0 14 !! i) as [i'|] eqn:Ei; [|done].
  apply lookup_seqZ in Ei as [-> Hilt]. apply (inj Some) in Hi. subst row.
  rewrite list_lookup_fmap in Hj.
  destruct (seqZ 0 10 !! j) as [j'|] eqn:Ej; [|done].
  apply lookup_seqZ in Ej as [-> Hjlt]. injection Hj as <-.
  rewrite !Z.add_0_l. split; [done|lia].
Qed.

Lemma elem_of_powers (p : Z) :
  p ∈ concat powers
  <-> exists i j : nat, (i < 14)%nat /\ (j < 10)%nat /\ p = 2 ^ Z.of_nat i * 3 ^ Z.of_nat j.
Proof.
  rewrite list_elem_of_In, in_concat. split.
  - intros (row & Hrow & Hp). apply list_elem_of_In, list_elem_of_lookup in Hrow as [i Hi].
    apply list_elem_of_In, list_elem_of_lookup in Hp as [j Hj].
    destruct (powers_lookup i j row p Hi Hj) as (-> & ? & ?). by exists i, j.
  - intros (i & j & Hi & Hj & ->).
    exists ((fun j => 2 ^ Z.of_nat i * 3 ^ j) <$> range 10). split.
    + apply list_elem_of_In. unfold powers. apply list_elem_of_fmap.
      exists (Z.of_nat i). split; [done|]. apply elem_of_seqZ. lia.
    + apply list_elem_of_In, list_elem_of_fmap. exists (Z.of_nat j). split; [done|].
      apply elem_of_seqZ. lia.
Qed.

(** [full_npix] returns the least [2^i 3^j], with [i < 14] and [j < 10],
    above [rangex/uvres] as long as that quotient is below
    [2^12 3^9 = 80621568]; from there on every entry of [largerx] is the
    largest power and the first position found is [(0, 0)], so that it
    returns 1. *)
Theorem full_npix_least (rangex uv_res : Z) :
  let q := rangex / uv_res in
  (q < 2 ^ 12 * 3 ^ 9 ->
   exists n, full_npix rangex uv_res = Ok n
     /\ n ∈ concat powers /\ q < n
     /\ forall p, p ∈ concat powers -> q < p -> n <= p)
  /\ (2 ^ 12 * 3 ^ 9 <= q -> full_npix rangex uv_res = Ok 1).
Proof.
  intros q. unfold full_npix.
  change (index powers (-1)) with (Ok ((fun j => 2 ^ 13 * 3 ^ j) <$> range 10)).
  cbn [bind].
  change (index ((fun j => 2 ^ 13 * 3 ^ j) <$> range 10) (-1)) with (Ok (2 ^ 13 * 3 ^ 9)).
  cbn [bind]. fold q.
  set (largest := 2 ^ 13 * 3 ^ 9).
  set (pick := fun p => if p - q >? 0 then p else largest).
  set (largerx := (fun row : list Z => pick <$> row) <$> powers).
  split.
  - intros Hq.
    assert (Hconcat : concat largerx = pick <$> concat powers).
    { subst largerx. generalize powers. intros a.
      induction a as [|row a IH]; [done|]. rewrite fmap_cons. cbn [concat].
      by rewrite fmap_app, IH. }
    assert (Hmin : exists m, n_min_Z (concat largerx) = Ok m /\ m ∈ concat largerx
                     /\ Forall (fun x => m <= x) (concat largerx)).
    { assert (Hne : concat powers <> []) by (clear; vm_compute; discriminate).
      rewrite Hconcat. destruct (concat powers) as [|x rest]; [done|]. rewrite fmap_cons.
      eexists. split; [reflexivity|].
      split; [apply foldl_Zmin_elem|apply foldl_Zmin_lower]. }
    destruct Hmin as (m & -> & Hin & Hlow). cbn [bind].
    destruct (index_first _ (where_Z_nonempty m 0 largerx Hin)) as [[i0 j0] Hfirst].
    assert (Hfound : (i0, j0) ∈ where_Z m 0 largerx).
    { destruct (where_Z m 0 largerx) as [|x l]; [done|]. injection Hfirst as ->. left. }
    assert (Hfst : index (fst <$> where_Z m 0 largerx) 0 = Ok i0).
    { destruct (where_Z m 0 largerx) as [|x l]; [done|]. by injection Hfirst as ->. }
    assert (Hsnd : index (snd <$> where_Z m 0 largerx) 0 = Ok j0).
    { destruct (where_Z m 0 largerx) as [|x l]; [done|]. by injection Hfirst as ->. }
    rewrite Hfst, Hsnd. cbn [bind].
    apply where_Z_lookup in Hfound as (i & j & row & [= -> ->] & Hrow & Hm).
    subst largerx. rewrite list_lookup_fmap in Hrow.
    destruct (powers !! i) as [prow|] eqn:Ei; [|done]. injection Hrow as <-.
    rewrite list_lookup_fmap in Hm.
    destruct (prow !! j) as [p|] eqn:Ej; [|done]. injection Hm as Hm.
    destruct (powers_lookup i j prow p Ei Ej) as (Hp & Hi & Hj).
    rewrite Z.add_0_l, <- Hp.
    assert (Hall : forall x, x ∈ concat powers -> m <= pick x).
    { intros x Hx. rewrite Hconcat in Hlow.
      apply (proj1 (Forall_forall _ _) Hlow). apply list_elem_of_fmap. by exists x. }
    assert (Hsecond : m <= 2 ^ 12 * 3 ^ 9).
    { specialize (Hall (2 ^ 12 * 3 ^ 9)). unfold pick in Hall.
      destruct (Z.gtb_spec (2 ^ 12 * 3 ^ 9 - q) 0); [|lia].
      apply Hall. apply elem_of_powers. exists 12%nat, 9%nat.
      split; [lia|]. split; [lia|reflexivity]. }
    unfold pick in Hm. destruct (Z.gtb_spec (p - q) 0) as [Hgt|]; [|subst largest; lia].
    subst m. exists p. split; [done|]. split; [|split; [lia|]].
    + apply elem_of_powers. by exists i, j.
    + intros x Hx Hqx. specialize (Hall x Hx). unfold pick in Hall.
      destruct (Z.gtb_spec (x - q) 0); lia.
  - intros Hq.
    assert (Hbelow : forallb (fun x => (x <=? 2 ^ 12 * 3 ^ 9) || (x =? largest)) (concat powers)
                     = true) by (by vm_compute).
    assert (Hlargest : largerx = (fun row : list Z => (fun _ => largest) <$> row) <$> powers).
    { subst largerx. apply list_fmap_ext. intros i row Hi.
      apply list_fmap_ext. intros j x Hj. unfold pick.
      destruct (Z.gtb_spec (x - q) 0) as [Hgt|]; [|done].
      assert (Hx : x ∈ concat powers).
      { apply list_elem_of_In, in_concat. exists row.
        split; apply list_elem_of_In; by eapply list_elem_of_lookup_2. }
      apply list_elem_of_In in Hx.
      pose proof (proj1 (forallb_forall _ _) Hbelow x Hx) as Hx'. simpl in Hx'.
      apply orb_true_iff in Hx' as [Hx'|Hx']; lia. }
    rewrite Hlargest. by vm_compute.
Qed.

Lemma full_npix_least_witness :
  exists n, full_npix 100 3 = Ok n /\ (33 < n)%Z /\ full_npix (2 ^ 12 * 3 ^ 9) 1 = Ok 1%Z.
Proof.
  destruct (full_npix_least 100 3) as [Hbelow _].
  destruct Hbelow as (n & Hn & _ & Hq & _); [reflexivity|].
  exists n. split; [exact Hn|]. split; [exact Hq|].
  apply (full_npix_least (2 ^ 12 * 3 ^ 9) 1). discriminate.
Defined.

(** ** The baselines of an array *)

Lemma blarr_row (ants : list Z) (j : Z) :
  (i ← seqZ 0 j; [(ants !!! Z.to_nat i, ants !!! Z.to_nat j)])
  = (fun i => (ants !!! Z.to_nat i, ants !!! Z.to_nat j)) <$> seqZ 0 j.
Proof. induction (seqZ 0 j) as [|i l IH]; [done|]. csimpl. by rewrite IH. Qed.

Lemma elem_of_blarr (ants : list Z) (a b : Z) :
  (a, b) ∈ blarr ants
  <-> exists i j : nat, (i < j)%nat /\ ants !! i = Some a /\ ants !! j = Some b.
Proof.
  unfold blarr, range. rewrite list_elem_of_bind. split.
  - intros (j & Hp & Hj). rewrite blarr_row in Hp.
    apply list_elem_of_fmap in Hp as (i & [= -> ->] & Hi).
    apply elem_of_seqZ in Hj, Hi.
    exists (Z.to_nat i), (Z.to_nat j). split; [lia|].
    split; apply list_lookup_lookup_total_lt; lia.
  - intros (i & j & Hij & Hi & Hj).
    pose proof (lookup_lt_Some _ _ _ Hj) as Hlt.
    exists (Z.of_nat j). split; [|apply elem_of_seqZ; lia].
    rewrite blarr_row. apply list_elem_of_fmap. exists (Z.of_nat i).
    split; [|apply elem_of_seqZ; lia].
    rewrite !Nat2Z.id. by rewrite (list_lookup_total_correct _ _ _ Hi),
      (list_lookup_total_correct _ _ _ Hj).
Qed.

Lemma blarr_length (ants : list Z) (n : nat) :
  2 * Z.of_nat (length (seqZ 0 (Z.of_nat n)
                          ≫= fun j => i ← seqZ 0 j;
                                      [(ants !!! Z.to_nat i, ants !!! Z.to_nat j)]))
  = Z.of_nat n * (Z.of_nat n - 1).
Proof.
  induction n as [|n IH]; [done|].
  rewrite seqZ_S, bind_app, length_app, Nat2Z.inj_add. csimpl.
  rewrite app_nil_r, blarr_row, length_fmap, length_seqZ. lia.
Qed.

(** [d['blarr']] lists, for antennas that are all different, every pair
    of antennas exactly once, the antenna that comes first in [ants]
    first: there are [nants (nants - 1) / 2] baselines, none of an antenna
    with itself and none in both orders. *)
Theorem blarr_pairs (ants : list Z) :
  NoDup ants ->
  let nants := Z.of_nat (length ants) in
  Z.of_nat (length (blarr ants)) = nants * (nants - 1) / 2
  /\ NoDup (blarr ants)
  /\ (forall a b, (a, b) ∈ blarr ants
        <-> exists i j : nat, (i < j)%nat /\ ants !! i = Some a /\ ants !! j = Some b)
  /\ (forall a b, (a, b) ∈ blarr ants -> a <> b /\ (b, a) ∉ blarr ants).
Proof.
  intros Hnd nants. split; [|split; [|split]].
  - pose proof (blarr_length ants (length ants)) as H. fold nants in H.
    unfold blarr, range. fold nants. rewrite <- H, Z.mul_comm, Z.div_mul; lia.
  - unfold blarr, range. apply NoDup_bind; [| |apply NoDup_seqZ].
    + intros j1 j2 [a b] Hj1 Hj2 H1 H2. rewrite blarr_row in H1, H2.
      apply list_elem_of_fmap in H1 as (i1 & [= -> ->] & _).
      apply list_elem_of_fmap in H2 as (i2 & [= _ Hb] & _).
      apply elem_of_seqZ in Hj1, Hj2.
      assert (Z.to_nat j1 = Z.to_nat j2); [|lia].
      eapply NoDup_lookup; [exact Hnd| |].
      * apply list_lookup_lookup_total_lt. lia.
      * rewrite Hb. apply list_lookup_lookup_total_lt. lia.
    + intros j Hj. rewrite blarr_row. apply elem_of_seqZ in Hj.
      apply NoDup_fmap_2_strong; [|apply NoDup_seqZ].
      intros i1 i2 Hi1 Hi2 [= Ha]. apply elem_of_seqZ in Hi1, Hi2.
      assert (Z.to_nat i1 = Z.to_nat i2); [|lia].
      eapply NoDup_lookup; [exact Hnd| |].
      * apply list_lookup_lookup_total_lt. lia.
      * rewrite Ha. apply list_lookup_lookup_total_lt. lia.
  - apply elem_of_blarr.
  - intros a b Hab. apply elem_of_blarr in Hab as (i & j & Hij & Hi & Hj). split.
    + intros ->. pose proof (NoDup_lookup _ _ _ _ Hnd Hi Hj). lia.
    + intros Hba. apply elem_of_blarr in Hba as (i' & j' & Hij' & Hi' & Hj').
      pose proof (NoDup_lookup _ _ _ _ Hnd Hi Hj').
      pose proof (NoDup_lookup _ _ _ _ Hnd Hj Hi'). lia.
Qed.

Lemma blarr_pairs_witness :
  Z.of_nat (length (blarr [1; 2; 5; 7])) = 6 /\ NoDup (blarr [1; 2; 5; 7]).
Proof.
  destruct (blarr_pairs [1; 2; 5; 7]) as (Hlen & Hnd & _).
  - apply (bool_decide_unpack _). vm_compute. exact I.
  - split; [exact Hlen|exact Hnd].
Defined.

(** ** Time per source *)

Lemma find_source_absent (src : string) (durations : list (string * R)) (s : nat)
    (found : option nat) :
  src ∉ durations.*1 -> find_source src durations s found = found.
Proof.
  revert s found. induction durations as [|[name t] rest IH]; intros s found Hnot; [done|].
  simpl in *. apply not_elem_of_cons in Hnot as [Hne Hrest].
  destruct (String.eqb_spec src name) as [->|_]; [done|]. by apply IH.
Qed.

Lemma find_source_present (src : string) (durations : list (string * R)) (s : nat)
    (found : option nat) (i : nat) (t : R) :
  NoDup durations.*1 -> durations !! i = Some (src, t) ->
  find_source src durations s found = Some (s + i)%nat.
Proof.
  revert s found i. induction durations as [|[name t'] rest IH]; intros s found i Hnd Hi;
    [done|].
  simpl in Hnd. apply NoDup_cons in Hnd as [Hnotin Hnd]. destruct i as [|i]; simpl in *.
  - injection Hi as -> ->. rewrite String.eqb_refl, Nat.add_0_r.
    by apply find_source_absent.
  - destruct (String.eqb_spec src name) as [->|_].
    + destruct Hnotin. apply list_elem_of_fmap. exists (name, t). split; [done|].
      by eapply list_elem_of_lookup_2.
    + rewrite (IH (S s) found i Hnd Hi). f_equal. lia.
Qed.

Lemma find_source_found (src : string) (durations : list (string * R)) (s k : nat)
    (found : option nat) :
  find_source src durations s found = Some k ->
  found = Some k \/ exists i t, k = (s + i)%nat /\ durations !! i = Some (src, t).
Proof.
  revert s found. induction durations as [|[name t] rest IH]; intros s found H; [by left|].
  simpl in H. apply IH in H as [H|(i & t' & -> & Hi)].
  - destruct (String.eqb_spec src name) as [->|_]; [|by left].
    injection H as <-. right. exists 0%nat, t. split; [lia|done].
  - right. exists (S i), t'. split; [lia|done].
Qed.

Lemma n_sum_R_snoc (l : list R) (x : R) : n_sum_R (l ++ [x]) = (n_sum_R l + x)%R.
Proof. induction l as [|y l IH]; simpl; [lra|]. unfold n_sum_R in *. simpl. rewrite IH. lra. Qed.

(** [duration] returns one entry per source of the scans, holding the
    sum of the minutes ([duration * 1440]) of the scans of that source;
    with [nocal], the scans whose intent is a sideband, pointing or
    atmosphere calibration count for nothing, but their source is still
    listed. *)
Theorem duration_totals (myscans : list scan_info) (nocal : bool) :
  NoDup (duration myscans nocal).*1
  /\ (forall src, src ∈ (duration myscans nocal).*1 <-> src ∈ scan_source <$> myscans)
  /\ (forall src t, (src, t) ∈ duration myscans nocal ->
        t = n_sum_R (counted_minutes nocal <$> scans_of src myscans)).
Proof.
  unfold duration. induction myscans as [|mys processed IH] using rev_ind.
  { split; [constructor|]. split; [done|]. intros src t H. by apply elem_of_nil in H. }
  rewrite foldl_snoc. destruct IH as (Hnd & Hmem & Hsum).
  set (durations := foldl (duration_step nocal) [] processed) in *.
  unfold duration_step.
  destruct (find_source (scan_source mys) durations 0 None) as [source|] eqn:Efind.
  - apply find_source_found in Efind as [?|(i & t0 & -> & Hi)]; [done|]. simpl.
    assert (Hnames : (alter (fun entry : string * R =>
                               (fst entry, (snd entry + counted_minutes nocal mys)%R))
                        i durations).*1 = durations.*1).
    { apply list_eq. intros j. rewrite !list_lookup_fmap, list_lookup_alter.
      destruct (decide (i = j)) as [->|]; [|done]. by destruct (durations !! j). }
    rewrite Hnames. split; [done|]. split.
    + intros src. rewrite Hmem, fmap_app, elem_of_app. split; [by left|].
      intros [H|H]; [done|]. apply list_elem_of_singleton in H as ->.
      apply Hmem, list_elem_of_fmap. exists (scan_source mys, t0). split; [done|].
      by eapply list_elem_of_lookup_2.
    + intros src t Hin. apply list_elem_of_lookup in Hin as [j Hj].
      rewrite list_lookup_alter in Hj. unfold scans_of. rewrite filter_app.
      destruct (decide (i = j)) as [->|Hne].
      * rewrite Hi in Hj. injection Hj as <- <-.
        rewrite filter_cons_True by done.
        rewrite filter_nil, fmap_app, list_fmap_singleton, n_sum_R_snoc.
        f_equal. apply Hsum. by eapply list_elem_of_lookup_2.
      * assert (Hsrc : src <> scan_source mys).
        { intros ->. apply Hne. eapply NoDup_lookup; [exact Hnd| |];
            rewrite list_lookup_fmap; [by rewrite Hi|by rewrite Hj]. }
        rewrite filter_cons_False by (by intros ?). rewrite filter_nil, app_nil_r.
        apply Hsum. by eapply list_elem_of_lookup_2.
  - assert (Hnew : scan_source mys ∉ durations.*1).
    { intros Hin. apply list_elem_of_fmap in Hin as ([name t0] & Hname & Hin).
      simpl in Hname. subst name. apply list_elem_of_lookup in Hin as [i Hi].
      by rewrite (find_source_present _ _ 0 None i t0 Hnd Hi) in Efind. }
    rewrite fmap_app. simpl. split; [|split].
    + apply NoDup_app. split; [done|]. split; [|apply NoDup_singleton].
      intros src Hsrc Hin. apply list_elem_of_singleton in Hin as ->. done.
    + intros src. rewrite fmap_app, !elem_of_app, Hmem. done.
    + intros src t Hin. unfold scans_of. rewrite filter_app.
      apply elem_of_app in Hin as [Hin|Hin].
      * assert (Hsrc : src <> scan_source mys).
        { intros ->. apply Hnew, list_elem_of_fmap. by exists (scan_source mys, t). }
        rewrite filter_cons_False by (by intros ?). rewrite filter_nil, app_nil_r.
        by apply Hsum.
      * apply list_elem_of_singleton in Hin as [= -> ->].
        rewrite filter_cons_True by done.
        rewrite filter_nil, fmap_app, list_fmap_singleton, n_sum_R_snoc.
        assert (Hnone : filter (fun m => scan_source m = scan_source mys) processed = []).
        { destruct (filter _ processed) as [|m rest] eqn:E; [done|].
          assert (Hm : m ∈ filter (fun m => scan_source m = scan_source mys) processed)
            by (rewrite E; left).
          apply list_elem_of_filter in Hm as [Heq Hm]. destruct Hnew. apply Hmem.
          apply list_elem_of_fmap. by exists m. }
        rewrite Hnone. simpl. unfold n_sum_R. simpl. lra.
Qed.

(** ** Candidates read back *)

Lemma tuple_le_total (a b : list Z) : tuple_le a b = true \/ tuple_le b a = true.
Proof.
  revert b. induction a as [|x a IH]; intros [|y b]; simpl; auto.
  destruct (IH b) as [-> | ->];
    destruct (Z.ltb_spec x y), (Z.ltb_spec y x), (Z.eqb_spec x y), (Z.eqb_spec y x);
    simpl; auto; lia.
Qed.

Lemma tuple_le_trans (a b c : list Z) :
  tuple_le a b = true -> tuple_le b c = true -> tuple_le a c = true.
Proof.
  revert b c. induction a as [|x a IH]; intros [|y b] [|z c]; simpl; try done.
  intros Hab Hbc.
  apply orb_true_iff in Hab as [Hab|[Hxy Hab]%andb_true_iff];
    apply orb_true_iff in Hbc as [Hbc|[Hyz Hbc]%andb_true_iff];
    apply orb_true_iff.
  - left. lia.
  - left. lia.
  - left. lia.
  - right. apply andb_true_iff. split; [lia|]. by apply (IH b).
Qed.

#[local] Instance candid_le_total : Total candid_le.
Proof. intros a b. apply tuple_le_total. Qed.

#[local] Instance candid_le_trans : Transitive candid_le.
Proof. intros a b c. apply tuple_le_trans. Qed.

Lemma list_index_lookup (x : string) (l : list string) (i : Z) :
  list_index x l = Some i -> 0 <= i /\ l !! Z.to_nat i = Some x.
Proof.
  revert i. induction l as [|y l IH]; intros i H; [done|]. simpl in H.
  destruct (String.eqb_spec x y) as [->|_].
  - injection H as <-. done.
  - destruct (list_index x l) as [j|]; [|done]. injection H as <-.
    destruct (IH j eq_refl) as [Hj Hl]. split; [lia|].
    replace (Z.to_nat (Z.succ j)) with (S (Z.to_nat j)) by lia. done.
Qed.

Lemma list_index_elem (x : string) (l : list string) :
  x ∈ l -> exists i, list_index x l = Some i.
Proof.
  induction l as [|y l IH]; intros Hin; [by apply elem_of_nil in Hin|]. simpl.
  destruct (String.eqb_spec x y) as [->|Hne]; [by eexists|].
  apply elem_of_cons in Hin as [->|Hin]; [done|].
  destruct (IH Hin) as [i ->]. by eexists.
Qed.

Section ReadCandidates.

Variables (d : state) (cands : gmap candid (list R)) (snrmin snrmax : R) (col : Z).

Hypothesis Hcol : snrcol (features d) = Some col.
Hypothesis Hpos : 0 <= col.
Hypothesis Hwide : forall kk v, cands !! kk = Some v -> col < Z.of_nat (length v).

(** The candidate that passes the cut, if the key has one. *)
Let selected (kk : candid) : option (candid * list R) :=
  v ← cands !! kk;
  snr ← v !! Z.to_nat col;
  if Rltb snrmin (Rabs snr) && Rltb (Rabs snr) snrmax then Some (kk, v) else None.

Lemma read_candidate_step (acc : list candid * list (list R)) (kk : candid) :
  is_Some (cands !! kk) ->
  read_candidate d cands snrmin snrmax acc kk
  = Ok (fst acc ++ (fst <$> omap selected [kk]), snd acc ++ (snd <$> omap selected [kk])).
Proof.
  intros [v Hv]. unfold read_candidate, selected. rewrite Hv, Hcol. cbn [getkey bind].
  destruct (index_in_range v col) as (snr & Hsnr & ->); [by split; [|eapply Hwide]|].
  cbn [bind omap list_omap mbind option_bind]. rewrite Hv. cbn. rewrite Hsnr. cbn.
  destruct (Rltb snrmin (Rabs snr) && Rltb (Rabs snr) snrmax); cbn.
  - done.
  - rewrite !app_nil_r. by destruct acc.
Qed.

Lemma read_candidates_loop (keys : list candid) (acc : list candid * list (list R)) :
  Forall (fun kk => is_Some (cands !! kk)) keys ->
  foldM (read_candidate d cands snrmin snrmax) acc keys
  = Ok (fst acc ++ (fst <$> omap selected keys), snd acc ++ (snd <$> omap selected keys)).
Proof.
  revert acc. induction keys as [|kk keys IH]; intros acc Hall.
  - simpl. rewrite !app_nil_r. by destruct acc.
  - apply Forall_cons in Hall as [Hkk Hall]. cbn [foldM].
    rewrite (read_candidate_step acc kk Hkk), (IH _ Hall). cbn [fst snd].
    change (kk :: keys) with ([kk] ++ keys).
    by rewrite omap_app, !fmap_app, !app_assoc.
Qed.

Lemma selected_key (kk : candid) (p : candid * list R) : selected kk = Some p -> fst p = kk.
Proof.
  unfold selected. destruct (cands !! kk) as [v|]; [|done]. cbn.
  destruct (v !! Z.to_nat col) as [snr|]; [|done]. cbn.
  destruct (_ && _); [|done]. by intros [= <-].
Qed.

Lemma selected_sorted (keys : list candid) :
  StronglySorted candid_le keys -> StronglySorted candid_le (fst <$> omap selected keys).
Proof.
  induction 1 as [|kk keys Hs IH Hall]; [constructor|].
  cbn [omap list_omap]. destruct (selected kk) as [p|] eqn:E; [|done].
  rewrite fmap_cons. apply SSorted_cons; [done|].
  rewrite (selected_key kk p E). apply Forall_forall. intros k Hk.
  apply list_elem_of_fmap in Hk as (q & -> & Hq).
  apply list_elem_of_omap in Hq as (k' & Hk' & Hsel).
  rewrite (selected_key k' q Hsel). by apply (proj1 (Forall_forall _ _) Hall).
Qed.

Lemma selected_NoDup (keys : list candid) :
  NoDup keys -> NoDup (fst <$> omap selected keys).
Proof.
  induction 1 as [|kk keys Hnotin Hnd IH]; [constructor|].
  cbn [omap list_omap]. destruct (selected kk) as [p|] eqn:E; [|done].
  rewrite fmap_cons. apply NoDup_cons. split; [|done].
  rewrite (selected_key kk p E). intros Hk.
  apply list_elem_of_fmap in Hk as (q & Hq1 & Hq).
  apply list_elem_of_omap in Hq as (k' & Hk' & Hsel).
  rewrite (selected_key k' q Hsel) in Hq1. by subst.
Qed.

Lemma read_candidates_run :
  let keys := merge_sort candid_le (fst <$> map_to_list cands) in
  read_candidates d cands snrmin snrmax
  = Ok (fst <$> omap selected keys, snd <$> omap selected keys)
  /\ StronglySorted candid_le (fst <$> omap selected keys)
  /\ NoDup (fst <$> omap selected keys)
  /\ forall kk v,
       (kk, v) ∈ omap selected keys
       <-> cands !! kk = Some v
           /\ exists snr, v !! Z.to_nat col = Some snr /\ (snrmin < Rabs snr < snrmax)%R.
Proof.
  intros keys.
  assert (Hperm : keys ≡ₚ fst <$> map_to_list cands) by apply merge_sort_Permutation.
  assert (Hkeys : forall kk, kk ∈ keys <-> is_Some (cands !! kk)).
  { intros kk. rewrite Hperm, list_elem_of_fmap. split.
    - intros ([k v] & -> & Hin). apply elem_of_map_to_list in Hin. by eexists.
    - intros [v Hv]. exists (kk, v). split; [done|]. by apply elem_of_map_to_list. }
  split; [|split; [|split]].
  - unfold read_candidates. fold keys. rewrite read_candidates_loop; [done|].
    apply Forall_forall. intros kk. apply Hkeys.
  - apply selected_sorted, StronglySorted_merge_sort; apply _.
  - apply selected_NoDup. rewrite Hperm. apply NoDup_fst_map_to_list.
  - intros kk v. rewrite list_elem_of_omap. split.
    + intros (k & Hk & Hsel). pose proof (selected_key k _ Hsel) as Hfst. simpl in Hfst.
      subst k. unfold selected in Hsel.
      destruct (cands !! kk) as [v'|]; [|done]. cbn in Hsel.
      destruct (v' !! Z.to_nat col) as [snr|] eqn:Esnr; [|done]. cbn in Hsel.
      destruct (Rltb snrmin (Rabs snr) && Rltb (Rabs snr) snrmax) eqn:Ecut; [|done].
      injection Hsel as <-. split; [done|]. exists snr. split; [done|].
      apply andb_true_iff in Ecut as [H1 H2]. unfold Rltb in H1, H2.
      destruct (Rlt_dec snrmin (Rabs snr)); [|done].
      destruct (Rlt_dec (Rabs snr) snrmax); [|done]. done.
    + intros (Hv & snr & Hsnr & Hlo & Hhi). exists kk. split; [by apply Hkeys|].
      unfold selected. rewrite Hv. cbn. rewrite Hsnr. cbn.
      by rewrite (Rltb_true _ _ Hlo), (Rltb_true _ _ Hhi).
Qed.

End ReadCandidates.

(** [read_candidates] returns the candidates of the dictionary whose
    absolute SNR is strictly above [snrmin] and strictly below [snrmax],
    and no other: the keys come sorted and without repetition, each with
    its own features, and the SNR is read in the column of ['snr2'] when
    the state lists that feature and in the column of ['snr1']
    otherwise. *)
Theorem read_candidates_selects (d : state) (cands : gmap candid (list R))
    (snrmin snrmax : R) :
  ("snr2"%string ∈ features d \/ "snr1"%string ∈ features d) ->
  (forall kk v, cands !! kk = Some v -> length v = length (features d)) ->
  exists (col : nat) loc prop,
    features d !! col
    = Some (if bool_decide ("snr2"%string ∈ features d) then "snr2" else "snr1")%string
    /\ read_candidates d cands snrmin snrmax = Ok (loc, prop)
    /\ length loc = length prop
    /\ StronglySorted candid_le loc /\ NoDup loc
    /\ forall kk v,
         (kk, v) ∈ zip loc prop
         <-> cands !! kk = Some v
             /\ exists snr, v !! col = Some snr /\ (snrmin < Rabs snr < snrmax)%R.
Proof.
  intros Hfeat Hlen.
  assert (Hcol : exists col,
            snrcol (features d) = Some col /\ 0 <= col
            /\ features d !! Z.to_nat col
               = Some (if bool_decide ("snr2"%string ∈ features d) then "snr2" else "snr1")%string).
  { unfold snrcol. destruct (bool_decide_reflect ("snr2"%string ∈ features d)) as [H2|H2].
    - destruct (list_index_elem _ _ H2) as [i Hi]. exists i. split; [done|].
      by apply list_index_lookup.
    - destruct Hfeat as [?|H1]; [done|]. rewrite (bool_decide_eq_true_2 _ H1).
      destruct (list_index_elem _ _ H1) as [i Hi]. exists i. split; [done|].
      by apply list_index_lookup. }
  destruct Hcol as (col & Hcol & Hpos & Hname).
  assert (Hwide : forall kk v, cands !! kk = Some v -> col < Z.of_nat (length v)).
  { intros kk v Hv. rewrite (Hlen kk v Hv). apply lookup_lt_Some in Hname. lia. }
  destruct (read_candidates_run d cands snrmin snrmax col Hcol Hpos Hwide)
    as (Hrun & Hsorted & Hnd & Hsel).
  eexists (Z.to_nat col), _, _. split; [exact Hname|]. split; [exact Hrun|].
  split; [by rewrite !length_fmap|]. split; [exact Hsorted|]. split; [exact Hnd|].
  intros kk v. rewrite zip_fst_snd. apply Hsel.
Qed.

Lemma read_candidates_selects_witness :
  exists loc prop,
    read_candidates example_state {[ (1, 3, 0, 0, 0) := [7; 1; 0; 0]%R ]} 0 999
    = Ok (loc, prop)
    /\ length loc = length prop.
Proof.
  destruct (read_candidates_selects example_state {[ (1, 3, 0, 0, 0) := [7; 1; 0; 0]%R ]}
              0 999) as (col & loc & prop & _ & Hrun & Hlen & _).
  - right. left.
  - intros kk v Hv. apply lookup_singleton_Some in Hv as [_ <-]. reflexivity.
  - exists loc, prop. split; [exact Hrun|exact Hlen].
Defined.

(** ** The windows of the noise measurements *)

Lemma mapM_Ok {A B : Type} (f : A -> result B) (g : A -> B) (l : list A) :
  Forall (fun x => f x = Ok (g x)) l -> mapM f l = Ok (g <$> l).
Proof.
  induction 1 as [|x l Hx Hl IH]; [done|]. simpl. by rewrite Hx, IH.
Qed.

(** For data of at least one integration and a positive [chunk],
    [noisepickle] makes at least one measurement.  Data of at most
    [chunk] integrations are measured in the first integration alone;
    longer data are measured in the windows of [chunk] integrations that
    start before the last multiple of [chunk] below [nints], so that the
    last window, whole or not, is left out.  Every window lies in the
    data, and from two integrations on the last integration is in no
    window. *)
Theorem noise_windows_spec (nints chunk : Z) :
  1 <= nints -> 1 <= chunk ->
  exists windows,
    noise_windows nints chunk = Ok windows
    /\ windows <> []
    /\ (nints <= chunk -> windows = [(0, 1, 0)])
    /\ (chunk < nints ->
        windows = (fun k => (k * chunk, (k + 1) * chunk, (k * chunk + (k + 1) * chunk) / 2))
                    <$> range ((nints + chunk - 1) / chunk - 1))
    /\ Forall (fun w => 0 <= fst (fst w) < snd (fst w) /\ snd (fst w) <= nints
                        /\ fst (fst w) <= snd w < snd (fst w)) windows
    /\ (2 <= nints -> Forall (fun w => snd (fst w) < nints) windows).
Proof.
  intros Hn Hc. unfold noise_windows, range3.
  destruct (Z.le_gt_cases nints chunk) as [Hle|Hgt].
  - rewrite Z.min_r by lia.
    destruct (Z.eqb_spec nints 0) as [?|_]; [lia|].
    destruct (Z.ltb_spec 0 nints) as [_|?]; [|lia].
    replace ((nints - 0 + nints - 1) / nints) with 1
      by (apply Z.div_unique with (r := nints - 1); lia).
    cbn. exists [(0, 1, 0)]. split; [done|]. split; [done|]. split; [done|].
    split; [lia|]. split.
    + repeat constructor; simpl; lia.
    + intros H2. repeat constructor; simpl; lia.
  - rewrite Z.min_l by lia.
    destruct (Z.eqb_spec chunk 0) as [?|_]; [lia|].
    destruct (Z.ltb_spec 0 chunk) as [_|?]; [|lia].
    cbn [bind]. rewrite Z.sub_0_r.
    set (n := (nints + chunk - 1) / chunk).
    assert (Hn2 : 2 <= n).
    { apply Z.div_le_lower_bound; lia. }
    assert (Hlast : (n - 1) * chunk < nints).
    { pose proof (Z.mul_div_le (nints + chunk - 1) chunk) as Hmul. fold n in Hmul.
      pose proof (Z.mod_pos_bound (nints + chunk - 1) chunk) as Hmod.
      pose proof (Z.div_mod (nints + chunk - 1) chunk) as Hdm. fold n in Hdm. nia. }
    set (rr := (fun i => 0 + i * chunk) <$> range n).
    assert (Hlen : Z.of_nat (length rr) = n).
    { unfold rr, range. rewrite length_fmap, length_seqZ. lia. }
    rewrite Hlen. destruct (Z.eqb_spec n 1) as [?|_]; [lia|]. rewrite Hlen.
    assert (Hidx : forall i, 0 <= i < n -> index rr i = Ok (i * chunk)).
    { intros i Hi. apply index_lookup; [lia|]. unfold rr, range.
      rewrite list_lookup_fmap, lookup_seqZ_lt by lia. simpl. f_equal. lia. }
    rewrite (mapM_Ok _ (fun k => (k * chunk, (k + 1) * chunk,
                                  (k * chunk + (k + 1) * chunk) / 2))).
    2:{ apply Forall_seqZ. intros i Hi. rewrite !Hidx by lia. reflexivity. }
    eexists. split; [reflexivity|]. split; [|split; [lia|split; [reflexivity|split]]].
    + unfold range. rewrite seqZ_cons by lia. done.
    + apply Forall_fmap, Forall_seqZ. intros k Hk. simpl.
      assert (k * chunk + (k + 1) * chunk = chunk + (2 * k) * chunk) by lia.
      assert (Hmid : k * chunk <= (k * chunk + (k + 1) * chunk) / 2 < (k + 1) * chunk).
      { split; [apply Z.div_le_lower_bound; lia|apply Z.div_lt_upper_bound; lia]. }
      nia.
    + intros _. apply Forall_fmap, Forall_seqZ. intros k Hk. simpl. nia.
Qed.

Lemma noise_windows_spec_witness :
  exists windows, noise_windows 500 200 = Ok windows /\ windows <> [].
Proof.
  destruct (noise_windows_spec 500 200) as (windows & Hrun & Hne & _); [lia|lia|].
  exists windows. split; [exact Hrun|exact Hne].
Defined.

(** ** Coordinates in sexagesimal *)

Local Open Scope R_scope.

Lemma Rfloor_bounds (x : R) : IZR (Rfloor x) <= x < IZR (Rfloor x) + 1.
Proof. unfold Rfloor. destruct (base_Int_part x). lra. Qed.





Local Close Scope R_scope.

(** ** The extent of the DM grid *)

Local Open Scope R_scope.

(** Every DM of the grid of [calc_dmgrid] is one of the trial DMs
    [mindm + 0.05 i] that numpy counts, at least [mindm], and below
    [maxdm + 0.05 err] when the quotient that numpy computes for the
    number of trial DMs is within [err] of the exact one: with exact
    arithmetic the grid stays below [maxdm], and rounding of the quotient
    can bring in the trial DM at [maxdm] itself. *)
Theorem calc_dmgrid_range (float_quotient : R -> R -> R -> R) (d : state)
    (maxloss dt mindm maxdm f0 f1 flast err : R) :
  freq d !! 0%nat = Some f0 -> freq d !! 1%nat = Some f1 -> last (freq d) = Some flast ->
  maxdm <> 0 -> 0 < float_quotient mindm maxdm 0.05 ->
  Rabs (float_quotient mindm maxdm 0.05 - (maxdm - mindm) / 0.05) <= err ->
  exists grid,
    calc_dmgrid float_quotient d maxloss dt mindm maxdm = Ok grid
    /\ Forall (fun dm => dm ∈ arange float_quotient mindm maxdm 0.05
                        /\ mindm <= dm < maxdm + 0.05 * err
                        /\ exists i : nat, dm = mindm + INR i * 0.05) grid.
Proof.
  intros H0 H1 Hl Hmax Hq Herr. eexists. split; [by apply calc_dmgrid_grid|].
  rewrite arange_trial_grid.
  destruct (arange_count float_quotient mindm maxdm err) as (Hn & Hin).
  specialize (Hn Hq). destruct (Hin Herr) as [Hin' _].
  assert (Hall : forall dm,
            dm ∈ trial_grid mindm (Z.to_nat (Rceil (float_quotient mindm maxdm 0.05))) ->
            mindm <= dm < maxdm + 0.05 * err /\ exists i : nat, dm = mindm + INR i * 0.05).
  { intros dm Hdm. split; [by apply Hin'|].
    apply elem_of_trial_grid in Hdm as (i & _ & ->). by exists i. }
  apply Forall_cons. split.
  - assert (Hfirst : mindm ∈ trial_grid mindm
                       (Z.to_nat (Rceil (float_quotient mindm maxdm 0.05)))).
    { apply elem_of_trial_grid. exists 0%nat. split; [lia|]. simpl. lra. }
    split; [done|]. by apply Hall.
  - apply Forall_forall. intros dm Hdm. apply spec_dmgrid_elem_of in Hdm.
    split; [done|]. by apply Hall.
Qed.

Lemma calc_dmgrid_range_witness :
  exists grid, calc_dmgrid exact_quotient example_state 0.05 3000 0 1 = Ok grid
    /\ Forall (fun dm => 0 <= dm < 1) grid.
Proof.
  destruct (calc_dmgrid_range exact_quotient example_state 0.05 3000 0 1 1 2 3 0)
    as (grid & Hrun & Hall).
  - reflexivity.
  - reflexivity.
  - reflexivity.
  - lra.
  - unfold exact_quotient. lra.
  - unfold exact_quotient. rewrite Rminus_diag, Rabs_R0. lra.
  - exists grid. split; [exact Hrun|].
    eapply Forall_impl; [exact Hall|]. intros dm (_ & Hdm & _). simpl. lra.
Defined.

Local Close Scope R_scope.

(** ** The load of the threads and of the chunks *)

Lemma cut_balanced (n k t : Z) :
  0 < k -> n / k <= n * (t + 1) / k - n * t / k <= n / k + 1.
Proof.
  intros Hk.
  pose proof (Z.div_mod n k ltac:(lia)) as Hn.
  pose proof (Z.mod_pos_bound n k Hk) as Hnr.
  pose proof (Z.div_mod (n * t) k ltac:(lia)) as Ha.
  pose proof (Z.mod_pos_bound (n * t) k Hk) as Har.
  pose proof (Z.div_mod (n * (t + 1)) k ltac:(lia)) as Hb.
  pose proof (Z.mod_pos_bound (n * (t + 1)) k Hk) as Hbr.
  nia.
Qed.

(** [search] shares the work evenly: with [q = nbl / nthread], every
    thread dedisperses [q] or [q + 1] baselines, and with
    [q = searchints / nchunk], every imaging job gets [q] or [q + 1]
    integrations. *)
Theorem search_ranges_balanced (d : state) (nskip sints : Z) :
  1 <= nthread d -> 1 <= nchunk d ->
  Forall (fun r => nbl d / nthread d <= snd r - fst r <= nbl d / nthread d + 1) (blranges d)
  /\ Forall (fun r => sints / nchunk d <= snd r - fst r <= sints / nchunk d + 1)
       (irange d nskip sints).
Proof.
  intros Ht Hc. split.
  - unfold blranges. apply Forall_fmap, Forall_seqZ. intros t _. simpl.
    apply cut_balanced. lia.
  - unfold irange. apply Forall_fmap, Forall_seqZ. intros t _. simpl.
    pose proof (cut_balanced sints (nchunk d) t ltac:(lia)). lia.
Qed.

Lemma search_ranges_balanced_witness :
  Forall (fun r => 11 <= snd r - fst r <= 12) (blranges example_state).
Proof.
  destruct (search_ranges_balanced example_state 0 0) as [H _].
  - simpl. lia.
  - simpl. lia.
  - exact H.
Defined.

(** ** The time of a candidate *)

Local Open Scope R_scope.

Lemma n_round_near (x : R) : Rabs (IZR (n_round x) - x) <= 1 / 2.
Proof.
  unfold n_round. pose proof (Rfloor_bounds x) as Hf.
  destruct (Rlt_dec (x - IZR (Rfloor x)) (1 / 2)) as [Hlo|Hlo].
  - apply Rabs_le. lra.
  - destruct (Rlt_dec (1 / 2) (x - IZR (Rfloor x))) as [Hhi|Hhi].
    + rewrite plus_IZR. apply Rabs_le. lra.
    + destruct (Z.even (Rfloor x)); [|rewrite plus_IZR]; apply Rabs_le; lra.
Qed.

(** The time that [int2mjd] gives to the candidate at integration [i] of
    a segment planned by [calc_segment_times] is, when the quanta tool
    gives every time back exactly, within half an integration of the
    start of integration [i] of the data that [read_bdf_segment] reads
    for that segment. *)
Theorem int2mjd_accuracy (qa_days : R -> R) (d : pipeline_state) (seg i dmind dtind beamnum : Z) :
  (1 <= nsegments d)%Z -> 0 < inttime d ->
  (forall t, qa_days t = t) ->
  featureind d = ["segment"; "int"; "dmind"; "dtind"; "beamnum"]%string ->
  segmenttimesdict d = None ->
  (0 <= seg < nsegments d)%Z ->
  exists d' nskip' rints t,
    calc_segment_times qa_days d = Ok d'
    /\ segment_range d' seg = Ok (nskip', rints)
    /\ int2mjd d' [[seg; i; dmind; dtind; beamnum]] = Ok [t]
    /\ Rabs (t - (starttime_mjd d * (24 * 3600) + inttime d * IZR (nskip' + i)))
       <= inttime d / 2.
Proof.
  intros Hn Hint Hqa Hfeat Hdict Hseg.
  destruct (calc_segment_times_run qa_days d Hn)
    as (d' & Hrun & Htimes & _ & Hit & Hmjd & _ & _ & Hfeat' & Hdict').
  set (ov := t_overlap d / inttime d) in *.
  set (st := (IZR (nints d) - (IZR (nskip d) + ov)) / IZR (nsegments d)) in *.
  set (rowf := fun j : Z =>
         (qa_days (starttime_mjd d
                   + inttime d * (IZR (nskip d) + ov + IZR j * st - ov) / (24 * 3600)),
          qa_days (starttime_mjd d
                   + inttime d * (IZR (nskip d) + ov + IZR (1 + j) * st) / (24 * 3600)))) in *.
  assert (Hlook : forall j, (0 <= j < nsegments d)%Z ->
            index (rowf <$> seqZ 0 (nsegments d)) j = Ok (rowf j)).
  { intros j Hj. apply index_lookup; [lia|].
    rewrite list_lookup_fmap, lookup_seqZ_lt by lia. simpl. do 2 f_equal. lia. }
  set (S0 := IZR (nskip d) + IZR seg * st).
  assert (Hstart : fst (rowf seg) = starttime_mjd d + inttime d * S0 / (24 * 3600)).
  { unfold rowf, S0. cbn [fst]. rewrite Hqa. f_equal. f_equal. f_equal. lra. }
  exists d'. eexists _, _, _. split; [exact Hrun|]. split; [|split].
  - unfold segment_range. destruct (Z.eqb_spec seg (-1)) as [?|_]; [lia|]. cbn [negb].
    rewrite Htimes, (Hlook 0%Z) by lia. cbn [bind]. rewrite (Hlook seg) by lia. cbn [bind].
    reflexivity.
  - unfold int2mjd. rewrite Hfeat', Hfeat, Hdict', Hdict, Htimes.
    cbn [index_of list_index String.eqb Ascii.eqb Bool.eqb fmap option_fmap option_map bind
         getkey mapM].
    change (index [seg; i; dmind; dtind; beamnum] (Z.succ 0)) with (Ok i).
    change (index [seg; i; dmind; dtind; beamnum] 0) with (Ok seg).
    cbn [bind]. rewrite (Hlook seg) by lia. cbn [bind zip_with]. reflexivity.
  - rewrite Hit, Hmjd, Hstart.
    pose proof (n_round_near (24 * 3600 * (starttime_mjd d + inttime d * S0 / (24 * 3600)
                                           - starttime_mjd d) / inttime d)) as Hnear.
    set (nr := n_round _) in *.
    replace (24 * 3600 * (starttime_mjd d + inttime d * S0 / (24 * 3600) - starttime_mjd d)
             / inttime d) with S0 in Hnear by (field; lra).
    rewrite plus_IZR.
    match goal with |- Rabs ?e <= _ =>
      replace e with (inttime d * - (IZR nr - S0)) by (field; lra) end.
    rewrite Rabs_mult, Rabs_Ropp, (Rabs_pos_eq (inttime d)) by lra.
    assert (H : inttime d * Rabs (IZR nr - S0) <= inttime d * (1 / 2))
      by (apply Rmult_le_compat_l; lra).
    lra.
Qed.

Lemma int2mjd_accuracy_witness :
  exists d' t,
    calc_segment_times (fun t => t) example_scan = Ok d'
    /\ int2mjd d' [[2; 17; 0; 0; 0]%Z] = Ok [t].
Proof.
  destruct (int2mjd_accuracy (fun t => t) example_scan 2 17 0 0 0)
    as (d' & nskip' & rints & t & Hrun & _ & Ht & _).
  - simpl. lia.
  - simpl. lra.
  - reflexivity.
  - reflexivity.
  - reflexivity.
  - simpl. lia.
  - exists d', t. split; [exact Hrun|exact Ht].
Defined.

Local Close Scope R_scope.

(** ** Two-stage imaging with w-projection *)

Lemma foldM_ext {A B : Type} (f g : B -> A -> result B) (acc : B) (l : list A) :
  (forall b a, f b a = g b a) -> foldM f acc l = foldM g acc l.
Proof.
  intros Hfg. revert acc. induction l as [|x l IH]; intros acc; [done|].
  simpl. rewrite Hfg. destruct (g acc x); [apply IH|done].
Qed.

(** [image2w] is [image2] with another second stage: it images every
    candidate of the first stage again with [imgonefullw] on a square of
    [max(npixx_full, npixy_full)] pixels, and from there on finds the
    extreme pixel, applies the threshold [sigma_image2] and builds keys
    and features exactly as [image2] does. *)
Theorem image2w_as_image2 {Bls Kernels : Type}
    (imgallfullfilterxy : list (list R) -> list (list R) -> visdata -> Z -> Z -> Z -> R ->
                          list image * list R * list Z)
    (imgonefullw : list (list R) -> list (list R) -> list (list (list complex)) -> Z -> Z ->
                   Bls -> Kernels -> image)
    (d : state) (data_resamp : visdata) (i0 i1 : Z) (u v w : list R)
    (dmind dtind beamnum : Z) (bls : Bls) (uvkers : Kernels) :
  image2w imgallfullfilterxy imgonefullw d data_resamp i0 i1 u v w dmind dtind beamnum
    bls uvkers
  = image2 imgallfullfilterxy
      (fun uu vv integration _ _ uv_res =>
         imgonefullw uu vv integration (Z.max (npixx_full d) (npixy_full d)) uv_res
           bls uvkers)
      d data_resamp i0 i1 u v w dmind dtind beamnum.
Proof.
  unfold image2w, image2.
  destruct (uv_scaled d u) as [uu|]; [|done]. destruct (uv_scaled d v) as [vv|]; [|done].
  cbn [bind]. apply foldM_ext. intros feat i. reflexivity.
Qed.

(** ** The time ranges removed when candidates are merged *)

Local Open Scope R_scope.

Lemma remove_range_loop (remove times : list R) (ps : list Z) (ww0 : list bool) :
  Forall (fun p => (0 <= p)%Z /\ (2 * p + 1 < Z.of_nat (length remove))%Z) ps ->
  length ww0 = length times ->
  exists ww,
    foldM (remove_range remove times) ww0 ((fun i => 0 + i * 2)%Z <$> ps) = Ok ww
    /\ length ww = length times
    /\ forall (j : nat) t, times !! j = Some t ->
         (ww !! j = Some false
          <-> ww0 !! j = Some false
              \/ exists p b0 b1, p ∈ ps /\ remove !! Z.to_nat (2 * p) = Some b0
                   /\ remove !! Z.to_nat (2 * p + 1) = Some b1 /\ b0 <= t <= b1).
Proof.
  revert ww0. induction ps as [|p ps IH]; intros ww0 Hps Hlen.
  - exists ww0. split; [done|]. split; [done|]. intros j t _. split; [by left|].
    intros [H|(p & _ & _ & Hp & _)]; [done|]. by apply elem_of_nil in Hp.
  - apply Forall_cons in Hps as [[Hp0 Hp1] Hps].
    destruct (index_in_range remove (2 * p)) as (b0 & Hb0 & Hi0); [lia|].
    destruct (index_in_range remove (2 * p + 1)) as (b1 & Hb1 & Hi1); [lia|].
    set (ww1 := zip_with andb ww0 ((fun t => Rltb t b0 || Rltb b1 t) <$> times)).
    assert (Hone : remove_range remove times ww0 (0 + p * 2) = Ok ww1).
    { unfold remove_range. replace (0 + p * 2)%Z with (2 * p)%Z by lia.
      by rewrite Hi0, Hi1. }
    rewrite fmap_cons. cbn [foldM]. rewrite Hone.
    assert (Hlen1 : length ww1 = length times).
    { unfold ww1. rewrite length_zip_with, length_fmap. lia. }
    destruct (IH ww1 Hps Hlen1) as (ww & Hrun & Hlenw & Hw).
    exists ww. split; [exact Hrun|]. split; [exact Hlenw|].
    intros j t Ht. rewrite (Hw j t Ht).
    assert (Hstep : ww1 !! j = Some false
                    <-> ww0 !! j = Some false \/ b0 <= t <= b1).
    { unfold ww1. rewrite lookup_zip_with, list_lookup_fmap, Ht.
      destruct (lookup_lt_is_Some_2 ww0 j) as [b Hb].
      { rewrite Hlen. by eapply lookup_lt_Some. }
      rewrite Hb. cbn. unfold Rltb.
      destruct b, (Rlt_dec t b0), (Rlt_dec b1 t); cbn; split;
        (intros [?|?] || intros ?); (done || lra || (left; done) || (right; lra)). }
    rewrite Hstep. split.
    + intros [[H|H]|(q & c0 & c1 & Hq & H)].
      * by left.
      * right. exists p, b0, b1. split; [left|done].
      * right. exists q, c0, c1. split; [by right|done].
    + intros [H|(q & c0 & c1 & Hq & Hc0 & Hc1 & H)]; [by left; left|].
      apply elem_of_cons in Hq as [->|Hq].
      * left. right. rewrite Hb0 in Hc0. rewrite Hb1 in Hc1.
        injection Hc0 as <-. injection Hc1 as <-. done.
      * right. by exists q, c0, c1.
Qed.

Lemma mask_select_lookup {A : Type} (a : list A) (ww : list bool) (x : A) :
  length ww = length a ->
  x ∈ mask_select a ww <-> exists j, a !! j = Some x /\ ww !! j = Some true.
Proof.
  revert ww. induction a as [|y a IH]; intros [|b ww] Hlen; simpl in *; try lia.
  - split; [by intros H%elem_of_nil|]. by intros (j & H & _).
  - specialize (IH ww ltac:(lia)). destruct b.
    + rewrite elem_of_cons, IH. split.
      * intros [->|(j & Ha & Hw)]; [by exists 0%nat|by exists (S j)].
      * intros ([|j] & Ha & Hw); simpl in *; [left; congruence|right; by exists j].
    + rewrite IH. split.
      * intros (j & Ha & Hw). by exists (S j).
      * intros ([|j] & Ha & Hw); simpl in *; [done|by exists j].
Qed.

(** With an even number of bounds in [remove], [merge_cands] drops the
    candidates whose time, counted from the earliest candidate, lies in
    one of the closed ranges [[remove[2p], remove[2p+1]]], and keeps all
    the others, keys and features alike; with an odd number of bounds it
    raises [IndexError]. *)
Theorem merge_remove_ranges {A B : Type} (remove mergetimes : list R)
    (mergeloc : list A) (mergeprop : list B) :
  remove <> [] -> mergetimes <> [] ->
  length mergeloc = length mergetimes -> length mergeprop = length mergetimes ->
  exists earliest,
    earliest ∈ mergetimes /\ Forall (fun t => earliest <= t) mergetimes
    /\ ((exists k : nat, length remove = (2 * k + 1)%nat) ->
        merge_remove remove mergetimes mergeloc mergeprop = Raise IndexError)
    /\ ((exists k : nat, length remove = (2 * k)%nat) ->
        exists ww,
          merge_remove remove mergetimes mergeloc mergeprop
          = Ok (mask_select mergeloc ww, mask_select mergeprop ww)
          /\ length ww = length mergetimes
          /\ forall (j : nat) t, mergetimes !! j = Some t ->
               (ww !! j = Some false
                <-> exists (p : nat) b0 b1,
                      remove !! (2 * p)%nat = Some b0 /\ remove !! (2 * p + 1)%nat = Some b1
                      /\ b0 <= t - earliest <= b1)).
Proof.
  intros Hrem Htimes Hloc Hprop.
  destruct (n_min_elem mergetimes Htimes) as (earliest & Hmin & Hin).
  exists earliest. split; [done|]. split.
  { destruct mergetimes as [|t0 rest]; [done|]. injection Hmin as <-.
    apply foldl_Rmin_lower. }
  set (times := (fun t => t - earliest) <$> mergetimes).
  assert (Hunfold : merge_remove remove mergetimes mergeloc mergeprop
                    = (firsts <- range3 0 (Z.of_nat (length remove)) 2 ;;
                       ww <- foldM (remove_range remove times)
                               (replicate (length times) true) firsts ;;
                       Ok (mask_select mergeloc ww, mask_select mergeprop ww))).
  { unfold merge_remove. destruct remove as [|r0 rest]; [done|]. by rewrite Hmin. }
  rewrite Hunfold. unfold range3. cbn [Z.eqb Z.ltb Z.compare]. rewrite Z.sub_0_r.
  assert (Hrep : length (replicate (length times) true) = length times)
    by apply length_replicate.
  split.
  - intros [k Hk]. rewrite Hk.
    replace ((Z.of_nat (2 * k + 1) + 2 - 1) / 2)%Z with (Z.of_nat k + 1)%Z
      by (apply Z.div_unique with (r := 0%Z); lia).
    unfold range. rewrite seqZ_app, fmap_app by lia.
    destruct (remove_range_loop remove times (seqZ 0 (Z.of_nat k))
                (replicate (length times) true)) as (ww & Hrun & _); [|done|].
    { apply Forall_seqZ. intros p Hp. lia. }
    assert (HfoldM : forall (l1 l2 : list Z) acc acc',
              foldM (remove_range remove times) acc l1 = Ok acc' ->
              foldM (remove_range remove times) acc (l1 ++ l2)
              = foldM (remove_range remove times) acc' l2).
    { induction l1 as [|x l1 IH1]; intros l2 acc acc' H; simpl in *; [by injection H as ->|].
      destruct (remove_range remove times acc x); [by apply IH1|done]. }
    cbn [bind]. rewrite (HfoldM _ _ _ _ Hrun).
    rewrite (seqZ_cons _ 1), seqZ_nil by lia.
    assert (Hlast : forall first, first = (2 * Z.of_nat k)%Z ->
              remove_range remove times ww first = Raise IndexError).
    { intros first ->. unfold remove_range.
      destruct (index_in_range remove (2 * Z.of_nat k)) as (b0 & _ & Hi0); [lia|].
      rewrite Hi0. cbn [bind]. unfold index.
      destruct (Z.ltb_spec (2 * Z.of_nat k + 1) 0) as [?|_]; [lia|].
      destruct (Z.ltb_spec (2 * Z.of_nat k + 1) 0) as [?|_]; [lia|]. cbn [orb].
      by destruct (Z.leb_spec (Z.of_nat (length remove)) (2 * Z.of_nat k + 1)) as [_|?];
        [|lia]. }
    rewrite fmap_cons. cbn [foldM]. by rewrite Hlast by lia.
  - intros [k Hk]. rewrite Hk.
    replace ((Z.of_nat (2 * k) + 2 - 1) / 2)%Z with (Z.of_nat k)
      by (apply Z.div_unique with (r := 1%Z); lia).
    destruct (remove_range_loop remove times (seqZ 0 (Z.of_nat k))
                (replicate (length times) true)) as (ww & Hrun & Hlenw & Hw); [|done|].
    { apply Forall_seqZ. intros p Hp. lia. }
    unfold range. cbn [bind]. rewrite Hrun. cbn [bind]. exists ww. split; [done|].
    split; [by rewrite Hlenw; unfold times; rewrite length_fmap|].
    intros j t Ht.
    assert (Ht' : times !! j = Some (t - earliest)).
    { unfold times. by rewrite list_lookup_fmap, Ht. }
    rewrite (Hw j _ Ht'). split.
    + intros [H|(p & b0 & b1 & Hp & H0 & H1 & Hb)].
      * apply lookup_replicate in H as [? _]. done.
      * apply elem_of_seqZ in Hp. exists (Z.to_nat p), b0, b1.
        replace (2 * Z.to_nat p)%nat with (Z.to_nat (2 * p)) by lia.
        replace (Z.to_nat (2 * p) + 1)%nat with (Z.to_nat (2 * p + 1)) by lia. done.
    + intros (p & b0 & b1 & H0 & H1 & Hb). right. exists (Z.of_nat p), b0, b1.
      pose proof (lookup_lt_Some _ _ _ H1) as Hlt.
      split; [apply elem_of_seqZ; lia|].
      replace (Z.to_nat (2 * Z.of_nat p)) with (2 * p)%nat by lia.
      replace (Z.to_nat (2 * Z.of_nat p + 1)) with (2 * p + 1)%nat by lia. done.
Qed.

Lemma merge_remove_ranges_witness :
  exists kept, merge_remove [10; 20] [100; 115; 130] ["a"; "b"; "c"]%string [1; 2; 3]%Z
               = Ok kept.
Proof.
  destruct (merge_remove_ranges [10; 20] [100; 115; 130] ["a"; "b"; "c"]%string [1; 2; 3]%Z)
    as (earliest & _ & _ & _ & Heven); try done.
  destruct Heven as (ww & Hrun & _); [by exists 1%nat|].
  eexists. exact Hrun.
Defined.

Local Close Scope R_scope.
